(** * Translation manager core

    A shallow embedding of the four pure algorithms of the translation
    manager: the key sanitizer and linter ([keyOptimizer.ts]), the tree
    flattener ([jsonFlattener.ts]), the tree builders ([jsonBuilder.ts]) and
    the duplicate detector ([duplicateDetector.ts]), followed by the
    properties established about them. *)

From Stdlib Require Import List NArith ZArith Bool Ascii String Lia.
From Stdlib Require Import Permutation DecimalString DecimalNat.
Import ListNotations.


(** ** JavaScript strings

    A JavaScript string is a sequence of UTF-16 code units; the regular
    expressions of the source carry no [u] flag, so they too work on code
    units.  String literals of the source are written [js "..."]. *)

Definition jsstring := list N.

Definition js (s : string) : jsstring :=
  map N_of_ascii (list_ascii_of_string s).
Arguments js s%_string.

Fixpoint str_eqb (a b : jsstring) : bool :=
  match a, b with
  | [], [] => true
  | x :: a', y :: b' => N.eqb x y && str_eqb a' b'
  | _, _ => false
  end.

(** A string is truthy when it is not empty. *)
Definition is_empty (s : jsstring) : bool :=
  match s with [] => true | _ :: _ => false end.

Definition dot : N := 46%N.
Definition underscore : N := 95%N.

Definition is_dot (c : N) : bool := N.eqb c dot.
Definition is_underscore (c : N) : bool := N.eqb c underscore.
Definition is_digit (c : N) : bool := (N.leb 48 c && N.leb c 57)%N.
Definition is_lower (c : N) : bool := (N.leb 97 c && N.leb c 122)%N.

(** The class [[a-z0-9_]]. *)
Definition is_key_char (c : N) : bool :=
  is_lower c || is_digit c || is_underscore c.

(** The class [\s], which is also what [String.prototype.trim] removes:
    ECMAScript WhiteSpace and LineTerminator code points. *)
Definition is_whitespace (c : N) : bool :=
  existsb (N.eqb c)
    [9; 10; 11; 12; 13; 32; 160; 5760; 8232; 8233; 8239; 8287; 12288; 65279]%N
  || (N.leb 8192 c && N.leb c 8202)%N.

(** [s.split('.')]: never an empty array. *)
Fixpoint split_dot (s : jsstring) : list jsstring :=
  match s with
  | [] => [[]]
  | c :: rest =>
      if is_dot c then [] :: split_dot rest
      else match split_dot rest with
           | [] => [[c]]
           | seg :: segs => (c :: seg) :: segs
           end
  end.

(** [segments.join('.')]. *)
Fixpoint join_dot (segments : list jsstring) : jsstring :=
  match segments with
  | [] => []
  | [seg] => seg
  | seg :: rest => seg ++ dot :: join_dot rest
  end.

(** [s.trim()]. *)
Fixpoint drop_leading (p : N -> bool) (s : jsstring) : jsstring :=
  match s with
  | [] => []
  | c :: rest => if p c then drop_leading p rest else s
  end.

Fixpoint drop_trailing (p : N -> bool) (s : jsstring) : jsstring :=
  match s with
  | [] => []
  | c :: rest =>
      match drop_trailing p rest with
      | [] => if p c then [] else [c]
      | kept => c :: kept
      end
  end.

Definition trim (s : jsstring) : jsstring :=
  drop_trailing is_whitespace (drop_leading is_whitespace s).

(** [String(i)] for an array index. *)
Definition index_key (i : nat) : jsstring :=
  js (NilEmpty.string_of_uint (Nat.to_uint i)).

(** ** JSON values

    What [JSON.parse] returns.  An object is the list of its own properties
    in enumeration order.  The source never computes with a number: it only
    tests truthiness and passes the value on, so integers stand for them. *)

#[local] Unset Elimination Schemes.
Inductive json : Type :=
| JNull
| JBool (b : bool)
| JNum (n : Z)
| JStr (s : jsstring)
| JArr (items : list json)
| JObj (props : list (jsstring * json)).
#[local] Set Elimination Schemes.

Definition truthy (v : json) : bool :=
  match v with
  | JNull => false
  | JBool b => b
  | JNum n => negb (Z.eqb n 0)
  | JStr s => negb (is_empty s)
  | JArr _ | JObj _ => true
  end.

(** [v && typeof v === 'object']: objects and arrays. *)
Definition is_object (v : json) : bool :=
  match v with
  | JArr _ | JObj _ => true
  | _ => false
  end.

(** [typeof v === 'object']: objects, arrays and also [null]. *)
Definition typeof_object (v : json) : bool :=
  match v with
  | JNull | JArr _ | JObj _ => true
  | _ => false
  end.

(** *** Keyed collections in insertion order

    Both a JavaScript object (own string-keyed properties) and a [Map] keep
    their keys in insertion order; writing an existing key keeps its place. *)

Fixpoint map_get {V : Type} (k : jsstring) (m : list (jsstring * V)) : option V :=
  match m with
  | [] => None
  | (k', v) :: rest => if str_eqb k' k then Some v else map_get k rest
  end.

Fixpoint map_set {V : Type} (k : jsstring) (v : V) (m : list (jsstring * V))
  : list (jsstring * V) :=
  match m with
  | [] => [(k, v)]
  | (k', v') :: rest =>
      if str_eqb k' k then (k, v) :: rest else (k', v') :: map_set k v rest
  end.

Definition map_has {V : Type} (k : jsstring) (m : list (jsstring * V)) : bool :=
  match map_get k m with Some _ => true | None => false end.

(** [v[k]] and [v.k] for the property names the source reads, none of which
    is an array index or [length]: [None] is [undefined]. *)
Definition prop (v : json) (k : jsstring) : option json :=
  match v with
  | JObj props => map_get k props
  | _ => None
  end.

(** [k in v], for [v] an object or an array and [k] not an index. *)
Definition js_in (k : jsstring) (v : json) : bool :=
  match v with
  | JObj props => map_has k props
  | _ => false
  end.

(** [a || b] where [a] may be [undefined]. *)
Definition or_else (a : option json) (b : json) : json :=
  match a with
  | Some v => if truthy v then v else b
  | None => b
  end.

(** ** Key sanitizer and linter ([keyOptimizer.ts]) *)

Definition FORBIDDEN_KEYWORDS : list jsstring := map js
  [ "abstract"; "assert"; "boolean"; "break"; "byte"; "case"; "catch"; "char";
    "class"; "const"; "continue"; "default"; "do"; "double"; "else"; "enum";
    "extends"; "final"; "finally"; "float"; "for"; "goto"; "if"; "implements";
    "import"; "instanceof"; "int"; "interface"; "long"; "native"; "new"; "null";
    "package"; "private"; "protected"; "public"; "return"; "short"; "static";
    "strictfp"; "super"; "switch"; "synchronized"; "this"; "throw"; "throws";
    "transient"; "try"; "void"; "volatile"; "while";
    "as"; "fun"; "in"; "is"; "object"; "typealias"; "typeof"; "val"; "var";
    "when"; "companion"; "data"; "sealed"; "internal"; "open"; "lateinit";
    "inline"; "crossinline"; "noinline"; "reified"; "suspend"; "tailrec";
    "vararg"; "where"; "it"; "out"; "dynamic"; "actual"; "expect";
    "let"; "func"; "self"; "true"; "false"; "nil"; "inout"; "init"; "deinit";
    "subscript"; "convenience"; "required"; "override"; "mutating"; "lazy";
    "weak"; "unowned"; "optional"; "prefix"; "postfix"; "infix"; "operator";
    "fileprivate"; "rethrows"; "repeat"; "guard"; "defer"; "fallthrough";
    "associatedtype"; "protocol"; "struct"; "extension"; "indirect"; "get"; "set";
    "willset"; "didset"; "any"; "some";
    "auto"; "register"; "extern"; "union"; "signed"; "unsigned"; "sizeof"; "typedef";
    "id"; "string"; "layout"; "color"; "style"; "drawable"; "menu"; "raw"; "xml";
    "mipmap"; "name"; "anim"; "animator"; "array"; "attr"; "bool"; "dimen";
    "fraction"; "integer"; "interpolator"; "plurals"; "values"; "font"; "unit";
    "type"; "value"; "key"; "index"; "item"; "list"; "map"; "result"; "error"
  ]%string.

(** [FORBIDDEN_KEYWORDS.has(s)]. *)
Definition forbidden (s : jsstring) : bool :=
  existsb (str_eqb s) FORBIDDEN_KEYWORDS.

(** [.replace(/C+/g, r)] for a character class [C] and a one-unit
    replacement [r]: every maximal run of [C] becomes one [r].  [in_run]
    tells that the previous unit was in the class. *)
Fixpoint replace_runs (p : N -> bool) (r : N) (in_run : bool) (s : jsstring)
  : jsstring :=
  match s with
  | [] => []
  | c :: rest =>
      if p c then
        if in_run then replace_runs p r true rest
        else r :: replace_runs p r true rest
      else c :: replace_runs p r false rest
  end.

(** [/^[0-9]/.test(s)]. *)
Definition starts_with_digit (s : jsstring) : bool :=
  match s with
  | c :: _ => is_digit c
  | [] => false
  end.

Module OptimizeResult.
Record t := mk { optimized : jsstring; wasChanged : bool }.
End OptimizeResult.

Module KeyIssue.
Record t := mk { original : jsstring; suggested : jsstring; keyPath : jsstring }.
End KeyIssue.

Section KeyOptimizer.

(** [String.prototype.toLowerCase] is the engine's Unicode lower-casing; its
    table is no part of the repository, so it is a parameter here. *)
Variable toLowerCase : jsstring -> jsstring.

(** The chain of [replace] calls that opens [optimizeKey]. *)
Definition cleanup (key : jsstring) : jsstring :=
  let s := toLowerCase key in
  let s := replace_runs is_whitespace underscore false s in   (* /\s+/g -> '_' *)
  let s := filter is_key_char s in                            (* /[^a-z0-9_]/g -> '' *)
  let s := replace_runs is_underscore underscore false s in   (* /_+/g -> '_' *)
  drop_trailing is_underscore (drop_leading is_underscore s). (* /^_+|_+$/g -> '' *)

Definition optimizeKey (key : jsstring) : OptimizeResult.t :=
  let result := cleanup key in
  let result :=
    if is_empty result || starts_with_digit result
    then js "fix_" ++ result else result in
  let result :=
    if forbidden result then js "common_fix_" ++ result else result in
  OptimizeResult.mk result (negb (str_eqb key result)).

Definition analyzeKeyIssues (keyPath : jsstring) : option KeyIssue.t :=
  let segments := split_dot keyPath in
  let lastSegment := last segments [] in
  let r := optimizeKey lastSegment in
  if negb (OptimizeResult.wasChanged r) then None
  else
    let fixedSegments := removelast segments ++ [OptimizeResult.optimized r] in
    Some (KeyIssue.mk lastSegment (OptimizeResult.optimized r)
            (join_dot fixedSegments)).

End KeyOptimizer.

(** A lower-casing that touches the Basic Latin capitals only.  It agrees
    with the engine's on every string of Basic Latin code units and serves
    to run the sanitizer on such inputs. *)
Definition ascii_toLowerCase (s : jsstring) : jsstring :=
  map (fun c => if (N.leb 65 c && N.leb c 90)%N then (c + 32)%N else c) s.

(** ** Tree flattener ([jsonFlattener.ts]) *)

Inductive Lang := az | en | ru.

(** The casts [child.$value as string] and [child.$type as string] of the
    source check nothing at run time: a row holds whatever JSON value the
    tree carried.  [JNull] is [null]. *)
Module FlatRow.
Record t := mk {
  key_path : jsstring;
  az_value : json;
  en_value : json;
  ru_value : json;
  token_type : json;
  figma_variable_id : json
}.
End FlatRow.

Module GroupExt.
Record t := mk { group_path : jsstring; extensions : json }.
End GroupExt.

Module FlattenResult.
Record t := mk { rows : list FlatRow.t; groupExtensions : list GroupExt.t }.
End FlattenResult.

(** The two [Map]s threaded through [flattenNode]. *)
Definition RowMap := list (jsstring * FlatRow.t).
Definition GroupMap := list (jsstring * GroupExt.t).

(** [existing[`${lang}_value`] = v]. *)
Definition set_lang_value (lang : Lang) (v : json) (r : FlatRow.t) : FlatRow.t :=
  match lang with
  | az => FlatRow.mk (FlatRow.key_path r) v (FlatRow.en_value r) (FlatRow.ru_value r)
            (FlatRow.token_type r) (FlatRow.figma_variable_id r)
  | en => FlatRow.mk (FlatRow.key_path r) (FlatRow.az_value r) v (FlatRow.ru_value r)
            (FlatRow.token_type r) (FlatRow.figma_variable_id r)
  | ru => FlatRow.mk (FlatRow.key_path r) (FlatRow.az_value r) (FlatRow.en_value r) v
            (FlatRow.token_type r) (FlatRow.figma_variable_id r)
  end.

Definition lang_value (lang : Lang) (r : FlatRow.t) : json :=
  match lang with
  | az => FlatRow.az_value r
  | en => FlatRow.en_value r
  | ru => FlatRow.ru_value r
  end.

Definition set_token_type (v : json) (r : FlatRow.t) : FlatRow.t :=
  FlatRow.mk (FlatRow.key_path r) (FlatRow.az_value r) (FlatRow.en_value r)
    (FlatRow.ru_value r) v (FlatRow.figma_variable_id r).

Definition set_figma_variable_id (v : json) (r : FlatRow.t) : FlatRow.t :=
  FlatRow.mk (FlatRow.key_path r) (FlatRow.az_value r) (FlatRow.en_value r)
    (FlatRow.ru_value r) (FlatRow.token_type r) v.

(** [ext?.['com.figma']?.variableId] for a truthy [ext]. *)
Definition variableId_of (ext : json) : option json :=
  match prop ext (js "com.figma") with
  | Some JNull | None => None
  | Some figma => prop figma (js "variableId")
  end.

(** [pathPrefix ? `${pathPrefix}.${key}` : key]. *)
Definition child_path (pathPrefix key : jsstring) : jsstring :=
  if is_empty pathPrefix then key else pathPrefix ++ dot :: key.

(** The leaf branch of [flattenNode], on the row itself: [found] is
    [rows.get(currentPath)], and the row returned is [existing] as it stands
    when [rows.set] is reached. *)
Definition mergeLeaf (lang : Lang) (currentPath : jsstring) (child : json)
    (found : option FlatRow.t) : FlatRow.t :=
  let existing :=
    match found with
    | Some r => r
    | None => FlatRow.mk currentPath JNull JNull JNull JNull JNull
    end in
  let existing :=
    set_lang_value lang
      (match prop child (js "$value") with Some v => v | None => JNull end)
      existing in
  let existing :=
    set_token_type
      (or_else (prop child (js "$type")) (FlatRow.token_type existing))
      existing in
  match prop child (js "$extensions") with
  | Some ext =>
      if truthy ext then
        set_figma_variable_id
          (or_else (variableId_of ext) (FlatRow.figma_variable_id existing))
          existing
      else existing
  | None => existing
  end.

(** The leaf branch of [flattenNode]: merge the token [child] found at
    [currentPath] in the tree of [lang] into the rows. *)
Definition flattenLeaf (lang : Lang) (currentPath : jsstring) (child : json)
    (rows : RowMap) : RowMap :=
  map_set currentPath
    (mergeLeaf lang currentPath child (map_get currentPath rows)) rows.

(** The group branch, up to the recursive call. *)
Definition recordGroup (currentPath : jsstring) (child : json)
    (groupExtensions : GroupMap) : GroupMap :=
  match prop child (js "$extensions") with
  | Some ext =>
      if truthy ext
      then map_set currentPath (GroupExt.mk currentPath ext) groupExtensions
      else groupExtensions
  | None => groupExtensions
  end.

(** One turn of the loop over [Object.entries(node)]; [descend] is the
    recursive call on the child. *)
Definition flattenEntry
    (descend : jsstring -> Lang -> RowMap * GroupMap -> RowMap * GroupMap)
    (pathPrefix : jsstring) (lang : Lang) (key : jsstring) (value : json)
    (st : RowMap * GroupMap) : RowMap * GroupMap :=
  if str_eqb key (js "$extensions") then st
  else if negb (is_object value) then st
  else
    let currentPath := child_path pathPrefix key in
    if js_in (js "$value") value
    then (flattenLeaf lang currentPath value (fst st), snd st)
    else descend currentPath lang (fst st, recordGroup currentPath value (snd st)).

(** [Object.entries] of an array are its items under their indices; those of
    a string are one-unit strings, which the loop skips, and a number or a
    boolean has none. *)
Fixpoint flattenNode (node : json) (pathPrefix : jsstring) (lang : Lang)
    (st : RowMap * GroupMap) {struct node} : RowMap * GroupMap :=
  match node with
  | JObj props =>
      (fix each (entries : list (jsstring * json)) (st : RowMap * GroupMap) :=
         match entries with
         | [] => st
         | (key, value) :: rest =>
             each rest (flattenEntry (flattenNode value) pathPrefix lang key value st)
         end) props st
  | JArr items =>
      (fix each (i : nat) (entries : list json) (st : RowMap * GroupMap) :=
         match entries with
         | [] => st
         | value :: rest =>
             each (S i) rest
               (flattenEntry (flattenNode value) pathPrefix lang (index_key i) value st)
         end) 0 items st
  | _ => st
  end.

Definition flattenJsons (azJson enJson ruJson : json) : FlattenResult.t :=
  let st : RowMap * GroupMap := ([], []) in
  let st := if truthy azJson then flattenNode azJson [] az st else st in
  let st := if truthy enJson then flattenNode enJson [] en st else st in
  let st := if truthy ruJson then flattenNode ruJson [] ru st else st in
  FlattenResult.mk (map snd (fst st)) (map snd (snd st)).

(** ** Tree builders ([jsonBuilder.ts]) *)

Module Translation.
Record t := mk {
  id : jsstring;
  project_id : jsstring;
  key_path : jsstring;
  az_value : option jsstring;
  en_value : option jsstring;
  ru_value : option jsstring;
  token_type : option jsstring;
  figma_variable_id : option jsstring;
  original_key : option jsstring;
  created_at : jsstring;
  updated_at : jsstring
}.
End Translation.

(** [t[`${lang}_value`]]. *)
Definition translation_value (lang : Lang) (t : Translation.t) : option jsstring :=
  match lang with
  | az => Translation.az_value t
  | en => Translation.en_value t
  | ru => Translation.ru_value t
  end.

(** A call either returns or throws a [TypeError]. *)
Inductive outcome (A : Type) : Type :=
| Ok (a : A)
| TypeError.
Arguments Ok {A} a.
Arguments TypeError {A}.

Definition bind {A B : Type} (r : outcome A) (f : A -> outcome B) : outcome B :=
  match r with
  | Ok a => f a
  | TypeError => TypeError
  end.

Notation "x <- r ;; k" := (bind r (fun x => k))
  (at level 61, r at next level, right associativity).

(** [seg in current]: throws when [current] is [null].  The trees the
    builders grow hold objects, strings and [null], and nothing else unless
    the payload of a group extension brings it in; an array in the place of
    [current] is outside this model and counted with the failures.

    Properties are own properties.  A name inherited from
    [Object.prototype] is in [current] for JavaScript, but its value is a
    function, so the test of [setNestedValue] replaces it by [{}] just as
    it does for a name that is absent; the one exception, [__proto__], is
    outside this model.  A new key goes last, as JavaScript has it for
    every key that is not an array index; index keys, which come first in
    JavaScript, change the order of enumeration only. *)
Definition in_object (seg : jsstring) (current : json) : outcome bool :=
  match current with
  | JObj props => Ok (map_has seg props)
  | _ => TypeError
  end.

(** [current[seg] = value], with the same domain. *)
Definition assign (current : json) (seg : jsstring) (value : json) : outcome json :=
  match current with
  | JObj props => Ok (JObj (map_set seg value props))
  | _ => TypeError
  end.

(** The walk of [setNestedValue] along [segments].  The source mutates the
    objects it walks through; here each level is rebuilt on the way back,
    which keeps every key at its place. *)
Fixpoint setNestedSegments (current : json) (segments : list jsstring)
    (value : json) : outcome json :=
  match segments with
  | [] => Ok current (* not met: [split] gives one segment at least *)
  | [lastSeg] => assign current lastSeg value
  | seg :: rest =>
      present <- in_object seg current ;;
      let next :=
        match prop current seg with
        | Some child =>
            if negb present || negb (typeof_object child) then JObj [] else child
        | None => JObj []
        end in
      next' <- setNestedSegments next rest value ;;
      assign current seg next'
  end.

Definition setNestedValue (obj : json) (path : jsstring) (value : json)
  : outcome json :=
  setNestedSegments obj (split_dot path) value.

Definition opt_json (v : option jsstring) : json :=
  match v with
  | Some s => JStr s
  | None => JNull
  end.

(** [setNestedValue(result[name] as Record<string, unknown>, path, value)]:
    the subtree under [name] is updated in place. *)
Definition place (result : json) (name path : jsstring) (value : json)
  : outcome json :=
  match prop result name with
  | Some subtree =>
      subtree' <- setNestedValue subtree path value ;;
      assign result name subtree'
  | None => TypeError
  end.

Definition developerToken (value : jsstring) (tokenType : option jsstring) : json :=
  JObj [(js "$value", JStr value); (js "$type", opt_json tokenType)].

(** One turn of the loop of [buildDeveloperJson]. *)
Definition developerStep (result : json) (t : Translation.t) : outcome json :=
  let tokenType :=
    match Translation.token_type t with
    | Some s => if str_eqb s (js "string") then Some (js "text") else Some s
    | None => None
    end in
  result <-
    match Translation.az_value t with
    | Some v => place result (js "Translations/AZ") (Translation.key_path t)
                  (developerToken v tokenType)
    | None => Ok result
    end ;;
  result <-
    match Translation.en_value t with
    | Some v => place result (js "Translations/EN") (Translation.key_path t)
                  (developerToken v tokenType)
    | None => Ok result
    end ;;
  match Translation.ru_value t with
  | Some v => place result (js "Translations/RU") (Translation.key_path t)
                (developerToken v tokenType)
  | None => Ok result
  end.

Definition buildDeveloperJson (translations : list Translation.t) : outcome json :=
  fold_left (fun acc t => result <- acc ;; developerStep result t) translations
    (Ok (JObj [(js "Translations/AZ", JObj []);
               (js "Translations/EN", JObj []);
               (js "Translations/RU", JObj [])])).

Module GroupExtension.
Record t := mk {
  id : jsstring;
  project_id : jsstring;
  group_path : jsstring;
  extensions : json
}.
End GroupExtension.

(** The walk of [applyGroupExtensions] for one extension: every segment is
    walked through, then [$extensions] is set. *)
Fixpoint setExtensionsAt (current : json) (segments : list jsstring)
    (extensions : json) : outcome json :=
  match segments with
  | [] => assign current (js "$extensions") extensions
  | seg :: rest =>
      present <- in_object seg current ;;
      let next :=
        match prop current seg with
        | Some child =>
            if negb present || negb (typeof_object child) then JObj [] else child
        | None => JObj []
        end in
      next' <- setExtensionsAt next rest extensions ;;
      assign current seg next'
  end.

Definition applyGroupExtensions (obj : json)
    (groupExtensions : list GroupExtension.t) : outcome json :=
  fold_left
    (fun acc ge =>
       obj <- acc ;;
       setExtensionsAt obj (split_dot (GroupExtension.group_path ge))
         (GroupExtension.extensions ge))
    groupExtensions (Ok obj).

(** The token of [buildFigmaJson]; [if (t.figma_variable_id)] holds for a
    string that is not empty. *)
Definition figmaExportToken (t : Translation.t) (val : jsstring) : json :=
  let token := [(js "$type", opt_json (Translation.token_type t));
                (js "$value", JStr val)] in
  match Translation.figma_variable_id t with
  | Some variableId =>
      if is_empty variableId then JObj token
      else JObj (token ++
                 [(js "$extensions",
                   JObj [(js "com.figma",
                          JObj [(js "variableId", JStr variableId)])])])
  | None => JObj token
  end.

Definition buildFigmaJson (translations : list Translation.t)
    (groupExtensions : list GroupExtension.t) (lang : Lang) : outcome json :=
  result <-
    fold_left
      (fun acc t =>
         result <- acc ;;
         match translation_value lang t with
         | Some val =>
             setNestedValue result (Translation.key_path t) (figmaExportToken t val)
         | None => Ok result
         end)
      translations (Ok (JObj [])) ;;
  applyGroupExtensions result groupExtensions.

(** ** Duplicate detector ([duplicateDetector.ts]) *)

Module DuplicateGroup.
Record t := mk { value : jsstring; language : Lang; keyPaths : list jsstring }.
End DuplicateGroup.

(** [!val || val.trim() === ''] *)
Definition skipped (val : option jsstring) : bool :=
  match val with
  | None => true
  | Some s => is_empty s || is_empty (trim s)
  end.

(** The first inner loop: fill [valueMap] from the rows. *)
Definition collectValue (lang : Lang) (valueMap : list (jsstring * list jsstring))
    (t : Translation.t) : list (jsstring * list jsstring) :=
  match translation_value lang t with
  | Some val =>
      if skipped (Some val) then valueMap
      else
        let existing :=
          match map_get val valueMap with Some paths => paths | None => [] end in
        map_set val (existing ++ [Translation.key_path t]) valueMap
  | None => valueMap
  end.

(** The second inner loop: keep the values held by more than one row. *)
Definition emitGroups (lang : Lang) (valueMap : list (jsstring * list jsstring))
  : list DuplicateGroup.t :=
  flat_map (fun entry =>
              if Nat.ltb 1 (List.length (snd entry))
              then [DuplicateGroup.mk (fst entry) lang (snd entry)]
              else []) valueMap.

Definition findDuplicateValues (translations : list Translation.t)
  : list DuplicateGroup.t :=
  flat_map (fun lang => emitGroups lang (fold_left (collectValue lang) translations []))
    [az; en; ru].

(** ** Vocabulary of the statements *)

(** [/^[a-z][a-z0-9_]*$/.test(s)]. *)
Definition key_shaped (s : jsstring) : bool :=
  match s with
  | c :: rest => is_lower c && forallb is_key_char rest
  | [] => false
  end.

(** No two underscores in a row; [prev] tells that one came just before. *)
Fixpoint spaced (prev : bool) (s : jsstring) : bool :=
  match s with
  | [] => true
  | c :: rest =>
      if is_underscore c then negb prev && spaced true rest
      else spaced false rest
  end.

Definition no_leading_underscore (s : jsstring) : bool :=
  match s with
  | c :: _ => negb (is_underscore c)
  | [] => true
  end.

(** What the chain of replacements leaves behind: units of [[a-z0-9_]],
    underscores single and only inside. *)
Definition tidy (s : jsstring) : Prop :=
  forallb is_key_char s = true /\
  spaced false s = true /\
  no_leading_underscore s = true /\
  drop_trailing is_underscore s = s.

(** All that the sanitizer needs of the lower-casing: a string over
    [[a-z0-9_]] has no capital to fold. *)
Definition fixes_key_chars (toLowerCase : jsstring -> jsstring) : Prop :=
  forall s, forallb is_key_char s = true -> toLowerCase s = s.

(** A path segment holds no dot. *)
Definition dot_free (seg : jsstring) : bool :=
  forallb (fun c => negb (is_dot c)) seg.

(** [optimizeKey(key).optimized]. *)
Definition optimized_key (toLowerCase : jsstring -> jsstring) (key : jsstring)
  : jsstring :=
  OptimizeResult.optimized (optimizeKey toLowerCase key).

(** *** Duplicate detection, said by grouping *)

(** The value of a row that takes part in the detection, if any. *)
Definition counted_value (lang : Lang) (t : Translation.t) : option jsstring :=
  match translation_value lang t with
  | Some v => if skipped (Some v) then None else Some v
  | None => None
  end.

Definition counted_values (lang : Lang) (rows : list Translation.t)
  : list jsstring :=
  flat_map (fun t => match counted_value lang t with
                     | Some v => [v]
                     | None => []
                     end) rows.

Definition mem (v : jsstring) (l : list jsstring) : bool :=
  existsb (str_eqb v) l.

(** Each value once, in the order of first occurrence. *)
Definition first_occurrences (vals : list jsstring) : list jsstring :=
  fold_left (fun seen v => if mem v seen then seen else seen ++ [v]) vals [].

(** The key paths of the rows carrying exactly [v], in row order. *)
Definition paths_with (lang : Lang) (v : jsstring) (rows : list Translation.t)
  : list jsstring :=
  map Translation.key_path
    (filter (fun t => match counted_value lang t with
                      | Some w => str_eqb w v
                      | None => false
                      end) rows).

Definition expected_groups (lang : Lang) (rows : list Translation.t)
  : list DuplicateGroup.t :=
  flat_map (fun v =>
              let paths := paths_with lang v rows in
              if Nat.leb 2 (List.length paths)
              then [DuplicateGroup.mk v lang paths] else [])
    (first_occurrences (counted_values lang rows)).

(** Two different key paths among those of a group. *)
Definition two_distinct_paths (g : DuplicateGroup.t) : Prop :=
  exists p q, p <> q /\ In p (DuplicateGroup.keyPaths g) /\
              In q (DuplicateGroup.keyPaths g).

(** A row with just a key path and its three values. *)
Definition plain_row (key_path : jsstring) (az_v en_v ru_v : option jsstring)
    (token_type : option jsstring) : Translation.t :=
  Translation.mk [] [] key_path az_v en_v ru_v token_type None None [] [].

(** *** Built trees *)

(** [obj[s1][s2]...[sn]], [None] when a step meets no object. *)
Fixpoint value_at (v : json) (segments : list jsstring) : option json :=
  match segments with
  | [] => Some v
  | seg :: rest =>
      match prop v seg with
      | Some child => value_at child rest
      | None => None
      end
  end.

(** [{s1: {s2: ... value}}]: the objects created on demand along a path. *)
Fixpoint chain (segments : list jsstring) (value : json) : json :=
  match segments with
  | [] => value
  | seg :: rest => JObj [(seg, chain rest value)]
  end.

(** The token the merged builder emits for a row. *)
Definition developerTokenType (t : Translation.t) : option jsstring :=
  match Translation.token_type t with
  | Some s => if str_eqb s (js "string") then Some (js "text") else Some s
  | None => None
  end.

(** What one turn of the loop does to the subtree of [lang]. *)
Definition growStep (lang : Lang) (tree : json) (t : Translation.t)
  : outcome json :=
  match translation_value lang t with
  | Some v => setNestedValue tree (Translation.key_path t)
                (developerToken v (developerTokenType t))
  | None => Ok tree
  end.

(** The subtree of one language, grown on its own from [tree]. *)
Definition growLanguage (lang : Lang) (tree : json) (rows : list Translation.t)
  : outcome json :=
  fold_left (fun acc t => tree <- acc ;; growStep lang tree t) rows (Ok tree).

Definition developerRoot (azTree enTree ruTree : json) : json :=
  JObj [(js "Translations/AZ", azTree);
        (js "Translations/EN", enTree);
        (js "Translations/RU", ruTree)].

(** *** The tokens of a tree *)

(** The items of an array under their indices, from index [i] on. *)
Fixpoint indexed (i : nat) (items : list json) : list (jsstring * json) :=
  match items with
  | [] => []
  | value :: rest => (index_key i, value) :: indexed (S i) rest
  end.

(** [Object.entries(node)] for an object or an array. *)
Definition entries (node : json) : list (jsstring * json) :=
  match node with
  | JObj props => props
  | JArr items => indexed 0 items
  | _ => []
  end.

(** The tokens met under one entry: [below] are those of the child. *)
Definition entry_tokens (below : list (list jsstring * json))
    (key : jsstring) (value : json) : list (list jsstring * json) :=
  if str_eqb key (js "$extensions") then []
  else if negb (is_object value) then []
  else if js_in (js "$value") value then [([key], value)]
  else map (fun token => (key :: fst token, snd token)) below.

(** The tokens of a tree in the order [flattenNode] meets them, each with
    the property names that lead to it. *)
Fixpoint tokens (node : json) : list (list jsstring * json) :=
  match node with
  | JObj props =>
      (fix each (entries : list (jsstring * json)) :=
         match entries with
         | [] => []
         | (key, value) :: rest => entry_tokens (tokens value) key value ++ each rest
         end) props
  | JArr items =>
      (fix each (i : nat) (entries : list json) :=
         match entries with
         | [] => []
         | value :: rest =>
             entry_tokens (tokens value) (index_key i) value ++ each (S i) rest
         end) 0 items
  | _ => []
  end.

(** The dotted path [flattenNode] forms for property names met from
    [pathPrefix] on. *)
Definition path_from (pathPrefix : jsstring) (names : list jsstring) : jsstring :=
  fold_left child_path names pathPrefix.

(** The tokens of the tree of one language, tagged with it; none when the
    tree is falsy, as [flattenJsons] skips it. *)
Definition language_tokens (lang : Lang) (tree : json)
  : list (Lang * (jsstring * json)) :=
  if truthy tree
  then map (fun token => (lang, (path_from [] (fst token), snd token))) (tokens tree)
  else [].

(** Every token of the three trees, in processing order. *)
Definition occurrences (azJson enJson ruJson : json)
  : list (Lang * (jsstring * json)) :=
  language_tokens az azJson ++ language_tokens en enJson
  ++ language_tokens ru ruJson.

(** The [variableId] a token brings along, when it has a truthy one. *)
Definition carried_variable_id (child : json) : option json :=
  match prop child (js "$extensions") with
  | Some ext =>
      if truthy ext then
        match variableId_of ext with
        | Some v => if truthy v then Some v else None
        | None => None
        end
      else None
  | None => None
  end.

Definition find_row (path : jsstring) (rows : list FlatRow.t) : option FlatRow.t :=
  find (fun r => str_eqb (FlatRow.key_path r) path) rows.

(** No property name in the tree is the empty string. *)
Fixpoint named (v : json) : bool :=
  match v with
  | JObj props =>
      forallb (fun entry => negb (is_empty (fst entry)) && named (snd entry)) props
  | JArr items => forallb named items
  | _ => true
  end.

(** The rows as [flattenNode] leaves them after the given tokens. *)
Definition merge_all (found : list (Lang * (jsstring * json))) (rows : RowMap)
  : RowMap :=
  fold_left (fun rows o => flattenLeaf (fst o) (fst (snd o)) (snd (snd o)) rows)
    found rows.

(** Every entry of the row [Map] sits under its own key path. *)
Definition keyed (rows : RowMap) : Prop :=
  Forall (fun entry => FlatRow.key_path (snd entry) = fst entry) rows.

(** The row under [path], step by step: only the tokens found at [path]
    touch it. *)
Definition merge_at (path : jsstring) (found : list (Lang * (jsstring * json)))
    (start : option FlatRow.t) : option FlatRow.t :=
  fold_left
    (fun row o =>
       if str_eqb (fst (snd o)) path
       then Some (mergeLeaf (fst o) path (snd (snd o)) row)
       else row) found start.

(** A token [{"$value": value}] with a Figma variable id. *)
Definition figmaToken (value variableId : jsstring) : json :=
  JObj [(js "$value", JStr value);
        (js "$extensions",
         JObj [(js "com.figma", JObj [(js "variableId", JStr variableId)])])].

(** *** The round trip through the merged builder *)

(** An entry that [flattenNode] looks into. *)
Definition visited (key : jsstring) (value : json) : Prop :=
  str_eqb key (js "$extensions") = false /\ is_object value = true.

(** A property name that comes back from a key path: not empty, without
    a dot, and not [__proto__], which the builder cannot set as a property
    of the objects it creates. *)
Definition plain_name (key : jsstring) : Prop :=
  key <> [] /\ dot_free key = true /\ key <> js "__proto__".

(** A tree the round trip is stated for: at every node met by the
    flattener the property names are pairwise different (as they are in any
    JavaScript object) and plain, and no token has a [null] value. *)
Inductive clean : json -> Prop :=
| clean_node (node : json) :
    NoDup (map fst (entries node)) ->
    (forall key value, In (key, value) (entries node) -> visited key value ->
       plain_name key) ->
    (forall key value, In (key, value) (entries node) -> visited key value ->
       js_in (js "$value") value = true ->
       prop value (js "$value") <> Some JNull) ->
    (forall key value, In (key, value) (entries node) -> visited key value ->
       js_in (js "$value") value = false -> clean value) ->
    clean node.

(** The row a stored translation stands for. *)
Definition stored (t : Translation.t) : FlatRow.t :=
  FlatRow.mk (Translation.key_path t)
    (opt_json (Translation.az_value t))
    (opt_json (Translation.en_value t))
    (opt_json (Translation.ru_value t))
    (opt_json (Translation.token_type t))
    (opt_json (Translation.figma_variable_id t)).

(** What the round trip makes of a row: the type ["string"] has become
    ["text"], and the Figma variable id, which the merged shape does not
    carry, is gone. *)
Definition rebuilt (r : FlatRow.t) : FlatRow.t :=
  FlatRow.mk (FlatRow.key_path r) (FlatRow.az_value r) (FlatRow.en_value r)
    (FlatRow.ru_value r)
    (match FlatRow.token_type r with
     | JStr s => if str_eqb s (js "string") then JStr (js "text") else JStr s
     | other => other
     end)
    JNull.

Definition is_prefix (a b : list jsstring) : Prop := exists c, b = a ++ c.

(** Paths of which none is another one continued. *)
Definition apart (paths : list (list jsstring)) : Prop :=
  NoDup paths /\
  forall a b, In a paths -> In b paths -> is_prefix a b -> a = b.

(** Property names a token can be found back under. *)
Definition findable (names : list jsstring) : Prop :=
  names <> [] /\
  Forall (fun n => n <> js "$extensions") names /\
  Forall (fun n => n <> js "$value") (tl names).

(** A tree as the builder grows it: objects all the way down to the
    tokens. *)
Inductive trie : json -> Prop :=
| trie_node (props : list (jsstring * json)) :
    NoDup (map fst props) ->
    (forall key value, In (key, value) props -> exists inner, value = JObj inner) ->
    (forall key value, In (key, value) props ->
       js_in (js "$value") value = false -> trie value) ->
    trie (JObj props).

(** A value that is a token for the flattener. *)
Definition is_token (value : json) : Prop :=
  is_object value = true /\ js_in (js "$value") value = true.

(** What the merged builder places for [lang], row after row. *)
Definition placements (lang : Lang) (rows : list Translation.t)
  : list (list jsstring * json) :=
  flat_map (fun t =>
              match translation_value lang t with
              | Some v => [(split_dot (Translation.key_path t),
                            developerToken v (developerTokenType t))]
              | None => []
              end) rows.

(** The row that merging the developer tokens of [t] gives. *)
Definition remerged (t : Translation.t) : option FlatRow.t :=
  let merge lang found :=
    match translation_value lang t with
    | Some v => Some (mergeLeaf lang (Translation.key_path t)
                        (developerToken v (developerTokenType t)) found)
    | None => found
    end in
  merge ru (merge en (merge az None)).

Definition lang_eqb (a b : Lang) : bool :=
  match a, b with
  | az, az | en, en | ru, ru => true
  | _, _ => false
  end.

(** [child.$value], [null] standing in for [undefined]. *)
Definition value_of (child : json) : json :=
  match prop child (js "$value") with
  | Some v => v
  | None => JNull
  end.

(** The key path a found token sits at. *)
Definition found_path (o : Lang * (jsstring * json)) : jsstring := fst (snd o).

(** Merging at most one token into the row under [path]. *)
Definition merge_one (lang : Lang) (path : jsstring) (child : option json)
    (row : option FlatRow.t) : option FlatRow.t :=
  match child with
  | Some c => Some (mergeLeaf lang path c row)
  | None => row
  end.

(** The token of the tree of [lang] at [path], if there is one. *)
Definition token_at (lang : Lang) (tree : json) (path : jsstring) : option json :=
  option_map (fun o => snd (snd o))
    (find (fun o => str_eqb (found_path o) path) (language_tokens lang tree)).

(** A type as the flattener leaves it: never a falsy value other than
    [null]. *)
Definition settled (r : FlatRow.t) : Prop :=
  FlatRow.token_type r = JNull \/ truthy (FlatRow.token_type r) = true.

(** The tokens the merged builder emits for [lang], under their key paths. *)
Definition developer_tokens (lang : Lang) (rows : list Translation.t)
  : list (Lang * (jsstring * json)) :=
  flat_map (fun t =>
              match translation_value lang t with
              | Some v => [(lang, (Translation.key_path t,
                                   developerToken v (developerTokenType t)))]
              | None => []
              end) rows.

(** The round trip as the specification words it: a row with nothing but
    its type ["string"] turned into ["text"]. *)
Definition retyped (r : FlatRow.t) : FlatRow.t :=
  FlatRow.mk (FlatRow.key_path r) (FlatRow.az_value r) (FlatRow.en_value r)
    (FlatRow.ru_value r)
    (match FlatRow.token_type r with
     | JStr s => if str_eqb s (js "string") then JStr (js "text") else JStr s
     | other => other
     end)
    (FlatRow.figma_variable_id r).

(** The rows of flattening what the merged builder makes of [rows]. *)
Definition reflattened (rows : list Translation.t) : option (list FlatRow.t) :=
  match buildDeveloperJson rows with
  | Ok out =>
      match prop out (js "Translations/AZ"), prop out (js "Translations/EN"),
            prop out (js "Translations/RU") with
      | Some azTree, Some enTree, Some ruTree =>
          Some (FlattenResult.rows (flattenJsons azTree enTree ruTree))
      | _, _, _ => None
      end
  | TypeError => None
  end.

(** *** Induction over JSON values

    The induction principle that reaches the items of an array and the
    values of the properties of an object. *)

Section JsonInduction.

Variable P : json -> Prop.
Hypothesis on_null : P JNull.
Hypothesis on_bool : forall b, P (JBool b).
Hypothesis on_num : forall n, P (JNum n).
Hypothesis on_str : forall s, P (JStr s).
Hypothesis on_arr : forall items, Forall P items -> P (JArr items).
Hypothesis on_obj :
  forall props, Forall (fun entry => P (snd entry)) props -> P (JObj props).

Fixpoint json_induction (v : json) : P v :=
  match v with
  | JNull => on_null
  | JBool b => on_bool b
  | JNum n => on_num n
  | JStr s => on_str s
  | JArr items =>
      on_arr items
        ((fix all (l : list json) : Forall P l :=
            match l with
            | [] => Forall_nil P
            | x :: l' => Forall_cons x (json_induction x) (all l')
            end) items)
  | JObj props =>
      on_obj props
        ((fix all (l : list (jsstring * json))
            : Forall (fun entry => P (snd entry)) l :=
            match l with
            | [] => Forall_nil _
            | x :: l' => Forall_cons x (json_induction (snd x)) (all l')
            end) props)
  end.

End JsonInduction.

(** A tree of objects and strings only: no [null] for the walk of
    [setNestedValue] to step into. *)
Inductive solid : json -> Prop :=
| solid_str (s : jsstring) : solid (JStr s)
| solid_obj (props : list (jsstring * json)) :
    (forall key value, In (key, value) props -> solid value) ->
    solid (JObj props).

(** ** The views

    The computations of the React components that call the four
    algorithms: the filter of [UploadView.tsx], the memoized values and
    the state updates of [TableView.tsx], and what [TableRow.tsx] shows
    and saves.  Only the code that computes is embedded; requests to the
    database enter through their outcome. *)

(** [s.startsWith(q)] and [s.includes(q)], on code units. *)
Fixpoint starts_with (q s : jsstring) : bool :=
  match q, s with
  | [], _ => true
  | x :: q', y :: s' => N.eqb x y && starts_with q' s'
  | _ :: _, [] => false
  end.

Fixpoint includes (s q : jsstring) : bool :=
  starts_with q s
  || match s with
     | [] => false
     | _ :: s' => includes s' q
     end.

(** [a || b] for [a] a string or [null] and [b] a string. *)
Definition or_string (a : option jsstring) (b : jsstring) : jsstring :=
  match a with
  | Some s => if is_empty s then b else s
  | None => b
  end.

(** [a || null] for a string [a]. *)
Definition or_null (a : jsstring) : option jsstring :=
  if is_empty a then None else Some a.

(** A [Set] of strings, in insertion order. *)
Definition set_add (k : jsstring) (s : list jsstring) : list jsstring :=
  if mem k s then s else s ++ [k].

(** The string a language tag is at run time. *)
Definition lang_code (lang : Lang) : jsstring :=
  match lang with
  | az => js "az"
  | en => js "en"
  | ru => js "ru"
  end.

(** *** Upload ([UploadView.tsx]) *)

(** The rows [handleUpload] sends on:
    [result.rows.filter((r) => r.key_path && r.key_path.trim() !== '')]. *)
Definition uploadRows (result : FlattenResult.t) : list FlatRow.t :=
  filter (fun r => negb (is_empty (FlatRow.key_path r))
                   && negb (is_empty (trim (FlatRow.key_path r))))
    (FlattenResult.rows result).

(** *** A row of the table ([TableRow.tsx]) *)

Module TableRow.

Inductive EditableField := key_path | az_value | en_value | ru_value.

(** [translation[field] || '']: what [startEdit] puts into the input and
    what [saveEdit] compares with. *)
Definition field_text (translation : Translation.t) (field : EditableField)
  : jsstring :=
  match field with
  | key_path => Translation.key_path translation
  | az_value => or_string (Translation.az_value translation) []
  | en_value => or_string (Translation.en_value translation) []
  | ru_value => or_string (Translation.ru_value translation) []
  end.

(** [{ ...translation, key_path: newKeyPath,
       original_key: translation.original_key || translation.key_path }]:
    the row both [saveEdit] and [acceptIssueFix] hand to [onUpdate] for a
    new key path. *)
Definition renamed (translation : Translation.t) (newKeyPath : jsstring)
  : Translation.t :=
  Translation.mk
    (Translation.id translation) (Translation.project_id translation)
    newKeyPath
    (Translation.az_value translation) (Translation.en_value translation)
    (Translation.ru_value translation) (Translation.token_type translation)
    (Translation.figma_variable_id translation)
    (Some (or_string (Translation.original_key translation)
             (Translation.key_path translation)))
    (Translation.created_at translation) (Translation.updated_at translation).

(** [{ ...translation, [editing]: editValue || null }] for a value field. *)
Definition revalued (translation : Translation.t) (lang : Lang)
    (editValue : jsstring) : Translation.t :=
  let v := or_null editValue in
  Translation.mk
    (Translation.id translation) (Translation.project_id translation)
    (Translation.key_path translation)
    (match lang with az => v | _ => Translation.az_value translation end)
    (match lang with en => v | _ => Translation.en_value translation end)
    (match lang with ru => v | _ => Translation.ru_value translation end)
    (Translation.token_type translation)
    (Translation.figma_variable_id translation)
    (Translation.original_key translation)
    (Translation.created_at translation) (Translation.updated_at translation).

(** [saveEdit]: the row handed to [onUpdate], if any.  [error] tells
    whether the update request failed. *)
Definition saveEdit (translation : Translation.t)
    (editing : option EditableField) (editValue : jsstring) (error : bool)
  : option Translation.t :=
  match editing with
  | None => None
  | Some field =>
      let currentValue := field_text translation field in
      if str_eqb editValue currentValue then None
      else if error then None
      else
        match field with
        | key_path => Some (renamed translation editValue)
        | az_value => Some (revalued translation az editValue)
        | en_value => Some (revalued translation en editValue)
        | ru_value => Some (revalued translation ru editValue)
        end
  end.

(** [acceptIssueFix]: the row handed to [onUpdate], if any. *)
Definition acceptIssueFix (translation : Translation.t)
    (issue : option KeyIssue.t) (error : bool) : option Translation.t :=
  match issue with
  | None => None
  | Some i =>
      if error then None
      else Some (renamed translation (KeyIssue.keyPath i))
  end.

(** The key path as it is shown: [prefix] in grey, then [lastSegment]. *)
Definition keySegments (translation : Translation.t) : list jsstring :=
  split_dot (Translation.key_path translation).

Definition lastSegment (translation : Translation.t) : jsstring :=
  last (keySegments translation) [].

Definition prefix (translation : Translation.t) : jsstring :=
  if Nat.ltb 1 (List.length (keySegments translation))
  then join_dot (removelast (keySegments translation)) ++ [dot]
  else [].

End TableRow.

(** *** The table ([TableView.tsx]) *)

Module FilterMode.
Inductive t := all | issues | duplicates.
End FilterMode.

(** A change of the table reported by the database. *)
Inductive RealtimeEvent :=
| INSERT (new : Translation.t)
| UPDATE (new : Translation.t)
| DELETE (old_id : jsstring).

(** The key under which a group is ignored:
    [`${g.language}::${g.value}`]. *)
Definition ignoredKey (g : DuplicateGroup.t) : jsstring :=
  lang_code (DuplicateGroup.language g) ++ js "::" ++ DuplicateGroup.value g.

(** What the Ignore button does to [ignoredDuplicates]. *)
Definition ignore (g : DuplicateGroup.t) (ignoredDuplicates : list jsstring)
  : list jsstring :=
  set_add (ignoredKey g) ignoredDuplicates.

Definition activeDuplicates (duplicates : list DuplicateGroup.t)
    (ignoredDuplicates : list jsstring) : list DuplicateGroup.t :=
  filter (fun g => negb (mem (ignoredKey g) ignoredDuplicates)) duplicates.

Definition duplicateKeyPaths (active : list DuplicateGroup.t) : list jsstring :=
  fold_left
    (fun set group =>
       fold_left (fun set kp => set_add kp set) (DuplicateGroup.keyPaths group) set)
    active [].

(** The [Map] from a key path to the groups it is in. *)
Definition duplicateInfo (active : list DuplicateGroup.t)
  : list (jsstring * list DuplicateGroup.t) :=
  fold_left
    (fun map group =>
       fold_left
         (fun map kp =>
            let existing :=
              match map_get kp map with Some gs => gs | None => [] end in
            map_set kp (existing ++ [group]) map)
         (DuplicateGroup.keyPaths group) map)
    active [].

(** [prev.map((t) => (t.id === updated.id ? updated : t))]. *)
Definition handleUpdate (updated : Translation.t) (prev : list Translation.t)
  : list Translation.t :=
  map (fun t => if str_eqb (Translation.id t) (Translation.id updated)
                then updated else t) prev.

(** The state update of the realtime subscription. *)
Definition onRealtime (payload : RealtimeEvent) (prev : list Translation.t)
  : list Translation.t :=
  match payload with
  | INSERT new => prev ++ [new]
  | UPDATE new => handleUpdate new prev
  | DELETE old_id =>
      filter (fun t => negb (str_eqb (Translation.id t) old_id)) prev
  end.

Module GroupedDuplicate.
Record t := mk {
  group : DuplicateGroup.t;
  label : jsstring;
  rows : list Translation.t
}.
End GroupedDuplicate.

Definition langLabel (lang : Lang) : jsstring :=
  match lang with
  | az => js "AZ"
  | en => js "EN"
  | ru => js "RU"
  end.

(** The three code units the source has after a cut value. *)
Definition cut_mark : jsstring := [226; 8364; 166]%N.

Definition quote : N := 34%N.

(** [translationMap]: the last row of each key path. *)
Definition translationMap (translations : list Translation.t)
  : list (jsstring * Translation.t) :=
  fold_left (fun map t => map_set (Translation.key_path t) t map) translations [].

Section TableView.

Variable toLowerCase : jsstring -> jsstring.

(** The [Map] from a key path to its issue. *)
Definition issues (translations : list Translation.t)
  : list (jsstring * KeyIssue.t) :=
  fold_left
    (fun map t =>
       match analyzeKeyIssues toLowerCase (Translation.key_path t) with
       | Some issue => map_set (Translation.key_path t) issue map
       | None => map
       end)
    translations [].

(** [(v?.toLowerCase().includes(q) ?? false)]. *)
Definition lowered_includes (v : option jsstring) (q : jsstring) : bool :=
  match v with
  | Some s => includes (toLowerCase s) q
  | None => false
  end.

Definition matchesSearch (t : Translation.t) (q : jsstring) : bool :=
  includes (toLowerCase (Translation.key_path t)) q
  || lowered_includes (Translation.original_key t) q
  || lowered_includes (Translation.az_value t) q
  || lowered_includes (Translation.en_value t) q
  || lowered_includes (Translation.ru_value t) q.

(** [if (search) rows = rows.filter((t) => matchesSearch(t, q))]. *)
Definition searched (search : jsstring) (rows : list Translation.t)
  : list Translation.t :=
  if is_empty search then rows
  else filter (fun t => matchesSearch t (toLowerCase search)) rows.

Definition filtered (translations : list Translation.t) (search : jsstring)
    (filterMode : FilterMode.t) (issues : list (jsstring * KeyIssue.t))
    (duplicateKeyPaths : list jsstring) : list Translation.t :=
  let result := searched search translations in
  match filterMode with
  | FilterMode.issues =>
      filter (fun t => map_has (Translation.key_path t) issues) result
  | FilterMode.duplicates =>
      filter (fun t => mem (Translation.key_path t) duplicateKeyPaths) result
  | FilterMode.all => result
  end.

Definition groupedDuplicates (filterMode : FilterMode.t)
    (active : list DuplicateGroup.t) (translations : list Translation.t)
    (search : jsstring) : list GroupedDuplicate.t :=
  match filterMode with
  | FilterMode.duplicates =>
      let translationMap := translationMap translations in
      filter (fun g => Nat.ltb 0 (List.length (GroupedDuplicate.rows g)))
        (map
           (fun group =>
              let rows :=
                flat_map (fun kp => match map_get kp translationMap with
                                    | Some t => [t]
                                    | None => []
                                    end)
                  (DuplicateGroup.keyPaths group) in
              let rows := searched search rows in
              let value := DuplicateGroup.value group in
              GroupedDuplicate.mk group
                (langLabel (DuplicateGroup.language group) ++ js ": "
                 ++ quote
                    :: (if Nat.ltb 80 (List.length value)
                        then firstn 80 value ++ cut_mark else value)
                 ++ [quote])
                rows)
           active)
  | _ => []
  end.

End TableView.

(** ** More vocabulary for the flattener *)

(** The [$type] a token brings along, when it has a truthy one. *)
Definition carried_type (child : json) : option json :=
  match prop child (js "$type") with
  | Some v => if truthy v then Some v else None
  | None => None
  end.

(** The [$extensions] a group brings along, when it has a truthy one. *)
Definition carried_extensions (child : json) : option json :=
  match prop child (js "$extensions") with
  | Some ext => if truthy ext then Some ext else None
  | None => None
  end.

(** The tree [flattenJsons] reads for a language. *)
Definition tree_for (lang : Lang) (azJson enJson ruJson : json) : json :=
  match lang with
  | az => azJson
  | en => enJson
  | ru => ruJson
  end.

(** The value a row, if there is one, holds for a language. *)
Definition held (lang : Lang) (row : option FlatRow.t) : json :=
  match row with
  | Some r => lang_value lang r
  | None => JNull
  end.

(** The groups met under one entry: the child itself, then [below], those
    inside it. *)
Definition entry_groups (below : list (list jsstring * json))
    (key : jsstring) (value : json) : list (list jsstring * json) :=
  if str_eqb key (js "$extensions") then []
  else if negb (is_object value) then []
  else if js_in (js "$value") value then []
  else ([key], value) :: map (fun g => (key :: fst g, snd g)) below.

(** The groups of a tree in the order [flattenNode] meets them, each with
    the property names that lead to it. *)
Fixpoint groups (node : json) : list (list jsstring * json) :=
  match node with
  | JObj props =>
      (fix each (entries : list (jsstring * json)) :=
         match entries with
         | [] => []
         | (key, value) :: rest => entry_groups (groups value) key value ++ each rest
         end) props
  | JArr items =>
      (fix each (i : nat) (entries : list json) :=
         match entries with
         | [] => []
         | value :: rest =>
             entry_groups (groups value) (index_key i) value ++ each (S i) rest
         end) 0 items
  | _ => []
  end.

(** The groups of one tree under their dotted paths; none when the tree is
    falsy. *)
Definition language_groups (tree : json) : list (jsstring * json) :=
  if truthy tree
  then map (fun g => (path_from [] (fst g), snd g)) (groups tree)
  else [].

(** Every group of the three trees, in processing order. *)
Definition group_occurrences (azJson enJson ruJson : json)
  : list (jsstring * json) :=
  language_groups azJson ++ language_groups enJson ++ language_groups ruJson.

(** The group extensions as [flattenNode] leaves them after the given
    groups. *)
Definition record_all (found : list (jsstring * json)) (groupExtensions : GroupMap)
  : GroupMap :=
  fold_left (fun gs g => recordGroup (fst g) (snd g) gs) found groupExtensions.

(** Every entry of the group [Map] sits under its own path. *)
Definition group_keyed (gs : GroupMap) : Prop :=
  Forall (fun entry => GroupExt.group_path (snd entry) = fst entry) gs.

Definition find_group (path : jsstring) (groupExtensions : list GroupExt.t)
  : option GroupExt.t :=
  find (fun g => str_eqb (GroupExt.group_path g) path) groupExtensions.

(** An entry of a node that [flattenNode] looks into. *)
Definition looked_into (entry : jsstring * json) : bool :=
  negb (str_eqb (fst entry) (js "$extensions")) && is_object (snd entry).

(** A string of white space only, the empty one included. *)
Definition blank (s : jsstring) : bool := forallb is_whitespace s.

(** No property at the top of the tree has a blank name. *)
Definition top_visible (tree : json) : bool :=
  match tree with
  | JObj props => forallb (fun entry => negb (blank (fst entry))) props
  | _ => true
  end.

(** ** More vocabulary for the builders *)

(** A key path none of whose segments is [__proto__], the one name that
    is no own property of the objects the builders create. *)
Definition plain_path (path : jsstring) : Prop :=
  ~ In (js "__proto__") (split_dot path).

(** A value the walks of the builders get through: objects all the way
    down to strings, numbers and booleans, with neither [null] nor an
    array. *)
Inductive walkable : json -> Prop :=
| walkable_bool (b : bool) : walkable (JBool b)
| walkable_num (n : Z) : walkable (JNum n)
| walkable_str (s : jsstring) : walkable (JStr s)
| walkable_obj (props : list (jsstring * json)) :
    (forall key value, In (key, value) props -> walkable value) ->
    walkable (JObj props).

Definition has_value (lang : Lang) (t : Translation.t) : bool :=
  match translation_value lang t with
  | Some _ => true
  | None => false
  end.

Definition has_any_value (t : Translation.t) : bool :=
  has_value az t || has_value en t || has_value ru t.



(** *** The Figma export read back *)

(** What [buildFigmaJson] places for [lang], row after row. *)
Definition figma_placements (lang : Lang) (rows : list Translation.t)
  : list (list jsstring * json) :=
  flat_map (fun t =>
              match translation_value lang t with
              | Some v => [(split_dot (Translation.key_path t),
                            figmaExportToken t v)]
              | None => []
              end) rows.

(** The tokens [buildFigmaJson] emits for [lang], under their key paths. *)
Definition figma_tokens (lang : Lang) (rows : list Translation.t)
  : list (Lang * (jsstring * json)) :=
  flat_map (fun t =>
              match translation_value lang t with
              | Some v => [(lang, (Translation.key_path t, figmaExportToken t v))]
              | None => []
              end) rows.

(** A stored string as the flattener reads it back: the empty string,
    being falsy, comes back as [null]. *)
Definition truthy_string (v : option jsstring) : json :=
  match v with
  | Some s => if is_empty s then JNull else JStr s
  | None => JNull
  end.

(** The row that flattening the Figma export of [t] for [lang] gives. *)
Definition reimported (lang : Lang) (t : Translation.t) (v : jsstring)
  : FlatRow.t :=
  set_lang_value lang (JStr v)
    (FlatRow.mk (Translation.key_path t) JNull JNull JNull
       (truthy_string (Translation.token_type t))
       (truthy_string (Translation.figma_variable_id t))).

(** [flattenJsons] with a tree for [lang] and [null] for the other two. *)
Definition flattenOne (lang : Lang) (tree : json) : FlattenResult.t :=
  match lang with
  | az => flattenJsons tree JNull JNull
  | en => flattenJsons JNull tree JNull
  | ru => flattenJsons JNull JNull tree
  end.

(** The row of the export for [lang] at [path], read back. *)
Definition exported (lang : Lang) (path : jsstring) (rows : list Translation.t)
  : option FlatRow.t :=
  match find (fun t => str_eqb (Translation.key_path t) path && has_value lang t)
          rows with
  | Some t => option_map (reimported lang t) (translation_value lang t)
  | None => None
  end.

(** Rows whose export for [lang] can be read back: among the rows with a
    value, no key path is another one continued, and the segments of each
    can be found back under. *)
Definition exportable (lang : Lang) (rows : list Translation.t) : Prop :=
  apart (map fst (figma_placements lang rows)) /\
  Forall (fun item => findable (fst item) /\ hd [] (fst item) <> [] /\
                      ~ In (js "__proto__") (fst item))
    (figma_placements lang rows).

(** ** More vocabulary for the table *)

(** The groups listed under a key path in [duplicateInfo]; none when the
    key path is no key of it. *)
Definition listed (kp : jsstring) (map : list (jsstring * list DuplicateGroup.t))
  : list DuplicateGroup.t :=
  match map_get kp map with
  | Some gs => gs
  | None => []
  end.

(** A group once for every time the key path is among its key paths. *)
Definition mentions (kp : jsstring) (g : DuplicateGroup.t)
  : list DuplicateGroup.t :=
  map (fun _ => g) (filter (str_eqb kp) (DuplicateGroup.keyPaths g)).

(** The rows that hold the value of a group in its language. *)
Definition holders (g : DuplicateGroup.t) (rows : list Translation.t)
  : list Translation.t :=
  filter (fun t => match counted_value (DuplicateGroup.language g) t with
                   | Some w => str_eqb w (DuplicateGroup.value g)
                   | None => false
                   end) rows.

(** ** Groups of a built tree *)

(** An entry the flattener takes for a group. *)
Definition is_group (key : jsstring) (value : json) : bool :=
  negb (str_eqb key (js "$extensions")) && is_object value
  && negb (js_in (js "$value") value).

(** A tree of groups and tokens as the Figma builder grows it, with the
    [$extensions] of its groups left free: outside of these, property
    names are pairwise different and without a dot, and values are
    objects. *)
Inductive grove : json -> Prop :=
| grove_node (props : list (jsstring * json)) :
    NoDup (map fst props) ->
    (forall key value, In (key, value) props -> key <> js "$extensions" ->
       dot_free key = true /\ exists inner, value = JObj inner) ->
    (forall key value, In (key, value) props -> key <> js "$extensions" ->
       js_in (js "$value") value = false -> grove value) ->
    grove (JObj props).

(** A tree none of whose groups has [$extensions]. *)
Inductive bare : json -> Prop :=
| bare_node (props : list (jsstring * json)) :
    map_get (js "$extensions") props = None ->
    (forall key value, In (key, value) props ->
       js_in (js "$value") value = false -> bare value) ->
    bare (JObj props).

(** The group reached from [node] by the property names [names]. *)
Fixpoint group_at (node : json) (names : list jsstring) : option json :=
  match names with
  | [] => Some node
  | key :: rest =>
      match prop node key with
      | Some child => if is_group key child then group_at child rest else None
      | None => None
      end
  end.

(** The truthy [$extensions] of the group reached by [names], if any. *)
Definition ext_from (node : json) (names : list jsstring) : option json :=
  match group_at node names with
  | Some g => carried_extensions g
  | None => None
  end.

Definition find_extension (path : jsstring) (groupExtensions : list GroupExtension.t)
  : option GroupExtension.t :=
  find (fun ge => str_eqb (GroupExtension.group_path ge) path) groupExtensions.

(** A segment of a group path that the export can take. *)
Definition group_segment (seg : jsstring) : Prop :=
  seg <> js "$extensions" /\ seg <> js "$value" /\ seg <> js "__proto__".

(** Group extensions whose export for [lang] can be read back: the group
    paths differ, start with a segment that is not empty, run through no
    token of the rows, and the payloads are truthy. *)
Definition groups_exportable (lang : Lang) (rows : list Translation.t)
    (groupExtensions : list GroupExtension.t) : Prop :=
  NoDup (map GroupExtension.group_path groupExtensions) /\
  Forall (fun ge =>
            hd [] (split_dot (GroupExtension.group_path ge)) <> [] /\
            Forall group_segment (split_dot (GroupExtension.group_path ge)) /\
            truthy (GroupExtension.extensions ge) = true /\
            (forall item, In item (figma_placements lang rows) ->
               ~ is_prefix (fst item)
                   (split_dot (GroupExtension.group_path ge))))
    groupExtensions.

(** * Properties *)

(** ** Strings and keyed collections *)

Lemma str_eqb_refl (a : jsstring) : str_eqb a a = true.
Proof.
  induction a as [|x a IH]; simpl; [reflexivity|].
  now rewrite N.eqb_refl, IH.
Qed.

Lemma str_eqb_eq (a b : jsstring) : str_eqb a b = true <-> a = b.
Proof.
  split.
  - revert b; induction a as [|x a IH]; intros [|y b] H; simpl in H;
      try discriminate; [reflexivity|].
    apply andb_true_iff in H as [Hx Hab].
    apply N.eqb_eq in Hx. apply IH in Hab. now subst.
  - intros ->. apply str_eqb_refl.
Qed.

Lemma str_eqb_neq (a b : jsstring) : str_eqb a b = false <-> a <> b.
Proof.
  rewrite <- str_eqb_eq. destruct (str_eqb a b); split; congruence.
Qed.

Lemma str_eqb_sym (a b : jsstring) : str_eqb a b = str_eqb b a.
Proof.
  destruct (str_eqb a b) eqn:E.
  - apply str_eqb_eq in E. subst. symmetry. apply str_eqb_refl.
  - symmetry. apply str_eqb_neq. apply str_eqb_neq in E. congruence.
Qed.

Lemma is_underscore_eq (c : N) : is_underscore c = true -> c = underscore.
Proof. unfold is_underscore. apply N.eqb_eq. Qed.

Lemma key_char_range (c : N) :
  is_key_char c = true -> (48 <= c <= 122)%N.
Proof.
  unfold is_key_char, is_lower, is_digit, is_underscore, underscore.
  intros H.
  apply orb_true_iff in H as [H|H]; [apply orb_true_iff in H as [H|H]|].
  - apply andb_true_iff in H as [H1 H2]. apply N.leb_le in H1, H2. lia.
  - apply andb_true_iff in H as [H1 H2]. apply N.leb_le in H1, H2. lia.
  - apply N.eqb_eq in H. lia.
Qed.

Lemma key_char_not_whitespace (c : N) :
  is_key_char c = true -> is_whitespace c = false.
Proof.
  intros H. apply key_char_range in H.
  unfold is_whitespace. apply orb_false_iff. split.
  - apply not_true_is_false. intros W.
    apply existsb_exists in W as [x [Hin Hx]].
    apply N.eqb_eq in Hx. subst x.
    simpl in Hin. repeat (destruct Hin as [Hin|Hin]; [lia|]). exact Hin.
  - apply andb_false_iff. left. apply N.leb_gt. lia.
Qed.

(** ** The chain of replacements *)

Section Replacements.

Variable p : N -> bool.

Lemma replace_runs_none (r : N) (b : bool) (s : jsstring) :
  forallb (fun c => negb (p c)) s = true -> replace_runs p r b s = s.
Proof.
  revert b; induction s as [|c s IH]; intros b H; simpl in *; [reflexivity|].
  apply andb_true_iff in H as [Hc Hs].
  apply negb_true_iff in Hc. rewrite Hc. now rewrite IH.
Qed.

Lemma replace_runs_forallb (q : N -> bool) (r : N) (b : bool) (s : jsstring) :
  q r = true -> forallb q s = true -> forallb q (replace_runs p r b s) = true.
Proof.
  intros Hr. revert b; induction s as [|c s IH]; intros b H; simpl in *;
    [reflexivity|].
  apply andb_true_iff in H as [Hc Hs].
  destruct (p c); [destruct b|]; simpl; rewrite ?Hr, ?Hc, ?IH; auto.
Qed.

Lemma drop_leading_forallb (q : N -> bool) (s : jsstring) :
  forallb q s = true -> forallb q (drop_leading p s) = true.
Proof.
  induction s as [|c s IH]; intros H; simpl in *; [reflexivity|].
  destruct (p c); [|exact H].
  apply andb_true_iff in H as [_ Hs]. auto.
Qed.

Lemma drop_trailing_forallb (q : N -> bool) (s : jsstring) :
  forallb q s = true -> forallb q (drop_trailing p s) = true.
Proof.
  induction s as [|c s IH]; intros H; simpl in *; [reflexivity|].
  apply andb_true_iff in H as [Hc Hs]. specialize (IH Hs).
  destruct (drop_trailing p s) as [|k kept].
  - destruct (p c); simpl; [reflexivity|now rewrite Hc].
  - change (forallb q (c :: k :: kept)) with (q c && forallb q (k :: kept)).
    now rewrite Hc, IH.
Qed.

Lemma drop_trailing_idem (s : jsstring) :
  drop_trailing p (drop_trailing p s) = drop_trailing p s.
Proof.
  induction s as [|c s IH]; simpl; [reflexivity|].
  destruct (drop_trailing p s) as [|k kept] eqn:E.
  - destruct (p c) eqn:Hc; simpl; [reflexivity|now rewrite Hc].
  - change (drop_trailing p (c :: k :: kept))
      with (match drop_trailing p (k :: kept) with
            | [] => if p c then [] else [c]
            | kept' => c :: kept'
            end).
    now rewrite IH.
Qed.

Lemma drop_trailing_cons (c : N) (s : jsstring) :
  s <> [] -> drop_trailing p s = s -> drop_trailing p (c :: s) = c :: s.
Proof.
  intros Hne H. simpl. rewrite H. destruct s; congruence.
Qed.

Lemma drop_trailing_head (c : N) (s kept : jsstring) :
  drop_trailing p s = c :: kept -> exists s', s = c :: s'.
Proof.
  destruct s as [|d s]; simpl; [discriminate|].
  destruct (drop_trailing p s); [destruct (p d)|]; intros H; inversion H; eauto.
Qed.

End Replacements.

Lemma drop_leading_no_leading (s : jsstring) :
  no_leading_underscore (drop_leading is_underscore s) = true.
Proof.
  induction s as [|c s IH]; simpl; [reflexivity|].
  destruct (is_underscore c) eqn:E; [exact IH|]. simpl. now rewrite E.
Qed.

Lemma no_leading_fixed (s : jsstring) :
  no_leading_underscore s = true -> drop_leading is_underscore s = s.
Proof.
  destruct s as [|c s]; simpl; [reflexivity|].
  intros H. apply negb_true_iff in H. now rewrite H.
Qed.

Lemma drop_trailing_no_leading (s : jsstring) :
  no_leading_underscore s = true ->
  no_leading_underscore (drop_trailing is_underscore s) = true.
Proof.
  intros H. destruct (drop_trailing is_underscore s) as [|c kept] eqn:E;
    [reflexivity|].
  apply drop_trailing_head in E as [s' ->]. exact H.
Qed.

Lemma spaced_weaken (b : bool) (s : jsstring) :
  spaced b s = true -> spaced false s = true.
Proof.
  destruct s as [|c s]; simpl; [reflexivity|].
  destruct (is_underscore c); [|easy].
  intros H. apply andb_true_iff in H as [_ H]. exact H.
Qed.

Lemma spaced_strengthen (s : jsstring) :
  no_leading_underscore s = true -> spaced false s = true -> spaced true s = true.
Proof.
  destruct s as [|c s]; simpl; [reflexivity|].
  intros H. apply negb_true_iff in H. now rewrite H.
Qed.

Lemma replace_runs_spaced (b : bool) (s : jsstring) :
  spaced b (replace_runs is_underscore underscore b s) = true.
Proof.
  revert b; induction s as [|c s IH]; intros b; simpl; [reflexivity|].
  destruct (is_underscore c) eqn:E.
  - destruct b; [apply IH|]. simpl. apply IH.
  - simpl. rewrite E. apply IH.
Qed.

Lemma spaced_fixed (b : bool) (s : jsstring) :
  spaced b s = true -> replace_runs is_underscore underscore b s = s.
Proof.
  revert b; induction s as [|c s IH]; intros b H; simpl in *; [reflexivity|].
  destruct (is_underscore c) eqn:E.
  - apply andb_true_iff in H as [Hb Hs]. apply negb_true_iff in Hb. subst b.
    apply is_underscore_eq in E. subst c. now rewrite IH.
  - now rewrite IH.
Qed.

Lemma drop_leading_spaced (s : jsstring) :
  spaced false s = true -> spaced false (drop_leading is_underscore s) = true.
Proof.
  induction s as [|c s IH]; intros H; simpl in *; [reflexivity|].
  destruct (is_underscore c) eqn:E.
  - apply IH. simpl in H. eapply spaced_weaken. exact H.
  - simpl. now rewrite E.
Qed.

Lemma drop_trailing_spaced (b : bool) (s : jsstring) :
  spaced b s = true -> spaced b (drop_trailing is_underscore s) = true.
Proof.
  revert b; induction s as [|c s IH]; intros b H; simpl in *; [reflexivity|].
  destruct (is_underscore c) eqn:E.
  - apply andb_true_iff in H as [Hb Hs]. specialize (IH _ Hs).
    destruct (drop_trailing is_underscore s) as [|k kept]; [reflexivity|].
    change (spaced b (c :: k :: kept))
      with (if is_underscore c then negb b && spaced true (k :: kept)
            else spaced false (k :: kept)).
    now rewrite E, Hb, IH.
  - specialize (IH _ H).
    destruct (drop_trailing is_underscore s) as [|k kept].
    + simpl. now rewrite E.
    + change (spaced b (c :: k :: kept))
        with (if is_underscore c then negb b && spaced true (k :: kept)
              else spaced false (k :: kept)).
      now rewrite E.
Qed.

(** ** Splitting and joining key paths *)

Lemma split_dot_nonempty (s : jsstring) : split_dot s <> [].
Proof.
  destruct s as [|c s]; simpl; [discriminate|].
  destruct (is_dot c); [discriminate|].
  destruct (split_dot s); discriminate.
Qed.

Lemma split_dot_segment (seg rest : jsstring) :
  dot_free seg = true ->
  split_dot (seg ++ dot :: rest) = seg :: split_dot rest.
Proof.
  induction seg as [|c seg IH]; intros H; simpl in *.
  - reflexivity.
  - apply andb_true_iff in H as [Hc Hs]. apply negb_true_iff in Hc.
    rewrite Hc, (IH Hs). reflexivity.
Qed.

Lemma split_dot_single (seg : jsstring) :
  dot_free seg = true -> split_dot seg = [seg].
Proof.
  induction seg as [|c seg IH]; intros H; simpl in *; [reflexivity|].
  apply andb_true_iff in H as [Hc Hs]. apply negb_true_iff in Hc.
  now rewrite Hc, (IH Hs).
Qed.

Lemma split_dot_dot_free (s : jsstring) :
  Forall (fun seg => dot_free seg = true) (split_dot s).
Proof.
  induction s as [|c s IH]; simpl.
  - constructor; [reflexivity|constructor].
  - destruct (is_dot c) eqn:E.
    + constructor; [reflexivity|exact IH].
    + destruct (split_dot s) as [|seg segs]; inversion IH; subst.
      * constructor; [|constructor]. simpl. now rewrite E.
      * constructor; [|assumption]. simpl. now rewrite E.
Qed.

Lemma join_dot_cons (seg : jsstring) (segs : list jsstring) :
  segs <> [] -> join_dot (seg :: segs) = seg ++ dot :: join_dot segs.
Proof. destruct segs; [congruence|reflexivity]. Qed.

Lemma split_join (segs : list jsstring) :
  segs <> [] -> Forall (fun seg => dot_free seg = true) segs ->
  split_dot (join_dot segs) = segs.
Proof.
  induction segs as [|seg segs IH]; intros Hne Hall; [congruence|].
  inversion Hall as [|? ? Hseg Hrest]; subst.
  destruct segs as [|seg' segs].
  - simpl. now apply split_dot_single.
  - rewrite join_dot_cons by discriminate.
    rewrite split_dot_segment by assumption.
    f_equal. apply IH; [discriminate|assumption].
Qed.

Lemma join_split (s : jsstring) : join_dot (split_dot s) = s.
Proof.
  induction s as [|c s IH]; simpl; [reflexivity|].
  destruct (is_dot c) eqn:E.
  - apply N.eqb_eq in E. subst c.
    rewrite join_dot_cons by apply split_dot_nonempty.
    simpl. now rewrite IH.
  - pose proof (split_dot_nonempty s) as Hne.
    destruct (split_dot s) as [|seg segs]; [congruence|].
    destruct segs as [|seg' segs]; simpl in *; now rewrite <- IH.
Qed.

Lemma split_dot_app (p q : jsstring) :
  split_dot (p ++ dot :: q) = split_dot p ++ split_dot q.
Proof.
  induction p as [|c p IH]; simpl; [reflexivity|].
  destruct (is_dot c); [now rewrite IH|].
  rewrite IH.
  pose proof (split_dot_nonempty p) as Hne.
  destruct (split_dot p); [congruence|reflexivity].
Qed.

Lemma key_char_not_dot (c : N) : is_key_char c = true -> is_dot c = false.
Proof.
  intros H. apply key_char_range in H. apply N.eqb_neq. unfold dot. lia.
Qed.

Lemma key_chars_dot_free (s : jsstring) :
  forallb is_key_char s = true -> dot_free s = true.
Proof.
  induction s as [|c s IH]; simpl; [reflexivity|].
  intros H. apply andb_true_iff in H as [Hc Hs].
  now rewrite (key_char_not_dot _ Hc), IH.
Qed.

(** ** The key sanitizer *)

Lemma forbidden_in (s : jsstring) :
  forbidden s = true -> In s FORBIDDEN_KEYWORDS.
Proof.
  unfold forbidden. intros H.
  apply existsb_exists in H as [w [Hin Hw]].
  apply str_eqb_eq in Hw. now subst.
Qed.

Lemma forbidden_letters (s : jsstring) :
  forbidden s = true -> forallb is_lower s = true.
Proof.
  intros H. apply forbidden_in in H.
  assert (A : forallb (forallb is_lower) FORBIDDEN_KEYWORDS = true)
    by (vm_compute; reflexivity).
  rewrite forallb_forall in A. now apply A.
Qed.

Lemma underscore_not_forbidden (a b : jsstring) :
  forbidden (a ++ underscore :: b) = false.
Proof.
  apply not_true_is_false. intros H. apply forbidden_letters in H.
  rewrite forallb_app in H. apply andb_true_iff in H as [_ H].
  simpl in H. discriminate.
Qed.

Lemma tidy_prefixed (pre r : jsstring) :
  forallb is_key_char pre = true ->
  spaced false (pre ++ [underscore]) = true ->
  no_leading_underscore (pre ++ [underscore]) = true ->
  tidy r -> r <> [] ->
  tidy ((pre ++ [underscore]) ++ r).
Proof.
  intros Hpre Hsp Hlead (Hk & Hs & Hl & Ht) Hne.
  assert (Hs' : spaced true r = true) by now apply spaced_strengthen.
  repeat split.
  - rewrite !forallb_app, Hpre, Hk. reflexivity.
  - clear Hpre Hlead. revert Hsp. generalize false.
    induction pre as [|c pre IH]; intros b Hsp; simpl in *.
    + rewrite andb_true_r in Hsp. now rewrite Hsp, Hs'.
    + destruct (is_underscore c).
      * apply andb_true_iff in Hsp as [-> Hsp]. simpl. now apply IH.
      * now apply IH.
  - destruct pre; simpl in *; assumption.
  - rewrite <- app_assoc. clear Hpre Hsp Hlead.
    induction pre as [|c pre IH]; simpl app.
    + apply drop_trailing_cons; assumption.
    + apply drop_trailing_cons; [|exact IH].
      destruct pre; discriminate.
Qed.

Section Sanitizer.

Variable toLowerCase : jsstring -> jsstring.


Lemma cleanup_tidy (key : jsstring) : tidy (cleanup toLowerCase key).
Proof.
  unfold cleanup.
  set (s := filter is_key_char _).
  assert (Hs : forallb is_key_char s = true).
  { subst s. apply forallb_forall. intros c Hc.
    now apply filter_In in Hc as [_ Hc]. }
  repeat split.
  - apply drop_trailing_forallb, drop_leading_forallb.
    now apply replace_runs_forallb.
  - apply drop_trailing_spaced, drop_leading_spaced, replace_runs_spaced.
  - apply drop_trailing_no_leading, drop_leading_no_leading.
  - apply drop_trailing_idem.
Qed.

Lemma tidy_cleanup (s : jsstring) :
  fixes_key_chars toLowerCase -> tidy s -> cleanup toLowerCase s = s.
Proof.
  intros Hlow (Hk & Hs & Hl & Ht). unfold cleanup.
  rewrite (Hlow s Hk).
  rewrite (replace_runs_none is_whitespace underscore false s).
  2:{ apply forallb_forall. intros c Hc.
      pose proof (proj1 (forallb_forall _ _) Hk c Hc) as Hkc.
      now rewrite (key_char_not_whitespace _ Hkc). }
  assert (Hf : filter is_key_char s = s).
  { clear - Hk. induction s as [|c s IH]; simpl in *; [reflexivity|].
    apply andb_true_iff in Hk as [Hc Hk]. now rewrite Hc, IH. }
  rewrite Hf, (spaced_fixed _ _ Hs), (no_leading_fixed _ Hl). exact Ht.
Qed.

(** The three shapes the sanitized key can take. *)
Lemma optimizeKey_cases (key : jsstring) :
  let r := cleanup toLowerCase key in
  (r = [] /\ optimized_key toLowerCase key = js "fix_") \/
  (r <> [] /\ starts_with_digit r = true /\ optimized_key toLowerCase key = js "fix_" ++ r) \/
  (r <> [] /\ starts_with_digit r = false /\ forbidden r = true /\
   optimized_key toLowerCase key = js "common_fix_" ++ r) \/
  (r <> [] /\ starts_with_digit r = false /\ forbidden r = false /\
   optimized_key toLowerCase key = r).
Proof.
  intros r. unfold optimized_key, optimizeKey. fold r.
  cbv zeta. cbn [OptimizeResult.optimized].
  destruct r as [|c r'] eqn:E.
  - left. split; reflexivity.
  - right. cbn [is_empty starts_with_digit orb]. destruct (is_digit c) eqn:D.
    + left. split; [discriminate|]. split; [reflexivity|].
      assert (F : forbidden (js "fix_" ++ c :: r') = false)
        by exact (underscore_not_forbidden [102; 105; 120]%N (c :: r')).
      now rewrite F.
    + right. destruct (forbidden (c :: r')) eqn:F.
      * left. repeat split; congruence.
      * right. repeat split; congruence.
Qed.

Lemma tidy_shaped (s : jsstring) :
  tidy s -> s <> [] -> starts_with_digit s = false -> key_shaped s = true.
Proof.
  intros (Hk & _ & Hl & _) Hne Hd.
  destruct s as [|c s]; [congruence|]. simpl in *.
  apply andb_true_iff in Hk as [Hc Hk]. rewrite Hk, andb_true_r.
  unfold is_key_char in Hc. rewrite Hd in Hc.
  apply negb_true_iff in Hl. rewrite Hl in Hc.
  now rewrite !orb_false_r in Hc.
Qed.

(** The sanitized key is tidy, starts with a letter and is not reserved. *)
Lemma optimizeKey_settled (key : jsstring) :
  cleanup toLowerCase key <> [] ->
  tidy (optimized_key toLowerCase key) /\ optimized_key toLowerCase key <> [] /\
  starts_with_digit (optimized_key toLowerCase key) = false /\
  forbidden (optimized_key toLowerCase key) = false.
Proof.
  intros Hne. pose proof (cleanup_tidy key) as Ht.
  destruct (optimizeKey_cases key) as [[E _]|[(_ & D & ->)|[(_ & D & F & ->)|(_ & D & F & ->)]]].
  - congruence.
  - split; [|split; [|split]].
    + apply (tidy_prefixed [102; 105; 120]%N); auto.
    + discriminate.
    + reflexivity.
    + exact (underscore_not_forbidden [102; 105; 120]%N (cleanup toLowerCase key)).
  - split; [|split; [|split]].
    + apply (tidy_prefixed [99; 111; 109; 109; 111; 110; 95; 102; 105; 120]%N); auto.
    + discriminate.
    + reflexivity.
    + exact (underscore_not_forbidden [99; 111; 109; 109; 111; 110]%N
               ([102; 105; 120; 95]%N ++ cleanup toLowerCase key)).
  - split; [|split; [|split]]; assumption.
Qed.

Lemma optimizeKey_fixed (s : jsstring) :
  fixes_key_chars toLowerCase ->
  tidy s -> s <> [] -> starts_with_digit s = false -> forbidden s = false ->
  optimized_key toLowerCase s = s.
Proof.
  intros Hlow Ht Hne Hd Hf.
  unfold optimized_key, optimizeKey.
  rewrite (tidy_cleanup s Hlow Ht).
  cbv zeta. cbn [OptimizeResult.optimized].
  destruct s as [|c s]; [congruence|].
  cbn [is_empty orb]. now rewrite Hd, Hf.
Qed.

Lemma optimizeKey_key_shaped (key : jsstring) :
  key_shaped (optimized_key toLowerCase key) = true.
Proof.
  destruct (cleanup toLowerCase key) as [|c r] eqn:E.
  - destruct (optimizeKey_cases key) as [[_ H]|[(N & _)|[(N & _)|(N & _)]]];
      try congruence.
    now rewrite H.
  - assert (Hne : cleanup toLowerCase key <> []) by congruence.
    destruct (optimizeKey_settled key Hne) as (Ht & Hn & Hd & _).
    now apply tidy_shaped.
Qed.

Lemma optimizeKey_of_nothing (key : jsstring) :
  cleanup toLowerCase key = [] -> optimized_key toLowerCase key = js "fix_".
Proof.
  intros E.
  destruct (optimizeKey_cases key) as [[_ H]|[(N & _)|[(N & _)|(N & _)]]];
    congruence.
Qed.

(** C6. For every string, the sanitized key matches [^[a-z][a-z0-9_]*$];
    when the cleaned-up input is empty it is the literal ["fix_"], which
    matches as well. *)
Theorem optimizeKey_shape (key : jsstring) :
  key_shaped (optimized_key toLowerCase key) = true /\
  (cleanup toLowerCase key = [] -> optimized_key toLowerCase key = js "fix_").
Proof.
  split; [apply optimizeKey_key_shaped|apply optimizeKey_of_nothing].
Qed.

(** C2, as the code has it. With a lower-casing that leaves strings over
    [[a-z0-9_]] alone, sanitizing twice gives what sanitizing once gives
    whenever the cleaned-up input is not empty; when it is empty the first
    pass yields ["fix_"] and the second pass turns that into ["fix"]. *)
Theorem optimizeKey_twice (key : jsstring) :
  fixes_key_chars toLowerCase ->
  (cleanup toLowerCase key <> [] ->
   optimized_key toLowerCase (optimized_key toLowerCase key)
   = optimized_key toLowerCase key) /\
  (cleanup toLowerCase key = [] ->
   optimized_key toLowerCase key = js "fix_" /\
   optimized_key toLowerCase (optimized_key toLowerCase key) = js "fix").
Proof.
  intros Hlow. split.
  - intros Hne.
    destruct (optimizeKey_settled key Hne) as (Ht & Hn & Hd & Hf).
    now apply optimizeKey_fixed.
  - intros E.
    pose proof (optimizeKey_of_nothing key E) as H.
    split; [exact H|]. rewrite H.
    unfold optimized_key, optimizeKey, cleanup.
    rewrite (Hlow (js "fix_")) by reflexivity. reflexivity.
Qed.

(** C7. The linter sanitizes the last segment only: it returns nothing
    exactly when that segment is unchanged, and otherwise an issue whose
    [keyPath] is the input with the last segment replaced, every ancestor
    segment kept; ["group.type"] gives ["group.common_fix_type"], the
    lower-casing leaving ["type"] as it is. *)
Theorem analyzeKeyIssues_last_segment (keyPath : jsstring) :
  let segments := split_dot keyPath in
  let lastSegment := last segments [] in
  (analyzeKeyIssues toLowerCase keyPath = None <->
   optimized_key toLowerCase lastSegment = lastSegment) /\
  (forall issue, analyzeKeyIssues toLowerCase keyPath = Some issue ->
     KeyIssue.original issue = lastSegment /\
     KeyIssue.suggested issue = optimized_key toLowerCase lastSegment /\
     KeyIssue.keyPath issue
     = join_dot (removelast segments ++ [KeyIssue.suggested issue]) /\
     split_dot (KeyIssue.keyPath issue)
     = removelast segments ++ [KeyIssue.suggested issue]) /\
  (toLowerCase (js "type") = js "type" ->
   analyzeKeyIssues toLowerCase (js "group.type")
   = Some (KeyIssue.mk (js "type") (js "common_fix_type")
             (js "group.common_fix_type"))).
Proof.
  intros segments lastSegment.
  assert (Hun : forall k, negb (OptimizeResult.wasChanged (optimizeKey toLowerCase k)) = true
                          <-> optimized_key toLowerCase k = k).
  { intros k. unfold optimized_key, optimizeKey. cbv zeta.
    cbn [OptimizeResult.wasChanged OptimizeResult.optimized].
    rewrite negb_involutive, str_eqb_eq. split; congruence. }
  split; [|split].
  - unfold analyzeKeyIssues. fold segments. fold lastSegment. cbv zeta.
    destruct (negb (OptimizeResult.wasChanged (optimizeKey toLowerCase lastSegment))) eqn:E.
    + split; [intros _; now apply Hun|reflexivity].
    + split; [discriminate|]. intros H. apply Hun in H. congruence.
  - intros issue. unfold analyzeKeyIssues. fold segments. fold lastSegment.
    cbv zeta.
    destruct (negb (OptimizeResult.wasChanged (optimizeKey toLowerCase lastSegment)));
      [discriminate|].
    intros H. inversion H; subst issue; clear H.
    cbn [KeyIssue.original KeyIssue.suggested KeyIssue.keyPath].
    fold (optimized_key toLowerCase lastSegment).
    repeat split.
    apply split_join.
    + destruct (removelast segments); discriminate.
    + apply Forall_app. split.
      * pose proof (split_dot_dot_free keyPath) as Hall. fold segments in Hall.
        clear - Hall. induction segments as [|seg segs IH]; [constructor|].
        inversion Hall; subst. simpl. destruct segs; [constructor|].
        constructor; auto.
      * constructor; [|constructor].
        change (dot_free (optimized_key toLowerCase lastSegment) = true).
        pose proof (optimizeKey_key_shaped lastSegment) as Hshape.
        destruct (optimized_key toLowerCase lastSegment) as [|c r];
          [discriminate|].
        cbn [key_shaped] in Hshape. apply andb_true_iff in Hshape as [Hc Hr].
        apply key_chars_dot_free. cbn [forallb]. rewrite Hr, andb_true_r.
        unfold is_key_char. now rewrite Hc.
  - intros Htype. unfold analyzeKeyIssues, optimizeKey, cleanup.
    change (last (split_dot (js "group.type")) []) with (js "type").
    rewrite Htype. reflexivity.
Qed.

End Sanitizer.

Lemma key_char_not_capital (c : N) :
  is_key_char c = true -> (N.leb 65 c && N.leb c 90)%N = false.
Proof.
  unfold is_key_char, is_lower, is_digit, is_underscore, underscore.
  intros H. apply not_true_is_false. intros E.
  apply andb_true_iff in E as [E1 E2]. apply N.leb_le in E1, E2.
  apply orb_true_iff in H as [H|H]; [apply orb_true_iff in H as [H|H]|].
  - apply andb_true_iff in H as [H1 H2]. apply N.leb_le in H1, H2. lia.
  - apply andb_true_iff in H as [H1 H2]. apply N.leb_le in H1, H2. lia.
  - apply N.eqb_eq in H. lia.
Qed.

Lemma ascii_toLowerCase_fixes_key_chars : fixes_key_chars ascii_toLowerCase.
Proof.
  intros s. induction s as [|c s IH]; simpl; [reflexivity|].
  intros H. apply andb_true_iff in H as [Hc Hs].
  now rewrite (IH Hs), (key_char_not_capital c Hc).
Qed.

(** [optimizeKey("")] is ["fix_"] and matches the pattern. *)
Lemma optimizeKey_shape_witness :
  key_shaped (optimized_key ascii_toLowerCase []) = true /\
  optimized_key ascii_toLowerCase [] = js "fix_".
Proof.
  destruct (optimizeKey_shape ascii_toLowerCase []) as [H1 H2].
  split; [exact H1|]. apply H2. reflexivity.
Defined.

(** C2 fails as stated: sanitizing the empty string gives ["fix_"], and
    sanitizing ["fix_"] gives ["fix"]. *)
Lemma optimizeKey_not_idempotent :
  optimized_key ascii_toLowerCase (optimized_key ascii_toLowerCase [])
  <> optimized_key ascii_toLowerCase [].
Proof. vm_compute. discriminate. Qed.

(** ["9 Lives"] becomes ["fix_9_lives"], and stays so. *)
Lemma optimizeKey_twice_witness :
  optimized_key ascii_toLowerCase (optimized_key ascii_toLowerCase (js "9 Lives"))
  = optimized_key ascii_toLowerCase (js "9 Lives").
Proof.
  apply (optimizeKey_twice ascii_toLowerCase (js "9 Lives")
           ascii_toLowerCase_fixes_key_chars).
  vm_compute. discriminate.
Defined.

Lemma analyzeKeyIssues_last_segment_witness :
  analyzeKeyIssues ascii_toLowerCase (js "group.type")
  = Some (KeyIssue.mk (js "type") (js "common_fix_type")
            (js "group.common_fix_type")).
Proof.
  apply (analyzeKeyIssues_last_segment ascii_toLowerCase (js "group.type")).
  reflexivity.
Defined.

(** ** Keyed collections *)

Section Maps.

Context {V : Type}.
Implicit Types (m : list (jsstring * V)) (k : jsstring) (v : V).

Lemma map_get_set_same k v m : map_get k (map_set k v m) = Some v.
Proof.
  induction m as [|[k' v'] m IH]; simpl.
  - now rewrite str_eqb_refl.
  - destruct (str_eqb k' k) eqn:E; simpl.
    + now rewrite str_eqb_refl.
    + now rewrite E.
Qed.

Lemma map_get_set_other k k' v m :
  k <> k' -> map_get k' (map_set k v m) = map_get k' m.
Proof.
  intros Hne. induction m as [|[k0 v0] m IH]; simpl.
  - apply str_eqb_neq in Hne. now rewrite Hne.
  - destruct (str_eqb k0 k) eqn:E; simpl.
    + apply str_eqb_eq in E. subst k0.
      apply str_eqb_neq in Hne. now rewrite Hne.
    + now rewrite IH.
Qed.

Lemma map_get_none k m : map_get k m = None <-> ~ In k (map fst m).
Proof.
  induction m as [|[k' v'] m IH]; simpl.
  - tauto.
  - destruct (str_eqb k' k) eqn:E.
    + apply str_eqb_eq in E. split; [discriminate|]. intros H. tauto.
    + apply str_eqb_neq in E. rewrite IH. tauto.
Qed.

Lemma map_get_in k v m : map_get k m = Some v -> In (k, v) m.
Proof.
  induction m as [|[k' v'] m IH]; simpl; [discriminate|].
  destruct (str_eqb k' k) eqn:E.
  - apply str_eqb_eq in E. intros H. inversion H. subst. now left.
  - auto.
Qed.

Lemma map_get_unique k v m :
  NoDup (map fst m) -> In (k, v) m -> map_get k m = Some v.
Proof.
  induction m as [|[k' v'] m IH]; simpl; [tauto|].
  intros Hnd [H|H].
  - inversion H. subst. now rewrite str_eqb_refl.
  - inversion Hnd as [|? ? Hnotin Hnd']; subst.
    destruct (str_eqb k' k) eqn:E; [|auto].
    apply str_eqb_eq in E. subst k'. exfalso. apply Hnotin.
    apply in_map_iff. now exists (k, v).
Qed.

Lemma map_set_absent k v m :
  map_get k m = None -> map_set k v m = m ++ [(k, v)].
Proof.
  induction m as [|[k' v'] m IH]; simpl; [reflexivity|].
  destruct (str_eqb k' k); [discriminate|].
  intros H. now rewrite IH.
Qed.

Lemma map_set_keys k v m :
  map fst (map_set k v m)
  = if map_has k m then map fst m else map fst m ++ [k].
Proof.
  unfold map_has. induction m as [|[k' v'] m IH]; simpl; [reflexivity|].
  destruct (str_eqb k' k) eqn:E; simpl.
  - apply str_eqb_eq in E. now subst.
  - rewrite IH. now destruct (map_get k m).
Qed.

Lemma map_set_nodup k v m :
  NoDup (map fst m) -> NoDup (map fst (map_set k v m)).
Proof.
  intros Hnd. rewrite map_set_keys. unfold map_has.
  destruct (map_get k m) eqn:E; [exact Hnd|].
  apply map_get_none in E.
  apply NoDup_app; [exact Hnd|repeat constructor; simpl; tauto|].
  intros x Hx [Hk|[]]. now subst.
Qed.

End Maps.

Lemma map_set_split {V : Type} (k : jsstring) (v : V) (m : list (jsstring * V)) :
  map_get k m = Some v ->
  exists l1 l2, m = l1 ++ (k, v) :: l2 /\
                forall v', map_set k v' m = l1 ++ (k, v') :: l2.
Proof.
  induction m as [|[k' v0] m IH]; simpl; [discriminate|].
  destruct (str_eqb k' k) eqn:E.
  - apply str_eqb_eq in E. subst k'. intros H. inversion H. subst v0.
    exists [], m. split; [reflexivity|]. intros v'. reflexivity.
  - intros H. destruct (IH H) as (l1 & l2 & -> & Hset).
    exists ((k', v0) :: l1), l2. split; [reflexivity|].
    intros v'. simpl. now rewrite Hset.
Qed.

Lemma map_set_in {V : Type} (k : jsstring) (v : V) (m : list (jsstring * V))
    (entry : jsstring * V) :
  In entry (map_set k v m) -> entry = (k, v) \/ In entry m.
Proof.
  induction m as [|[k' v0] m IH]; simpl.
  - intros [<-|[]]. now left.
  - destruct (str_eqb k' k); simpl; intros [H|H]; auto.
    destruct (IH H); auto.
Qed.

Lemma map_has_set {V : Type} (k x : jsstring) (v : V) (m : list (jsstring * V)) :
  x <> k -> map_has x (map_set k v m) = map_has x m.
Proof.
  intros Hne. unfold map_has. rewrite map_get_set_other; [reflexivity|].
  congruence.
Qed.

Lemma mem_in (v : jsstring) (l : list jsstring) : mem v l = true <-> In v l.
Proof.
  unfold mem. rewrite existsb_exists. split.
  - intros [w [Hin Hw]]. apply str_eqb_eq in Hw. now subst.
  - intros H. exists v. split; [exact H|apply str_eqb_refl].
Qed.

(** ** The duplicate detector *)

Lemma first_occurrences_snoc (vals : list jsstring) (v : jsstring) :
  first_occurrences (vals ++ [v])
  = if mem v (first_occurrences vals) then first_occurrences vals
    else first_occurrences vals ++ [v].
Proof. unfold first_occurrences. now rewrite fold_left_app. Qed.

Lemma first_occurrences_in (vals : list jsstring) (v : jsstring) :
  In v (first_occurrences vals) <-> In v vals.
Proof.
  revert v. induction vals as [|w vals IH] using rev_ind; intros v;
    [reflexivity|].
  rewrite first_occurrences_snoc, in_app_iff.
  destruct (mem w (first_occurrences vals)) eqn:E.
  - apply mem_in in E. apply IH in E. rewrite IH. simpl. split; [tauto|].
    intros [H|[H|[]]]; [exact H|now subst].
  - rewrite in_app_iff, IH. reflexivity.
Qed.

Lemma first_occurrences_nodup (vals : list jsstring) :
  NoDup (first_occurrences vals).
Proof.
  induction vals as [|w vals IH] using rev_ind; [constructor|].
  rewrite first_occurrences_snoc.
  destruct (mem w (first_occurrences vals)) eqn:E; [exact IH|].
  apply NoDup_app; [exact IH|repeat constructor; simpl; tauto|].
  intros x Hx [Hw|[]]. subst x.
  apply mem_in in Hx. congruence.
Qed.

Section Detector.

Variable lang : Lang.

Lemma counted_values_snoc (rows : list Translation.t) (t : Translation.t) :
  counted_values lang (rows ++ [t])
  = counted_values lang rows
    ++ match counted_value lang t with Some v => [v] | None => [] end.
Proof.
  unfold counted_values. rewrite flat_map_app. simpl. now rewrite app_nil_r.
Qed.

Lemma paths_with_snoc (v : jsstring) (rows : list Translation.t)
    (t : Translation.t) :
  paths_with lang v (rows ++ [t])
  = paths_with lang v rows
    ++ match counted_value lang t with
       | Some w => if str_eqb w v then [Translation.key_path t] else []
       | None => []
       end.
Proof.
  unfold paths_with. rewrite filter_app, map_app. f_equal. simpl.
  destruct (counted_value lang t) as [w|]; [|reflexivity].
  now destruct (str_eqb w v).
Qed.

Lemma paths_with_unseen (v : jsstring) (rows : list Translation.t) :
  ~ In v (counted_values lang rows) -> paths_with lang v rows = [].
Proof.
  induction rows as [|t rows IH]; [reflexivity|].
  unfold counted_values, paths_with in *. simpl.
  intros Hnot. rewrite in_app_iff in Hnot.
  destruct (counted_value lang t) as [w|].
  - destruct (str_eqb w v) eqn:E.
    + apply str_eqb_eq in E. subst w. exfalso. apply Hnot. left. now left.
    + apply IH. tauto.
  - apply IH. tauto.
Qed.

Lemma collectValue_counted (valueMap : list (jsstring * list jsstring))
    (t : Translation.t) :
  collectValue lang valueMap t
  = match counted_value lang t with
    | Some v =>
        map_set v
          (match map_get v valueMap with Some paths => paths | None => [] end
           ++ [Translation.key_path t]) valueMap
    | None => valueMap
    end.
Proof.
  unfold collectValue, counted_value.
  destruct (translation_value lang t) as [v|]; [|reflexivity].
  now destruct (skipped (Some v)).
Qed.

(** What [valueMap] holds once the first inner loop is over. *)
Lemma valueMap_grouped (rows : list Translation.t) :
  fold_left (collectValue lang) rows []
  = map (fun v => (v, paths_with lang v rows))
      (first_occurrences (counted_values lang rows)).
Proof.
  induction rows as [|t rows IH] using rev_ind; [reflexivity|].
  rewrite fold_left_app. simpl. rewrite IH, collectValue_counted.
  rewrite counted_values_snoc.
  destruct (counted_value lang t) as [v|] eqn:Ev.
  - rewrite first_occurrences_snoc.
    pose proof (first_occurrences_nodup (counted_values lang rows)) as Hnd.
    pose proof (first_occurrences_in (counted_values lang rows)) as Hin.
    revert Hnd Hin.
    generalize (first_occurrences (counted_values lang rows)) as seen.
    intros seen Hnd Hin.
    destruct (mem v seen) eqn:Em.
    + apply mem_in in Em.
      clear Hin. induction seen as [|w seen IHs]; [destruct Em|].
      inversion Hnd as [|? ? Hnotin Hnd']; subst. simpl.
      destruct (str_eqb w v) eqn:E.
      * apply str_eqb_eq in E. subst w. f_equal.
        -- rewrite paths_with_snoc, Ev, str_eqb_refl. reflexivity.
        -- apply map_ext_in. intros u Hu. rewrite paths_with_snoc, Ev.
           assert (Hne : str_eqb v u = false).
           { apply str_eqb_neq. intros ->. contradiction. }
           now rewrite Hne, app_nil_r.
      * destruct Em as [Hw|Hv]; [apply str_eqb_neq in E; congruence|].
        f_equal.
        -- rewrite paths_with_snoc, Ev, (str_eqb_sym v w), E.
           now rewrite app_nil_r.
        -- now apply IHs.
    + assert (Hnot : ~ In v seen) by (rewrite <- mem_in; congruence).
      assert (Hget : map_get v (map (fun u => (u, paths_with lang u rows)) seen) = None).
      { apply map_get_none. rewrite map_map. simpl. now rewrite map_id. }
      rewrite Hget, (map_set_absent _ _ _ Hget), map_app. simpl.
      rewrite paths_with_snoc, Ev, str_eqb_refl.
      rewrite (paths_with_unseen v rows) by (rewrite <- Hin; exact Hnot).
      f_equal. apply map_ext_in. intros u Hu. rewrite paths_with_snoc, Ev.
      assert (Hne : str_eqb v u = false).
      { apply str_eqb_neq. intros ->. contradiction. }
      now rewrite Hne, app_nil_r.
  - rewrite app_nil_r. apply map_ext. intros u.
    now rewrite paths_with_snoc, Ev, app_nil_r.
Qed.

Lemma emitGroups_expected (rows : list Translation.t) :
  emitGroups lang (fold_left (collectValue lang) rows [])
  = expected_groups lang rows.
Proof.
  rewrite valueMap_grouped. unfold emitGroups, expected_groups.
  induction (first_occurrences (counted_values lang rows)) as [|v l IH];
    [reflexivity|].
  simpl. now rewrite IH.
Qed.

Lemma paths_with_nodup (v : jsstring) (rows : list Translation.t) :
  NoDup (map Translation.key_path rows) -> NoDup (paths_with lang v rows).
Proof.
  unfold paths_with. induction rows as [|t rows IH]; simpl; [constructor|].
  intros Hnd. inversion Hnd as [|? ? Hnotin Hnd']; subst.
  destruct (match counted_value lang t with
            | Some w => str_eqb w v | None => false end); [|auto].
  simpl. constructor; [|auto].
  intros Hin. apply Hnotin. apply in_map_iff in Hin as [t' [Hk Ht']].
  apply filter_In in Ht' as [Ht' _]. apply in_map_iff. now exists t'.
Qed.

Lemma expected_groups_paths (rows : list Translation.t) (g : DuplicateGroup.t) :
  In g (expected_groups lang rows) ->
  DuplicateGroup.language g = lang /\
  DuplicateGroup.keyPaths g = paths_with lang (DuplicateGroup.value g) rows /\
  2 <= List.length (DuplicateGroup.keyPaths g).
Proof.
  unfold expected_groups. intros H. apply in_flat_map in H as [v [_ H]].
  cbv zeta in H.
  destruct (Nat.leb 2 (List.length (paths_with lang v rows))) eqn:E;
    [|destruct H].
  destruct H as [<-|[]]. simpl. apply Nat.leb_le in E. auto.
Qed.

End Detector.

Lemma two_of_nodup (l : list jsstring) :
  NoDup l -> 2 <= List.length l -> exists p q, p <> q /\ In p l /\ In q l.
Proof.
  destruct l as [|p [|q l]]; simpl; try lia.
  intros Hnd _. exists p, q. inversion Hnd as [|? ? Hnotin _]; subst.
  split; [|tauto]. intros ->. apply Hnotin. now left.
Qed.

(** C8, as the code has it. The detector takes the languages in the
    order az, en, ru; in each it groups the rows by the exact value,
    leaving out null, empty and whitespace-only values, and emits one group
    per value carried by at least two rows, the groups in the order of the
    first occurrence of their value and the key paths in row order.  When
    the rows have pairwise different key paths, two rows are two distinct
    key paths.  The rows a, b, c with the English values Hello, Hello,
    World give the one group of Hello under a and b. *)
Theorem findDuplicateValues_groups (rows : list Translation.t) :
  findDuplicateValues rows
  = expected_groups az rows ++ expected_groups en rows ++ expected_groups ru rows
  /\ (NoDup (map Translation.key_path rows) ->
      Forall two_distinct_paths (findDuplicateValues rows))
  /\ findDuplicateValues
       [plain_row (js "a") None (Some (js "Hello")) None None;
        plain_row (js "b") None (Some (js "Hello")) None None;
        plain_row (js "c") None (Some (js "World")) None None]
     = [DuplicateGroup.mk (js "Hello") en [js "a"; js "b"]].
Proof.
  assert (E : findDuplicateValues rows
              = expected_groups az rows ++ expected_groups en rows
                ++ expected_groups ru rows).
  { unfold findDuplicateValues. simpl.
    now rewrite !emitGroups_expected, app_nil_r. }
  split; [exact E|]. split; [|reflexivity].
  intros Hnd. rewrite E. apply Forall_forall. intros g Hg.
  assert (H : exists lang, In g (expected_groups lang rows)).
  { rewrite !in_app_iff in Hg. destruct Hg as [H|[H|H]]; eauto. }
  destruct H as [lang H].
  apply expected_groups_paths in H as (_ & Hp & Hlen).
  apply two_of_nodup; [|exact Hlen].
  rewrite Hp. now apply paths_with_nodup.
Qed.

Lemma findDuplicateValues_groups_witness :
  Forall two_distinct_paths
    (findDuplicateValues
       [plain_row (js "a") None (Some (js "Hello")) None None;
        plain_row (js "b") None (Some (js "Hello")) None None;
        plain_row (js "c") None (Some (js "World")) None None]).
Proof.
  apply (findDuplicateValues_groups
           [plain_row (js "a") None (Some (js "Hello")) None None;
            plain_row (js "b") None (Some (js "Hello")) None None;
            plain_row (js "c") None (Some (js "World")) None None]).
  repeat constructor; simpl; intuition discriminate.
Defined.

(** C8 fails as stated: two rows under the one key path a with the same
    English value give a group, though the value occurs under one key path
    only. *)
Lemma findDuplicateValues_repeated_key_path :
  exists g,
    In g (findDuplicateValues
            [plain_row (js "a") None (Some (js "Hello")) None None;
             plain_row (js "a") None (Some (js "Hello")) None None]) /\
    ~ two_distinct_paths g.
Proof.
  exists (DuplicateGroup.mk (js "Hello") en [js "a"; js "a"]).
  split; [now left|].
  intros (p & q & Hne & Hp & Hq). simpl in Hp, Hq.
  destruct Hp as [<-|[<-|[]]]; destruct Hq as [<-|[<-|[]]]; congruence.
Qed.

(** ** The builders *)

Lemma setNestedSegments_last (current : json) (seg : jsstring) (value : json) :
  setNestedSegments current [seg] value = assign current seg value.
Proof. reflexivity. Qed.

Lemma setNestedSegments_step (current : json) (seg s : jsstring)
    (rest : list jsstring) (value : json) :
  setNestedSegments current (seg :: s :: rest) value
  = (present <- in_object seg current ;;
     let next :=
       match prop current seg with
       | Some child =>
           if negb present || negb (typeof_object child) then JObj [] else child
       | None => JObj []
       end in
     next' <- setNestedSegments next (s :: rest) value ;;
     assign current seg next').
Proof. reflexivity. Qed.

#[local] Arguments setNestedSegments : simpl never.

Lemma setNestedSegments_object (current : json) (segments : list jsstring)
    (value out : json) :
  segments <> [] -> setNestedSegments current segments value = Ok out ->
  exists props, out = JObj props.
Proof.
  destruct segments as [|seg [|s rest]]; [congruence| |]; intros _.
  - rewrite setNestedSegments_last.
    destruct current; try discriminate. intros H. inversion H. eauto.
  - rewrite setNestedSegments_step.
    destruct current; try discriminate. simpl.
    match goal with
    | |- context [setNestedSegments ?n (s :: rest) value] =>
        destruct (setNestedSegments n (s :: rest) value)
    end; [|discriminate].
    simpl. intros H. inversion H. eauto.
Qed.

Lemma setNestedSegments_fresh (props : list (jsstring * json))
    (seg : jsstring) (rest : list jsstring) (value : json) :
  map_get seg props = None ->
  setNestedSegments (JObj props) (seg :: rest) value
  = Ok (JObj (props ++ [(seg, chain rest value)])).
Proof.
  revert props seg. induction rest as [|s rest IH]; intros props seg Hget.
  - rewrite setNestedSegments_last. simpl.
    now rewrite (map_set_absent _ _ _ Hget).
  - rewrite setNestedSegments_step. simpl. unfold map_has. rewrite Hget.
    simpl. rewrite (IH [] s eq_refl). simpl.
    now rewrite (map_set_absent _ _ _ Hget).
Qed.

(** Walking again along a path that was just set, and further. *)
Lemma setNestedSegments_again (segments rest : list jsstring)
    (leaf leaf' value : json) :
  segments <> [] -> rest <> [] -> typeof_object leaf = true ->
  setNestedSegments leaf rest value = Ok leaf' ->
  forall obj obj1,
    setNestedSegments obj segments leaf = Ok obj1 ->
    exists obj2,
      setNestedSegments obj1 (segments ++ rest) value = Ok obj2 /\
      value_at obj2 segments = Some leaf'.
Proof.
  intros Hne Hrest Hleaf Hinner.
  induction segments as [|seg segments IH]; [congruence|].
  intros obj obj1 Hset.
  destruct rest as [|r rest]; [congruence|].
  destruct segments as [|s segments].
  - rewrite setNestedSegments_last in Hset.
    destruct obj as [| | | | |props]; try discriminate.
    inversion Hset; subst obj1; clear Hset.
    change ([seg] ++ r :: rest) with (seg :: r :: rest).
    rewrite setNestedSegments_step. simpl.
    unfold map_has. rewrite map_get_set_same. simpl. rewrite Hleaf. simpl.
    rewrite Hinner. simpl. eexists. split; [reflexivity|].
    cbn [value_at prop]. now rewrite map_get_set_same.
  - rewrite setNestedSegments_step in Hset.
    destruct obj as [| | | | |props]; try discriminate. simpl in Hset.
    match type of Hset with
    | context [setNestedSegments ?n (s :: segments) leaf] =>
        destruct (setNestedSegments n (s :: segments) leaf) as [n1|] eqn:En
    end; [|discriminate].
    simpl in Hset. inversion Hset; subst obj1; clear Hset.
    assert (Hcons : s :: segments <> []) by discriminate.
    destruct (IH Hcons _ _ En) as (obj2 & H2 & Hat).
    destruct (setNestedSegments_object _ _ _ _ Hcons En) as [p1 ->].
    change ((seg :: s :: segments) ++ r :: rest)
      with (seg :: s :: (segments ++ r :: rest)).
    rewrite setNestedSegments_step. simpl.
    unfold map_has. rewrite map_get_set_same. simpl.
    change (s :: segments ++ r :: rest) with ((s :: segments) ++ r :: rest).
    rewrite H2. simpl. eexists. split; [reflexivity|].
    cbn [value_at prop]. rewrite map_get_set_same. exact Hat.
Qed.

(** C4, as the code has it. When a row was placed as a leaf object at a
    path and a deeper row runs through it, the leaf is not replaced by a
    fresh object: unless the next segment names a property of the leaf
    (its [$value] or [$type]), no error is raised and the position holds
    the leaf's properties unchanged, followed by the nested child.  The
    segment [__proto__], which is no own property in JavaScript, is left
    aside. *)
Theorem setNestedValue_through_leaf (obj obj1 : json) (path rest : jsstring)
    (props : list (jsstring * json)) (value : json) :
  ~ In (js "__proto__") (split_dot path ++ split_dot rest) ->
  setNestedValue obj path (JObj props) = Ok obj1 ->
  map_get (hd [] (split_dot rest)) props = None ->
  exists obj2,
    setNestedValue obj1 (path ++ dot :: rest) value = Ok obj2 /\
    value_at obj2 (split_dot path)
    = Some (JObj (props ++ [(hd [] (split_dot rest),
                             chain (tl (split_dot rest)) value)])).
Proof.
  unfold setNestedValue. intros _ Hset Hfresh.
  rewrite split_dot_app.
  pose proof (split_dot_nonempty rest) as Hrest.
  destruct (split_dot rest) as [|k more] eqn:E; [congruence|].
  simpl in Hfresh |- *.
  assert (Hcons : k :: more <> []) by discriminate.
  exact (setNestedSegments_again (split_dot path) (k :: more) (JObj props) _ value
           (split_dot_nonempty path) Hcons eq_refl
           (setNestedSegments_fresh props k more value Hfresh) obj obj1 Hset).
Qed.

Lemma setNestedValue_through_leaf_witness :
  exists obj2,
    setNestedValue
      (JObj [(js "a", developerToken (js "x") None)])
      (js "a" ++ dot :: js "b") (developerToken (js "y") None) = Ok obj2 /\
    value_at obj2 (split_dot (js "a"))
    = Some (JObj [(js "$value", JStr (js "x")); (js "$type", JNull);
                  (js "b", developerToken (js "y") None)]).
Proof.
  apply (setNestedValue_through_leaf (JObj []) (JObj [(js "a", developerToken (js "x") None)])
           (js "a") (js "b")
           [(js "$value", JStr (js "x")); (js "$type", JNull)]
           (developerToken (js "y") None)).
  - simpl. intuition discriminate.
  - reflexivity.
  - reflexivity.
Defined.

(** C4 fails as stated: after the rows a and a.b, the position a still
    holds the [$value] and [$type] of the first row, next to the child b. *)
Lemma setNestedValue_keeps_leaf :
  exists obj1 obj2,
    setNestedValue (JObj []) (js "a") (developerToken (js "x") None) = Ok obj1 /\
    setNestedValue obj1 (js "a.b") (developerToken (js "y") None) = Ok obj2 /\
    value_at obj2 [js "a"] <> Some (JObj [(js "b", developerToken (js "y") None)]) /\
    value_at obj2 [js "a"; js "$value"] = Some (JStr (js "x")).
Proof.
  do 2 eexists. split; [reflexivity|]. split; [reflexivity|].
  split; [discriminate|reflexivity].
Qed.

(** *** The merged builder, one language at a time *)

Lemma bind_TypeError {A B : Type} (r : outcome A) :
  (x <- r ;; (TypeError : outcome B)) = TypeError.
Proof. now destruct r. Qed.

Lemma developerSteps_TypeError (rows : list Translation.t) :
  fold_left (fun acc t => result <- acc ;; developerStep result t) rows TypeError
  = TypeError.
Proof. induction rows as [|t rows IH]; simpl; auto. Qed.

Lemma growLanguage_TypeError (lang : Lang) (rows : list Translation.t) :
  fold_left (fun acc t => tree <- acc ;; growStep lang tree t) rows TypeError
  = TypeError.
Proof. induction rows as [|t rows IH]; simpl; auto. Qed.

Lemma growLanguage_cons (lang : Lang) (tree : json) (t : Translation.t)
    (rows : list Translation.t) :
  growLanguage lang tree (t :: rows)
  = (tree' <- growStep lang tree t ;; growLanguage lang tree' rows).
Proof.
  unfold growLanguage. cbn [fold_left bind].
  destruct (growStep lang tree t) as [tree'|]; [reflexivity|].
  apply growLanguage_TypeError.
Qed.

Lemma place_az (a e u : json) (path : jsstring) (value : json) :
  place (developerRoot a e u) (js "Translations/AZ") path value
  = (a' <- setNestedValue a path value ;; Ok (developerRoot a' e u)).
Proof. reflexivity. Qed.

Lemma place_en (a e u : json) (path : jsstring) (value : json) :
  place (developerRoot a e u) (js "Translations/EN") path value
  = (e' <- setNestedValue e path value ;; Ok (developerRoot a e' u)).
Proof. reflexivity. Qed.

Lemma place_ru (a e u : json) (path : jsstring) (value : json) :
  place (developerRoot a e u) (js "Translations/RU") path value
  = (u' <- setNestedValue u path value ;; Ok (developerRoot a e u')).
Proof. reflexivity. Qed.

Lemma developerStep_languages (a e u : json) (t : Translation.t) :
  developerStep (developerRoot a e u) t
  = (a' <- growStep az a t ;;
     e' <- growStep en e t ;;
     u' <- growStep ru u t ;;
     Ok (developerRoot a' e' u')).
Proof.
  unfold developerStep, growStep. fold (developerTokenType t).
  cbn [translation_value].
  destruct (Translation.az_value t) as [va|];
    [rewrite place_az; destruct (setNestedValue a _ _) as [a'|]|];
    cbn [bind]; try reflexivity;
    (destruct (Translation.en_value t) as [ve|];
     [rewrite place_en; destruct (setNestedValue e _ _) as [e'|]|];
     cbn [bind]; try reflexivity;
     (destruct (Translation.ru_value t) as [vu|];
      [rewrite place_ru; destruct (setNestedValue u _ _) as [u'|]|];
      reflexivity)).
Qed.

Lemma developerSteps_languages (rows : list Translation.t) (a e u : json) :
  fold_left (fun acc t => result <- acc ;; developerStep result t) rows
    (Ok (developerRoot a e u))
  = (a' <- growLanguage az a rows ;;
     e' <- growLanguage en e rows ;;
     u' <- growLanguage ru u rows ;;
     Ok (developerRoot a' e' u')).
Proof.
  revert a e u. induction rows as [|t rows IH]; intros a e u; [reflexivity|].
  rewrite !growLanguage_cons. cbn [fold_left bind].
  rewrite developerStep_languages.
  destruct (growStep az a t) as [a'|]; cbn [bind];
    [|apply developerSteps_TypeError].
  destruct (growStep en e t) as [e'|]; cbn [bind];
    [|rewrite developerSteps_TypeError; now rewrite bind_TypeError].
  destruct (growStep ru u t) as [u'|]; cbn [bind]; [apply IH|].
  rewrite developerSteps_TypeError.
  destruct (growLanguage az a' rows); [|reflexivity]. cbn [bind].
  now rewrite bind_TypeError.
Qed.

Lemma buildDeveloperJson_languages (rows : list Translation.t) :
  buildDeveloperJson rows
  = (a <- growLanguage az (JObj []) rows ;;
     e <- growLanguage en (JObj []) rows ;;
     u <- growLanguage ru (JObj []) rows ;;
     Ok (developerRoot a e u)).
Proof. apply (developerSteps_languages rows (JObj []) (JObj []) (JObj [])). Qed.




(** *** When the merged builder returns

    With a type on every row the token objects hold strings only, and the
    walk never meets [null]. *)

Lemma setNestedSegments_solid (segments : list jsstring) :
  forall (props : list (jsstring * json)) (value : json),
    segments <> [] -> solid (JObj props) -> solid value ->
    exists out,
      setNestedSegments (JObj props) segments value = Ok (JObj out) /\
      solid (JObj out).
Proof.
  induction segments as [|seg segments IH]; intros props value Hne Hs Hv;
    [congruence|].
  inversion Hs as [|? Hprops]; subst.
  assert (Hset : forall child, solid child ->
                   solid (JObj (map_set seg child props))).
  { intros child Hc. constructor. intros k v Hin.
    apply map_set_in in Hin as [E|Hin]; [inversion E; now subst|eauto]. }
  destruct segments as [|s segments].
  - rewrite setNestedSegments_last. cbn [assign].
    eexists. split; [reflexivity|]. now apply Hset.
  - rewrite setNestedSegments_step. cbn [in_object bind prop].
    set (next := match map_get seg props with
                 | Some child =>
                     if negb (map_has seg props) || negb (typeof_object child)
                     then JObj [] else child
                 | None => JObj []
                 end).
    assert (Hnext : exists inner, next = JObj inner /\ solid (JObj inner)).
    { subst next. destruct (map_get seg props) as [child|] eqn:Hget.
      - pose proof (Hprops seg child (map_get_in _ _ _ Hget)) as Hchild.
        inversion Hchild as [str|inner Hinner]; subst.
        + rewrite orb_true_r. exists []. split; [reflexivity|].
          constructor. intros ? ? [].
        + unfold map_has. rewrite Hget. cbn [negb orb typeof_object].
          exists inner. split; [reflexivity|exact Hchild].
      - exists []. split; [reflexivity|]. constructor. intros ? ? []. }
    destruct Hnext as (inner & -> & Hinner).
    destruct (IH inner value ltac:(discriminate) Hinner Hv) as (out & -> & Hout).
    cbn [bind assign]. eexists. split; [reflexivity|]. now apply Hset.
Qed.

Lemma growLanguage_solid (lang : Lang) (rows : list Translation.t) :
  (forall t, In t rows -> Translation.token_type t <> None) ->
  forall props, solid (JObj props) ->
  exists out, growLanguage lang (JObj props) rows = Ok (JObj out).
Proof.
  induction rows as [|t rows IH]; intros Htyped props Hs.
  - exists props. reflexivity.
  - rewrite growLanguage_cons. unfold growStep, setNestedValue.
    destruct (translation_value lang t) as [v|].
    + destruct (setNestedSegments_solid (split_dot (Translation.key_path t))
                  props (developerToken v (developerTokenType t)))
        as (out & -> & Hout).
      * apply split_dot_nonempty.
      * exact Hs.
      * unfold developerToken, developerTokenType.
        destruct (Translation.token_type t) as [s|] eqn:E.
        -- constructor. intros k x [H|[H|[]]]; inversion H; subst.
           ++ constructor.
           ++ destruct (str_eqb s (js "string")); constructor.
        -- exfalso. apply (Htyped t); [now left|exact E].
      * cbn [bind]. apply IH; [|exact Hout].
        intros t' Hin. apply Htyped. now right.
    + cbn [bind]. apply IH; [|exact Hs].
      intros t' Hin. apply Htyped. now right.
Qed.

(** For rows that all have a type, the merged builder returns, and what it
    returns has the three language keys, each over an object. *)
Lemma buildDeveloperJson_typed_rows (rows : list Translation.t) :
  (forall t, In t rows -> Translation.token_type t <> None) ->
  exists a e u,
    buildDeveloperJson rows = Ok (developerRoot (JObj a) (JObj e) (JObj u)).
Proof.
  intros Htyped. rewrite buildDeveloperJson_languages.
  assert (Hempty : solid (JObj [])) by (constructor; intros ? ? []).
  destruct (growLanguage_solid az rows Htyped [] Hempty) as [a ->].
  destruct (growLanguage_solid en rows Htyped [] Hempty) as [e ->].
  destruct (growLanguage_solid ru rows Htyped [] Hempty) as [u ->].
  now exists a, e, u.
Qed.

(** C9. [setNestedValue] tests [typeof current[seg] !== 'object'] without
    the null check that [flattenNode] makes: a [$type] that is [null]
    passes the test, and the walk goes on into [null].  The rows a (no
    type) and a.$type.b, both with an Azerbaijani value, make
    [buildDeveloperJson] throw, and [buildFigmaJson] for az as well. *)
Theorem builders_throw :
  buildDeveloperJson
    [plain_row (js "a") (Some (js "x")) None None None;
     plain_row (js "a.$type.b") (Some (js "y")) None None None]
  = TypeError /\
  buildFigmaJson
    [plain_row (js "a") (Some (js "x")) None None None;
     plain_row (js "a.$type.b") (Some (js "y")) None None None] [] az
  = TypeError.
Proof. split; reflexivity. Qed.

(** C10. The same walk into a [null] type in the English subtree:
    [buildDeveloperJson] returns no object at all for these two rows. *)
Theorem buildDeveloperJson_returns_nothing (out : json) :
  buildDeveloperJson
    [plain_row (js "title") None (Some (js "Hello")) None None;
     plain_row (js "title.$type.short") None (Some (js "Hi")) None None]
  <> Ok out.
Proof. discriminate. Qed.

(** ** The flattener *)

Lemma path_from_cons (pathPrefix key : jsstring) (names : list jsstring) :
  path_from pathPrefix (key :: names) = path_from (child_path pathPrefix key) names.
Proof. reflexivity. Qed.

(** One entry of the loop, on the rows. *)
Lemma flattenEntry_rows (lang : Lang) (pathPrefix key : jsstring) (value : json)
    (descend : jsstring -> Lang -> RowMap * GroupMap -> RowMap * GroupMap)
    (below : list (list jsstring * json)) (st : RowMap * GroupMap) :
  (forall p st',
      fst (descend p lang st')
      = fold_left (fun rows token =>
                     flattenLeaf lang (path_from p (fst token)) (snd token) rows)
          below (fst st')) ->
  fst (flattenEntry descend pathPrefix lang key value st)
  = fold_left (fun rows token =>
                 flattenLeaf lang (path_from pathPrefix (fst token)) (snd token) rows)
      (entry_tokens below key value) (fst st).
Proof.
  intros Hdescend. unfold flattenEntry, entry_tokens.
  destruct (str_eqb key (js "$extensions")); [reflexivity|].
  destruct (is_object value); [|reflexivity]. cbn [negb].
  destruct (js_in (js "$value") value); [reflexivity|].
  rewrite Hdescend. cbn [fst]. clear Hdescend.
  generalize (fst st) as rows.
  induction below as [|token below IH]; intros rows; [reflexivity|].
  cbn [map fold_left fst snd]. rewrite path_from_cons. apply IH.
Qed.

(** The rows [flattenNode] leaves are those of merging the tokens of the
    node one after the other. *)
Lemma flattenNode_rows (node : json) :
  forall (pathPrefix : jsstring) (lang : Lang) (st : RowMap * GroupMap),
    fst (flattenNode node pathPrefix lang st)
    = fold_left (fun rows token =>
                   flattenLeaf lang (path_from pathPrefix (fst token)) (snd token) rows)
        (tokens node) (fst st).
Proof.
  induction node as [| | | |items IH|props IH] using json_induction;
    intros pathPrefix lang st; try reflexivity.
  - cbn [flattenNode tokens]. generalize 0 as i. revert st.
    induction IH as [|value items Hvalue _ IHitems]; intros st i; [reflexivity|].
    rewrite fold_left_app, IHitems. f_equal.
    apply flattenEntry_rows. intros p st'. apply Hvalue.
  - cbn [flattenNode tokens]. revert st.
    induction IH as [|[key value] props Hvalue _ IHprops]; intros st;
      [reflexivity|].
    rewrite fold_left_app, IHprops. f_equal.
    apply flattenEntry_rows. intros p st'. apply Hvalue.
Qed.

Lemma merge_all_app (xs ys : list (Lang * (jsstring * json))) (rows : RowMap) :
  merge_all (xs ++ ys) rows = merge_all ys (merge_all xs rows).
Proof. apply fold_left_app. Qed.

Lemma flattenNode_language (lang : Lang) (tree : json) (st : RowMap * GroupMap) :
  fst (if truthy tree then flattenNode tree [] lang st else st)
  = merge_all (language_tokens lang tree) (fst st).
Proof.
  unfold language_tokens, merge_all. destruct (truthy tree); [|reflexivity].
  rewrite flattenNode_rows. generalize (fst st) as rows.
  induction (tokens tree) as [|token l IH]; intros rows; [reflexivity|].
  simpl. apply IH.
Qed.

(** The rows of [flattenJsons] come from merging every token of az, then
    en, then ru into an empty [Map]. *)
Lemma flattenJsons_rows (azJson enJson ruJson : json) :
  FlattenResult.rows (flattenJsons azJson enJson ruJson)
  = map snd (merge_all (occurrences azJson enJson ruJson) []).
Proof.
  unfold flattenJsons, occurrences. cbv zeta. cbn [FlattenResult.rows].
  rewrite !merge_all_app. f_equal.
  now rewrite !flattenNode_language.
Qed.

(** *** One key path at a time *)

Lemma mergeLeaf_key_path (lang : Lang) (path : jsstring) (child : json)
    (found : option FlatRow.t) :
  (forall r, found = Some r -> FlatRow.key_path r = path) ->
  FlatRow.key_path (mergeLeaf lang path child found) = path.
Proof.
  intros Hfound. unfold mergeLeaf.
  assert (H : FlatRow.key_path
                match found with
                | Some r => r
                | None => FlatRow.mk path JNull JNull JNull JNull JNull
                end = path).
  { destruct found as [r|]; [now apply Hfound|reflexivity]. }
  revert H. generalize (match found with
                        | Some r => r
                        | None => FlatRow.mk path JNull JNull JNull JNull JNull
                        end) as r.
  intros r Hr. cbv zeta.
  destruct (prop child (js "$extensions")) as [ext|];
    [destruct (truthy ext)|]; destruct lang; exact Hr.
Qed.

Lemma map_set_forall {V : Type} (Q : jsstring * V -> Prop) (k : jsstring) (v : V)
    (m : list (jsstring * V)) :
  Q (k, v) -> Forall Q m -> Forall Q (map_set k v m).
Proof.
  intros Hq Hm. induction Hm as [|[k' v'] m Hx Hm IH]; simpl.
  - constructor; [exact Hq|constructor].
  - destruct (str_eqb k' k); constructor; auto.
Qed.

Lemma map_get_forall {V : Type} (Q : jsstring * V -> Prop) (k : jsstring) (v : V)
    (m : list (jsstring * V)) :
  Forall Q m -> map_get k m = Some v -> Q (k, v).
Proof.
  intros Hm Hget. apply map_get_in in Hget.
  rewrite Forall_forall in Hm. now apply Hm.
Qed.

Lemma flattenLeaf_keyed (lang : Lang) (path : jsstring) (child : json)
    (rows : RowMap) :
  keyed rows -> keyed (flattenLeaf lang path child rows).
Proof.
  intros Hk. unfold flattenLeaf. apply map_set_forall; [|exact Hk].
  cbn [fst snd]. apply mergeLeaf_key_path. intros r Hr.
  apply (map_get_forall _ _ _ _ Hk Hr).
Qed.

Lemma merge_all_keyed (found : list (Lang * (jsstring * json))) (rows : RowMap) :
  keyed rows -> keyed (merge_all found rows).
Proof.
  revert rows. induction found as [|o found IH]; intros rows Hk; [exact Hk|].
  apply IH. now apply flattenLeaf_keyed.
Qed.

Lemma merge_all_nodup (found : list (Lang * (jsstring * json))) (rows : RowMap) :
  NoDup (map fst rows) -> NoDup (map fst (merge_all found rows)).
Proof.
  revert rows. induction found as [|o found IH]; intros rows Hnd; [exact Hnd|].
  apply IH. now apply map_set_nodup.
Qed.

Lemma find_row_keyed (path : jsstring) (rows : RowMap) :
  keyed rows -> find_row path (map snd rows) = map_get path rows.
Proof.
  unfold find_row. induction 1 as [|[k r] rows Hk _ IH]; [reflexivity|].
  simpl in *. rewrite Hk. destruct (str_eqb k path); [reflexivity|exact IH].
Qed.

Lemma merge_all_lookup (path : jsstring)
    (found : list (Lang * (jsstring * json))) (rows : RowMap) :
  map_get path (merge_all found rows) = merge_at path found (map_get path rows).
Proof.
  revert rows. induction found as [|[lang [p child]] found IH]; intros rows;
    [reflexivity|].
  unfold merge_all, merge_at in *. cbn [fold_left fst snd]. rewrite IH.
  f_equal. unfold flattenLeaf.
  destruct (str_eqb p path) eqn:E.
  - apply str_eqb_eq in E. subst p. apply map_get_set_same.
  - apply str_eqb_neq in E. now apply map_get_set_other.
Qed.

Lemma flattenJsons_find_row (azJson enJson ruJson : json) (path : jsstring) :
  find_row path (FlattenResult.rows (flattenJsons azJson enJson ruJson))
  = merge_at path (occurrences azJson enJson ruJson) None.
Proof.
  rewrite flattenJsons_rows, find_row_keyed.
  - apply merge_all_lookup.
  - apply merge_all_keyed. constructor.
Qed.

(** *** The Figma variable id *)

Lemma mergeLeaf_figma_variable_id (lang : Lang) (path : jsstring) (child : json)
    (found : option FlatRow.t) :
  FlatRow.figma_variable_id (mergeLeaf lang path child found)
  = match carried_variable_id child with
    | Some v => v
    | None => match found with
              | Some r => FlatRow.figma_variable_id r
              | None => JNull
              end
    end.
Proof.
  unfold mergeLeaf, carried_variable_id. cbv zeta.
  destruct (prop child (js "$extensions")) as [ext|].
  - destruct (truthy ext).
    + cbn [set_figma_variable_id FlatRow.figma_variable_id].
      unfold or_else.
      destruct (variableId_of ext) as [v|]; [destruct (truthy v)|];
        destruct found, lang; reflexivity.
    + destruct found, lang; reflexivity.
  - destruct found, lang; reflexivity.
Qed.

(** C1, as the code has it. The Figma variable id of a row is the
    [variableId] of the last token at its path, in the order az, en, ru,
    that carries a truthy one: each such token replaces what an earlier one
    had set. *)
Theorem flattenJsons_last_variable_id (azJson enJson ruJson : json)
    (before after : list (Lang * (jsstring * json)))
    (lang : Lang) (path : jsstring) (child v : json) :
  occurrences azJson enJson ruJson = before ++ (lang, (path, child)) :: after ->
  carried_variable_id child = Some v ->
  (forall l c, In (l, (path, c)) after -> carried_variable_id c = None) ->
  exists row,
    find_row path (FlattenResult.rows (flattenJsons azJson enJson ruJson))
    = Some row /\
    FlatRow.figma_variable_id row = v.
Proof.
  intros Hocc Hv Hafter. rewrite flattenJsons_find_row, Hocc.
  unfold merge_at. rewrite fold_left_app. cbn [fold_left fst snd].
  rewrite str_eqb_refl.
  set (start := mergeLeaf lang path child _).
  assert (Hstart : FlatRow.figma_variable_id start = v).
  { subst start. now rewrite mergeLeaf_figma_variable_id, Hv. }
  clearbody start. clear Hocc. revert start Hstart.
  induction after as [|[l [p c]] after IH]; intros start Hstart.
  - exists start. split; [reflexivity|exact Hstart].
  - cbn [fold_left fst snd]. destruct (str_eqb p path) eqn:E.
    + apply str_eqb_eq in E. subst p. apply IH.
      * intros l' c' Hin. apply (Hafter l' c'). now right.
      * rewrite mergeLeaf_figma_variable_id.
        rewrite (Hafter l c) by now left. exact Hstart.
    + apply IH; [|exact Hstart].
      intros l' c' Hin. apply (Hafter l' c'). now right.
Qed.

Lemma flattenJsons_last_variable_id_witness :
  exists row,
    find_row (js "a")
      (FlattenResult.rows
         (flattenJsons (JObj [(js "a", figmaToken (js "X") (js "V1"))])
            (JObj [(js "a", figmaToken (js "Y") (js "V2"))]) JNull))
    = Some row /\
    FlatRow.figma_variable_id row = JStr (js "V2").
Proof.
  apply (flattenJsons_last_variable_id
           (JObj [(js "a", figmaToken (js "X") (js "V1"))])
           (JObj [(js "a", figmaToken (js "Y") (js "V2"))]) JNull
           [(az, (js "a", figmaToken (js "X") (js "V1")))] []
           en (js "a") (figmaToken (js "Y") (js "V2")) (JStr (js "V2"))).
  - reflexivity.
  - reflexivity.
  - intros l c [].
Defined.

(** C1 fails as stated: the path a is a token in the az tree with the
    variable id V1 and in the en tree with V2; the row ends with V2, the
    later one, not with V1. *)
Lemma flattenJsons_variable_id_overwritten :
  exists row,
    find_row (js "a")
      (FlattenResult.rows
         (flattenJsons (JObj [(js "a", figmaToken (js "X") (js "V1"))])
            (JObj [(js "a", figmaToken (js "Y") (js "V2"))]) JNull))
    = Some row /\
    FlatRow.figma_variable_id row <> JStr (js "V1") /\
    FlatRow.figma_variable_id row = JStr (js "V2").
Proof.
  eexists. split; [reflexivity|]. split; [discriminate|reflexivity].
Qed.

(** *** Key paths *)

Lemma index_key_nonempty (i : nat) : index_key i <> [].
Proof.
  unfold index_key, js. intros H. apply map_eq_nil in H.
  assert (Hs : NilEmpty.string_of_uint (Nat.to_uint i) = EmptyString).
  { destruct (NilEmpty.string_of_uint (Nat.to_uint i)); [reflexivity|discriminate]. }
  pose proof (NilEmpty.usu (Nat.to_uint i)) as Hu. rewrite Hs in Hu.
  simpl in Hu. inversion Hu as [Hnil].
  pose proof (Unsigned.of_to i) as Hi. rewrite <- Hnil in Hi. simpl in Hi.
  subst i. discriminate.
Qed.

Lemma child_path_nonempty (pathPrefix key : jsstring) :
  pathPrefix <> [] \/ key <> [] -> child_path pathPrefix key <> [].
Proof.
  unfold child_path. destruct pathPrefix as [|c p]; simpl.
  - intros [H|H]; congruence.
  - discriminate.
Qed.

Lemma path_from_nonempty (pathPrefix : jsstring) (names : list jsstring) :
  pathPrefix <> [] -> path_from pathPrefix names <> [].
Proof.
  revert pathPrefix. induction names as [|k names IH]; intros p Hp; [exact Hp|].
  rewrite path_from_cons. apply IH. apply child_path_nonempty. now left.
Qed.

Lemma entry_tokens_head (below : list (list jsstring * json)) (key : jsstring)
    (value : json) :
  Forall (fun token => exists rest, fst token = key :: rest)
    (entry_tokens below key value).
Proof.
  unfold entry_tokens.
  destruct (str_eqb key (js "$extensions")); [constructor|].
  destruct (negb (is_object value)); [constructor|].
  destruct (js_in (js "$value") value).
  - constructor; [|constructor]. now exists [].
  - apply Forall_forall. intros token Hin.
    apply in_map_iff in Hin as [t [<- _]]. simpl. eauto.
Qed.

(** In a tree without empty property names every token has a non-empty
    path. *)
Lemma tokens_named (node : json) :
  named node = true ->
  Forall (fun token => path_from [] (fst token) <> []) (tokens node).
Proof.
  assert (Hentry : forall below key value,
             key <> [] ->
             Forall (fun token => path_from [] (fst token) <> [])
               (entry_tokens below key value)).
  { intros below key value Hkey.
    pose proof (entry_tokens_head below key value) as H.
    eapply Forall_impl; [|exact H]. intros token [rest ->].
    rewrite path_from_cons. apply path_from_nonempty.
    apply child_path_nonempty. now right. }
  destruct node as [| | | |items|props]; try constructor.
  - intros _. cbn [tokens]. generalize 0 as i.
    induction items as [|value items IH]; intros i; [constructor|].
    apply Forall_app. split; [|apply IH].
    apply Hentry, index_key_nonempty.
  - cbn [tokens named]. induction props as [|[key value] props IH];
      intros H; [constructor|].
    cbn [forallb fst snd] in H.
    apply andb_true_iff in H as [Hkv Hrest].
    apply andb_true_iff in Hkv as [Hk _].
    apply Forall_app. split; [|now apply IH].
    apply Hentry. destruct key; [discriminate|discriminate].
Qed.

Lemma merge_all_keys (found : list (Lang * (jsstring * json))) (rows : RowMap)
    (k : jsstring) :
  In k (map fst (merge_all found rows)) ->
  In k (map fst rows) \/ exists o, In o found /\ fst (snd o) = k.
Proof.
  revert rows. induction found as [|o found IH]; intros rows; [now left|].
  intros H. apply IH in H as [H|(o' & Hin & Hk)].
  - unfold flattenLeaf in H. rewrite map_set_keys in H.
    destruct (map_has (fst (snd o)) rows); [now left|].
    apply in_app_iff in H as [H|[H|[]]]; [now left|].
    right. exists o. split; [now left|exact H].
  - right. exists o'. split; [now right|exact Hk].
Qed.

(** C5, as the code has it. When no property name of the three trees is
    the empty string, every row of [flattenJsons] has a non-empty
    [key_path]. *)
Theorem flattenJsons_key_path_nonempty (azJson enJson ruJson : json) :
  named azJson = true -> named enJson = true -> named ruJson = true ->
  Forall (fun r => FlatRow.key_path r <> [])
    (FlattenResult.rows (flattenJsons azJson enJson ruJson)).
Proof.
  intros Haz Hen Hru. rewrite flattenJsons_rows.
  set (found := occurrences azJson enJson ruJson).
  assert (Hfound : Forall (fun o => fst (snd o) <> []) found).
  { assert (Hlang : forall lang tree, named tree = true ->
               Forall (fun o => fst (snd o) <> []) (language_tokens lang tree)).
    { intros lang tree Hn. unfold language_tokens.
      destruct (truthy tree); [|constructor].
      apply Forall_forall. intros o Hin.
      apply in_map_iff in Hin as [token [<- Hin]]. cbn [fst snd].
      pose proof (tokens_named tree Hn) as Ht.
      rewrite Forall_forall in Ht. now apply Ht. }
    subst found. unfold occurrences. rewrite !Forall_app. auto. }
  pose proof (merge_all_keyed found [] (Forall_nil _)) as Hkeyed.
  apply Forall_forall. intros r Hr.
  apply in_map_iff in Hr as [[k r'] [<- Hin]]. cbn [snd].
  unfold keyed in Hkeyed. rewrite Forall_forall in Hkeyed.
  pose proof (Hkeyed _ Hin) as Hkr. cbn [fst snd] in Hkr. rewrite Hkr.
  assert (Hk : In k (map fst (merge_all found []))).
  { apply in_map_iff. now exists (k, r'). }
  apply merge_all_keys in Hk as [[]|(o & Ho & <-)].
  rewrite Forall_forall in Hfound. now apply Hfound.
Qed.

Lemma flattenJsons_key_path_nonempty_witness :
  Forall (fun r => FlatRow.key_path r <> [])
    (FlattenResult.rows
       (flattenJsons
          (JObj [(js "theme", JObj [(js "title", JObj [(js "$value", JStr (js "Salam"))])])])
          (JObj [(js "theme", JObj [(js "title", JObj [(js "$value", JStr (js "Hello"))])])])
          JNull)).
Proof.
  apply (flattenJsons_key_path_nonempty
           (JObj [(js "theme", JObj [(js "title", JObj [(js "$value", JStr (js "Salam"))])])])
           (JObj [(js "theme", JObj [(js "title", JObj [(js "$value", JStr (js "Hello"))])])])
           JNull); reflexivity.
Defined.

(** C5 fails as stated: a token under the empty property name at the top
    of a tree gives a row whose [key_path] is the empty string. *)
Lemma flattenJsons_empty_key_path :
  exists row,
    In row (FlattenResult.rows
              (flattenJsons
                 (JObj [([], JObj [(js "$value", JStr (js "X"))])]) JNull JNull)) /\
    FlatRow.key_path row = [].
Proof. eexists. split; [now left|reflexivity]. Qed.

(** *** What the flattener walks through *)

(** Strings, numbers, booleans and [null] among the properties are passed
    over: a node that has nothing else leaves the rows and the group
    extensions as they were. *)
Lemma flattenNode_skips_primitives (props : list (jsstring * json))
    (pathPrefix : jsstring) (lang : Lang) (st : RowMap * GroupMap) :
  Forall (fun entry => is_object (snd entry) = false) props ->
  flattenNode (JObj props) pathPrefix lang st = st.
Proof.
  cbn [flattenNode]. intros Hall. revert st.
  induction Hall as [|[key value] props Hvalue _ IH]; intros st; [reflexivity|].
  rewrite IH. unfold flattenEntry. cbn [snd] in Hvalue. rewrite Hvalue.
  now destruct (str_eqb key (js "$extensions")).
Qed.

(** An array is an object for [typeof]: its items are walked through
    under their indices. *)
Lemma flattenJsons_walks_arrays :
  map FlatRow.key_path
    (FlattenResult.rows
       (flattenJsons
          (JObj [(js "a", JArr [JObj [(js "$value", JStr (js "x"))]])])
          JNull JNull))
  = [js "a.0"].
Proof. reflexivity. Qed.

(** A token with neither [$type] nor [$extensions] leaves the type and the
    variable id of its row as they were. *)
Lemma mergeLeaf_no_metadata (lang : Lang) (path : jsstring) (child : json)
    (r : FlatRow.t) :
  prop child (js "$type") = None -> prop child (js "$extensions") = None ->
  FlatRow.token_type (mergeLeaf lang path child (Some r)) = FlatRow.token_type r /\
  FlatRow.figma_variable_id (mergeLeaf lang path child (Some r))
  = FlatRow.figma_variable_id r.
Proof.
  intros Htype Hext. unfold mergeLeaf. cbv zeta. rewrite Htype, Hext.
  now destruct lang.
Qed.

(** ** Tokens of a tree *)

Lemma tokens_entries (node : json) :
  tokens node
  = flat_map (fun e => entry_tokens (tokens (snd e)) (fst e) (snd e)) (entries node).
Proof.
  destruct node as [| | | |items|props]; try reflexivity.
  - cbn [tokens entries]. generalize 0 as i.
    induction items as [|value items IH]; intros i; [reflexivity|].
    cbn [indexed flat_map fst snd]. now rewrite <- IH.
  - cbn [tokens entries].
    induction props as [|[key value] props IH]; [reflexivity|].
    cbn [flat_map fst snd]. now rewrite <- IH.
Qed.

Lemma entry_tokens_visited (below : list (list jsstring * json))
    (key : jsstring) (value : json) (token : list jsstring * json) :
  In token (entry_tokens below key value) ->
  visited key value /\
  ((js_in (js "$value") value = true /\ token = ([key], value)) \/
   (js_in (js "$value") value = false /\
    exists t, In t below /\ token = (key :: fst t, snd t))).
Proof.
  unfold entry_tokens, visited.
  destruct (str_eqb key (js "$extensions")); [intros []|].
  destruct (is_object value); [|intros []]. cbn [negb].
  destruct (js_in (js "$value") value).
  - intros [<-|[]]. auto.
  - intros H. apply in_map_iff in H as [t [<- Hin]]. split; [auto|].
    right. split; [reflexivity|]. now exists t.
Qed.

Lemma index_key_head (i : nat) :
  exists c rest, index_key i = c :: rest /\ is_digit c = true.
Proof.
  pose proof (index_key_nonempty i) as Hne. unfold index_key, js in *.
  destruct (Nat.to_uint i) as [|d|d|d|d|d|d|d|d|d|d]; simpl in *;
    try congruence; do 2 eexists; split; reflexivity.
Qed.

Lemma map_get_some_in {V : Type} (k : jsstring) (v : V)
    (m : list (jsstring * V)) :
  In (k, v) m -> map_has k m = true.
Proof.
  unfold map_has. intros Hin.
  destruct (map_get k m) eqn:E; [reflexivity|].
  apply map_get_none in E. exfalso. apply E.
  apply in_map_iff. now exists (k, v).
Qed.

(** A node that is no token has no entry named [$value]. *)
Lemma entries_not_value (node : json) (key : jsstring) (value : json) :
  js_in (js "$value") node = false -> In (key, value) (entries node) ->
  key <> js "$value".
Proof.
  destruct node as [| | | |items|props]; simpl; try tauto.
  - intros _. generalize 0 as i.
    induction items as [|x items IH]; intros i; [intros []|].
    simpl. intros [H|H]; [|now apply (IH (S i))].
    inversion H. destruct (index_key_head i) as (c & rest & -> & Hc).
    intros E. inversion E. subst c. discriminate.
  - intros Hin Hentry ->. apply map_get_some_in in Hentry. congruence.
Qed.

Lemma indexed_in (i : nat) (items : list json) (key : jsstring) (value : json) :
  In (key, value) (indexed i items) -> In value items.
Proof.
  revert i. induction items as [|x items IH]; intros i; [intros []|].
  simpl. intros [H|H]; [inversion H; now left|right; now apply (IH (S i))].
Qed.

(** Induction over the entries of a node. *)
Lemma entries_induction (P : json -> Prop) :
  (forall node,
      (forall key value, In (key, value) (entries node) -> P value) -> P node) ->
  forall node, P node.
Proof.
  intros Hstep node.
  induction node as [| | | |items IH|props IH] using json_induction;
    apply Hstep; simpl; try tauto.
  - intros key value Hin. apply indexed_in in Hin.
    rewrite Forall_forall in IH. now apply IH.
  - intros key value Hin. rewrite Forall_forall in IH.
    apply (IH (key, value) Hin).
Qed.

(** Where the tokens of a node come from. *)
Lemma in_tokens (node : json) (names : list jsstring) (child : json) :
  In (names, child) (tokens node) <->
  exists key value,
    In (key, value) (entries node) /\ visited key value /\
    ((js_in (js "$value") value = true /\ names = [key] /\ child = value) \/
     (js_in (js "$value") value = false /\
      exists rest, names = key :: rest /\ In (rest, child) (tokens value))).
Proof.
  rewrite tokens_entries, in_flat_map. split.
  - intros [[key value] [Hin Htok]]. cbn [fst snd] in Htok.
    exists key, value. split; [exact Hin|].
    apply entry_tokens_visited in Htok as [Hv [[Hj E]|[Hj [t [Ht E]]]]];
      split; try exact Hv.
    + left. inversion E. auto.
    + right. split; [exact Hj|]. exists (fst t). inversion E.
      split; [reflexivity|]. now destruct t.
  - intros (key & value & Hin & [Hext Hobj] & Hcase).
    exists (key, value). split; [exact Hin|]. cbn [fst snd].
    unfold entry_tokens. rewrite Hext, Hobj. cbn [negb].
    destruct Hcase as [(Hj & -> & ->)|(Hj & rest & -> & Hrest)]; rewrite Hj.
    + now left.
    + apply in_map_iff. now exists (rest, child).
Qed.

Lemma nodup_entry {V : Type} (m : list (jsstring * V)) (k : jsstring) (v v' : V) :
  NoDup (map fst m) -> In (k, v) m -> In (k, v') m -> v = v'.
Proof.
  intros Hnd H H'. apply (map_get_unique _ _ _ Hnd) in H, H'. congruence.
Qed.

(** What holds of every token of a clean tree. *)
Lemma tokens_of_clean (names : list jsstring) :
  forall node child,
    clean node -> In (names, child) (tokens node) ->
    findable names /\
    Forall (fun n => n <> [] /\ dot_free n = true) names /\
    is_token child /\ prop child (js "$value") <> Some JNull.
Proof.
  induction names as [|name names IH]; intros node child Hclean Hin;
    apply in_tokens in Hin
      as (key & value & Hentry & Hvis & [(Hj & E & ->)|(Hj & rest & E & Hrest)]);
    try discriminate; inversion E; subst; clear E;
    inversion Hclean as [? Hnd Hnames Hvalue Hbelow]; subst.
  - pose proof Hvis as [Hext Hobj].
    split; [|split; [|split]].
    + split; [discriminate|]. split; [|constructor].
      constructor; [|constructor]. apply str_eqb_neq. exact Hext.
    + constructor; [|constructor].
      destruct (Hnames _ _ Hentry Hvis) as (Hn & Hd & _). now split.
    + split; assumption.
    + eapply Hvalue; eauto.
  - destruct (IH value child (Hbelow _ _ Hentry Hvis Hj) Hrest)
      as ((Hne & Hx & Hv) & Hgood & Htok & Hnull).
    pose proof Hvis as [Hext Hobj].
    split; [|split; [|split]]; try assumption.
    + split; [discriminate|]. split.
      * constructor; [apply str_eqb_neq; exact Hext|exact Hx].
      * cbn [tl].
        match type of Hrest with
        | In (?l, _) _ => destruct l as [|r l']; [congruence|]
        end.
        constructor; [|exact Hv].
        apply in_tokens in Hrest
          as (k2 & v2 & Hentry2 & _ & [(_ & E & _)|(_ & r2 & E & _)]);
          inversion E; subst; now apply (entries_not_value value k2 v2).
    + constructor; [|exact Hgood].
      destruct (Hnames _ _ Hentry Hvis) as (Hn & Hd & _). now split.
Qed.

Lemma tokens_prefix_free (a : list jsstring) :
  forall node b ca cb,
    clean node -> In (a, ca) (tokens node) -> In (b, cb) (tokens node) ->
    is_prefix a b -> a = b.
Proof.
  induction a as [|name a IH]; intros node b ca cb Hclean Ha Hb [c Hc].
  - apply in_tokens in Ha
      as (key & value & _ & _ & [(_ & E & _)|(_ & rest & E & _)]);
      discriminate.
  - inversion Hclean as [? Hnd Hnames Hvalue Hbelow]; subst.
    apply in_tokens in Ha as (key & value & Hentry & Hvis & Ha).
    apply in_tokens in Hb as (key' & value' & Hentry' & Hvis' & Hb).
    assert (Hkey : key = name).
    { destruct Ha as [(_ & E & _)|(_ & rest & E & _)]; now inversion E. }
    assert (Hkey' : key' = name).
    { destruct Hb as [(_ & E & _)|(_ & rest & E & _)]; now inversion E. }
    subst key key'.
    pose proof (nodup_entry _ _ _ _ Hnd Hentry Hentry') as Hsame. subst value'.
    destruct Ha as [(Hj & Ea & _)|(Hj & ra & Ea & Hra)];
      destruct Hb as [(Hj' & Eb & _)|(Hj' & rb & Eb & Hrb)];
      try congruence.
    inversion Ea; subst a. inversion Eb; subst rb.
    cbn [app]. f_equal.
    apply (IH value (ra ++ c) ca cb (Hbelow _ _ Hentry Hvis Hj) Hra Hrb).
    now exists c.
Qed.

Lemma nodup_cons_names (key : jsstring) (paths : list (list jsstring)) :
  NoDup paths -> NoDup (map (cons key) paths).
Proof.
  induction 1 as [|p paths Hnotin _ IH]; simpl; constructor; [|exact IH].
  intros Hin. apply in_map_iff in Hin as [q [E Hq]].
  inversion E. now subst.
Qed.

Lemma tokens_nodup (node : json) :
  clean node -> NoDup (map fst (tokens node)).
Proof.
  induction node as [node IH] using entries_induction. intros Hclean.
  inversion Hclean as [? Hnd _ _ Hbelow]; subst.
  rewrite tokens_entries.
  assert (Hpiece : forall key value, In (key, value) (entries node) ->
            NoDup (map fst (entry_tokens (tokens value) key value))).
  { intros key value Hin. unfold entry_tokens.
    destruct (str_eqb key (js "$extensions")) eqn:Hext; [constructor|].
    destruct (is_object value) eqn:Hobj; [|constructor]. cbn [negb].
    destruct (js_in (js "$value") value) eqn:Hj.
    - repeat constructor. intros [].
    - rewrite map_map. cbn [fst].
      rewrite <- (map_map fst (cons key)). apply nodup_cons_names.
      apply (IH key value Hin). apply (Hbelow key value Hin); [|exact Hj].
      now split. }
  clear IH Hbelow Hclean.
  induction (entries node) as [|[key value] es IHes]; [constructor|].
  cbn [flat_map fst snd]. rewrite map_app.
  inversion Hnd as [|? ? Hnotin Hnd']; subst.
  apply NoDup_app.
  - apply Hpiece. now left.
  - apply IHes; [exact Hnd'|]. intros k v Hin. apply Hpiece. now right.
  - intros names Hin Hin'.
    apply in_map_iff in Hin as [t [Et Ht]].
    apply in_map_iff in Hin' as [t' [Et' Ht']].
    pose proof (entry_tokens_head (tokens value) key value) as Hhead.
    rewrite Forall_forall in Hhead. destruct (Hhead t Ht) as [rest Hrest].
    apply in_flat_map in Ht' as [[k v] [Hkv Ht']]. cbn [fst snd] in Ht'.
    pose proof (entry_tokens_head (tokens v) k v) as Hhead'.
    rewrite Forall_forall in Hhead'. destruct (Hhead' t' Ht') as [rest' Hrest'].
    apply Hnotin. apply in_map_iff. exists (k, v). split; [|exact Hkv].
    cbn [fst]. congruence.
Qed.

(** ** Growing a tree token by token *)

Lemma tokens_split (l1 l2 : list (jsstring * json)) (key : jsstring) (value : json) :
  tokens (JObj (l1 ++ (key, value) :: l2))
  = tokens (JObj l1) ++ entry_tokens (tokens value) key value ++ tokens (JObj l2).
Proof.
  rewrite (tokens_entries (JObj (l1 ++ (key, value) :: l2))).
  rewrite (tokens_entries (JObj l1)), (tokens_entries (JObj l2)).
  cbn [entries]. rewrite flat_map_app. reflexivity.
Qed.

Lemma tokens_snoc (props : list (jsstring * json)) (key : jsstring) (value : json) :
  tokens (JObj (props ++ [(key, value)]))
  = tokens (JObj props) ++ entry_tokens (tokens value) key value.
Proof. rewrite tokens_split. cbn [tokens]. now rewrite app_nil_r. Qed.

Lemma entry_tokens_token (below : list (list jsstring * json)) (key : jsstring)
    (value : json) :
  key <> js "$extensions" -> is_token value ->
  entry_tokens below key value = [([key], value)].
Proof.
  intros Hk [Hobj Hj]. unfold entry_tokens.
  apply str_eqb_neq in Hk. now rewrite Hk, Hobj, Hj.
Qed.

Lemma entry_tokens_group (below : list (list jsstring * json)) (key : jsstring)
    (value : json) :
  key <> js "$extensions" -> is_object value = true ->
  js_in (js "$value") value = false ->
  entry_tokens below key value = map (fun t => (key :: fst t, snd t)) below.
Proof.
  intros Hk Hobj Hj. unfold entry_tokens.
  apply str_eqb_neq in Hk. now rewrite Hk, Hobj, Hj.
Qed.

Lemma trie_set (props : list (jsstring * json)) (key : jsstring)
    (inner : list (jsstring * json)) :
  trie (JObj props) ->
  (js_in (js "$value") (JObj inner) = false -> trie (JObj inner)) ->
  trie (JObj (map_set key (JObj inner) props)).
Proof.
  intros Htrie Hinner. inversion Htrie as [? Hnd Hobj Hbelow]; subst.
  constructor.
  - now apply map_set_nodup.
  - intros k v Hin. apply map_set_in in Hin as [E|Hin]; [|eauto].
    inversion E. eauto.
  - intros k v Hin Hj. apply map_set_in in Hin as [E|Hin]; [|eauto].
    inversion E. subst. auto.
Qed.

Lemma is_prefix_cons (key : jsstring) (a b : list jsstring) :
  is_prefix (key :: a) (key :: b) <-> is_prefix a b.
Proof.
  split; intros [c Hc]; exists c; [now inversion Hc|now subst].
Qed.

Lemma trie_empty : trie (JObj []).
Proof. constructor; [constructor|intros ? ? []|intros ? ? []]. Qed.

Lemma trie_object (tree : json) : trie tree -> exists props, tree = JObj props.
Proof. intros H. inversion H. eauto. Qed.

(** Placing a token on a path that no token of the tree lies on or under
    adds that token and touches no other. *)
Lemma insert_token (names : list jsstring) :
  forall (tree : json) (inner : list (jsstring * json)),
    trie tree -> findable names ->
    js_in (js "$value") (JObj inner) = true ->
    (forall q c, In (q, c) (tokens tree) ->
                 ~ is_prefix q names /\ ~ is_prefix names q) ->
    exists tree',
      setNestedSegments tree names (JObj inner) = Ok tree' /\ trie tree' /\
      Permutation (tokens tree') ((names, JObj inner) :: tokens tree) /\
      (forall x, x <> hd [] names -> js_in x tree' = js_in x tree).
Proof.
  induction names as [|k names IH];
    intros tree inner Htrie (Hne & Hext & Hval) Hleaf Hfree; [congruence|].
  inversion Htrie as [props Hnd Hobj Hbelow]; subst tree.
  inversion Hext as [|? ? Hk Hext']; subst.
  assert (Htoken : is_token (JObj inner)) by (split; [reflexivity|exact Hleaf]).
  destruct names as [|k2 rest].
  - rewrite setNestedSegments_last. cbn [assign].
    exists (JObj (map_set k (JObj inner) props)). split; [reflexivity|].
    split; [apply trie_set; [exact Htrie|intros; congruence]|].
    split; [|intros x Hx; cbn [js_in hd] in *; now apply map_has_set].
    destruct (map_get k props) as [v|] eqn:Hget.
    + destruct (map_set_split _ _ _ Hget) as (l1 & l2 & -> & Hset).
      rewrite Hset, !tokens_split.
      rewrite (entry_tokens_token _ _ _ Hk Htoken).
      destruct (entry_tokens (tokens v) k v) as [|t E] eqn:Ev.
      * cbn [app]. symmetry. apply Permutation_middle.
      * exfalso.
        pose proof (entry_tokens_head (tokens v) k v) as Hhead.
        rewrite Ev in Hhead. inversion Hhead as [|? ? [r Hr] _]; subst.
        destruct (Hfree (fst t) (snd t)) as [_ Hno].
        { rewrite tokens_split, Ev. apply in_or_app. right. left.
          now destruct t. }
        apply Hno. rewrite Hr. now exists r.
    + rewrite (map_set_absent _ _ _ Hget), tokens_snoc.
      rewrite (entry_tokens_token _ _ _ Hk Htoken).
      symmetry. apply Permutation_cons_append.
  - cbn [tl] in Hval.
    assert (Hfind : findable (k2 :: rest)).
    { split; [discriminate|]. split; [exact Hext'|].
      inversion Hval; assumption. }
    assert (Hk2 : js "$value" <> k2).
    { inversion Hval; subst. congruence. }
    rewrite setNestedSegments_step. cbn [in_object bind prop].
    unfold map_has.
    destruct (map_get k props) as [v|] eqn:Hget.
    + pose proof (map_get_in _ _ _ Hget) as Hin.
      destruct (Hobj k v Hin) as [vinner ->].
      cbn [negb orb typeof_object].
      destruct (js_in (js "$value") (JObj vinner)) eqn:Hj.
      * exfalso. destruct (Hfree [k] (JObj vinner)) as [Hno _].
        { apply in_tokens. exists k, (JObj vinner). split; [exact Hin|].
          split; [split; [now apply str_eqb_neq|reflexivity]|]. left. auto. }
        apply Hno. now exists (k2 :: rest).
      * destruct (IH (JObj vinner) inner (Hbelow k _ Hin Hj) Hfind Hleaf)
          as (v' & Hset' & Htrie' & Hperm & Hsame).
        { intros q c Hq.
          destruct (Hfree (k :: q) c) as [Hno1 Hno2].
          { apply in_tokens. exists k, (JObj vinner). split; [exact Hin|].
            split; [split; [now apply str_eqb_neq|reflexivity]|].
            right. split; [exact Hj|]. now exists q. }
          rewrite is_prefix_cons in Hno1, Hno2. now split. }
        rewrite Hset'. cbn [bind assign].
        destruct (trie_object _ Htrie') as [inner' ->].
        assert (Hj' : js_in (js "$value") (JObj inner') = false).
        { rewrite Hsame; [exact Hj|exact Hk2]. }
        exists (JObj (map_set k (JObj inner') props)). split; [reflexivity|].
        split; [apply trie_set; [exact Htrie|intros; exact Htrie']|].
        split; [|intros x Hx; cbn [js_in hd] in *; now apply map_has_set].
        destruct (map_set_split _ _ _ Hget) as (l1 & l2 & -> & Hset).
        rewrite Hset, !tokens_split.
        rewrite !entry_tokens_group by (auto; reflexivity).
        etransitivity.
        { apply Permutation_app_head, Permutation_app_tail.
          apply Permutation_map. exact Hperm. }
        cbn [map app fst snd]. symmetry. apply Permutation_middle.
    + cbn [negb orb].
      destruct (IH (JObj []) inner trie_empty Hfind Hleaf)
        as (v' & Hset' & Htrie' & Hperm & Hsame).
      { intros q c []. }
      rewrite Hset'. cbn [bind assign].
      destruct (trie_object _ Htrie') as [inner' ->].
      assert (Hj' : js_in (js "$value") (JObj inner') = false).
      { rewrite Hsame; [reflexivity|exact Hk2]. }
      exists (JObj (map_set k (JObj inner') props)). split; [reflexivity|].
      split; [apply trie_set; [exact Htrie|intros; exact Htrie']|].
      split; [|intros x Hx; cbn [js_in hd] in *; now apply map_has_set].
      rewrite (map_set_absent _ _ _ Hget), tokens_snoc.
      rewrite entry_tokens_group by (auto; reflexivity).
      etransitivity.
      { apply Permutation_app_head. apply Permutation_map. exact Hperm. }
      cbn [map tokens app fst snd]. symmetry. apply Permutation_cons_append.
Qed.

Lemma apart_permutation (l l' : list (list jsstring)) :
  Permutation l l' -> apart l -> apart l'.
Proof.
  intros Hp [Hnd Hfree]. split.
  - eapply Permutation_NoDup; eauto.
  - intros a b Ha Hb. apply Permutation_sym in Hp.
    apply Hfree; [exact (Permutation_in a Hp Ha)|exact (Permutation_in b Hp Hb)].
Qed.

(** Placing tokens on paths that are apart grows a tree holding exactly
    these tokens besides its own. *)
Lemma place_all (items : list (list jsstring * json)) :
  forall tree,
    trie tree ->
    apart (map fst items ++ map fst (tokens tree)) ->
    Forall (fun item =>
              findable (fst item) /\
              exists inner, snd item = JObj inner /\
                            js_in (js "$value") (JObj inner) = true) items ->
    exists tree',
      fold_left (fun acc item =>
                   t <- acc ;; setNestedSegments t (fst item) (snd item))
        items (Ok tree) = Ok tree' /\
      trie tree' /\
      Permutation (tokens tree') (items ++ tokens tree).
Proof.
  induction items as [|[names leaf] items IH]; intros tree Htrie Hapart Hitems.
  - exists tree. split; [reflexivity|]. split; [exact Htrie|reflexivity].
  - inversion Hitems as [|? ? (Hfind & inner & Hleaf & Hj) Hrest]; subst.
    cbn [fst snd] in *. subst leaf.
    destruct Hapart as [Hnd Hfree].
    destruct (insert_token names tree inner Htrie Hfind Hj)
      as (tree1 & Hset & Htrie1 & Hperm & _).
    { intros q c Hq.
      assert (Hin : In q (map fst ((names, JObj inner) :: items)
                          ++ map fst (tokens tree))).
      { apply in_or_app. right. apply in_map_iff. now exists (q, c). }
      assert (Hneq : q <> names).
      { cbn [map fst app] in Hnd. inversion Hnd as [|? ? Hnotin _]; subst.
        intros ->. apply Hnotin. apply in_or_app. right.
        apply in_map_iff. now exists (names, c). }
      split; intros Hpre.
      - apply Hneq. apply Hfree; [exact Hin|now left|exact Hpre].
      - apply Hneq. symmetry. apply Hfree; [now left|exact Hin|exact Hpre]. }
    destruct (IH tree1 Htrie1) as (tree' & Hfold & Htrie' & Hperm').
    { apply (apart_permutation
               (map fst ((names, JObj inner) :: items) ++ map fst (tokens tree)));
        [|now split].
      cbn [map fst app]. etransitivity; [apply Permutation_middle|].
      apply Permutation_app_head.
      change (names :: map fst (tokens tree))
        with (map fst ((names, JObj inner) :: tokens tree)).
      apply Permutation_map. now apply Permutation_sym. }
    { exact Hrest. }
    exists tree'. cbn [fold_left bind fst snd]. rewrite Hset.
    split; [exact Hfold|]. split; [exact Htrie'|].
    etransitivity; [exact Hperm'|].
    etransitivity; [apply Permutation_app_head; exact Hperm|].
    symmetry. apply Permutation_middle.
Qed.

Lemma growLanguage_placements (lang : Lang) (rows : list Translation.t)
    (acc : outcome json) :
  fold_left (fun acc t => tree <- acc ;; growStep lang tree t) rows acc
  = fold_left (fun acc item =>
                 t <- acc ;; setNestedSegments t (fst item) (snd item))
      (placements lang rows) acc.
Proof.
  revert acc. induction rows as [|t rows IH]; intros acc; [reflexivity|].
  unfold placements. cbn [flat_map fold_left]. rewrite fold_left_app.
  fold (placements lang rows). rewrite IH. f_equal.
  unfold growStep. destruct (translation_value lang t) as [v|].
  - reflexivity.
  - cbn [fold_left]. now destruct acc.
Qed.

(** ** Flattening what the merged builder built *)

Lemma merge_at_app (path : jsstring) (xs ys : list (Lang * (jsstring * json)))
    (start : option FlatRow.t) :
  merge_at path (xs ++ ys) start = merge_at path ys (merge_at path xs start).
Proof. apply fold_left_app. Qed.

Lemma merge_at_miss (path : jsstring) (found : list (Lang * (jsstring * json)))
    (start : option FlatRow.t) :
  (forall o, In o found -> found_path o <> path) ->
  merge_at path found start = start.
Proof.
  revert start. induction found as [|o found IH]; intros start Hmiss;
    [reflexivity|].
  unfold merge_at in *. cbn [fold_left].
  assert (E : str_eqb (fst (snd o)) path = false).
  { apply str_eqb_neq. apply (Hmiss o). now left. }
  rewrite E. apply IH. intros o' Hin. apply Hmiss. now right.
Qed.

Lemma merge_at_hit (path : jsstring) (found : list (Lang * (jsstring * json)))
    (start : option FlatRow.t) (lang : Lang) (child : json) :
  NoDup (map found_path found) -> In (lang, (path, child)) found ->
  merge_at path found start = Some (mergeLeaf lang path child start).
Proof.
  revert start. induction found as [|o found IH]; intros start Hnd Hin;
    [destruct Hin|].
  inversion Hnd as [|? ? Hnotin Hnd']; subst.
  unfold merge_at in *. cbn [fold_left]. destruct Hin as [->|Hin].
  - cbn [fst snd]. rewrite str_eqb_refl.
    apply (merge_at_miss path found). intros o Ho E. apply Hnotin.
    apply in_map_iff. exists o. split; [exact E|exact Ho].
  - assert (E : str_eqb (fst (snd o)) path = false).
    { apply str_eqb_neq. intros E. apply Hnotin. apply in_map_iff.
      exists (lang, (path, child)). split; [symmetry; exact E|exact Hin]. }
    rewrite E. now apply IH.
Qed.

Lemma find_path_some (path : jsstring) (found : list (Lang * (jsstring * json)))
    (o : Lang * (jsstring * json)) :
  find (fun o => str_eqb (found_path o) path) found = Some o ->
  In o found /\ found_path o = path.
Proof.
  intros H. apply find_some in H as [Hin E]. apply str_eqb_eq in E. auto.
Qed.

Lemma find_path_none (path : jsstring) (found : list (Lang * (jsstring * json))) :
  find (fun o => str_eqb (found_path o) path) found = None ->
  forall o, In o found -> found_path o <> path.
Proof.
  intros H o Hin. apply str_eqb_neq. apply (find_none _ _ H o Hin).
Qed.

Lemma merge_at_permutation (path : jsstring)
    (found found' : list (Lang * (jsstring * json))) (start : option FlatRow.t) :
  Permutation found found' -> NoDup (map found_path found) ->
  merge_at path found start = merge_at path found' start.
Proof.
  intros Hperm Hnd.
  assert (Hnd' : NoDup (map found_path found')).
  { eapply Permutation_NoDup; [|exact Hnd]. now apply Permutation_map. }
  destruct (find (fun o => str_eqb (found_path o) path) found) as [o|] eqn:E.
  - apply find_path_some in E as [Hin Hpath].
    destruct o as [lang [p child]]. cbn [found_path fst snd] in Hpath. subst p.
    rewrite (merge_at_hit path found start lang child Hnd Hin).
    rewrite (merge_at_hit path found' start lang child Hnd');
      [reflexivity|].
    eapply Permutation_in; eauto.
  - pose proof (find_path_none _ _ E) as Hmiss.
    rewrite !merge_at_miss; [reflexivity| |exact Hmiss].
    intros o Hin. apply Hmiss. eapply Permutation_in; [|exact Hin].
    now apply Permutation_sym.
Qed.

(** The fields of a merged row. *)
Lemma mergeLeaf_lang_value (lang lang' : Lang) (path : jsstring) (child : json)
    (found : option FlatRow.t) :
  lang_value lang (mergeLeaf lang' path child found)
  = if lang_eqb lang lang' then value_of child
    else match found with
         | Some r => lang_value lang r
         | None => JNull
         end.
Proof.
  unfold mergeLeaf, value_of. cbv zeta.
  destruct (prop child (js "$extensions")) as [ext|];
    [destruct (truthy ext)|];
    destruct found, lang, lang'; reflexivity.
Qed.

Lemma mergeLeaf_token_type (lang : Lang) (path : jsstring) (child : json)
    (found : option FlatRow.t) :
  FlatRow.token_type (mergeLeaf lang path child found)
  = or_else (prop child (js "$type"))
      match found with
      | Some r => FlatRow.token_type r
      | None => JNull
      end.
Proof.
  unfold mergeLeaf. cbv zeta.
  destruct (prop child (js "$extensions")) as [ext|];
    [destruct (truthy ext)|];
    destruct found, lang; reflexivity.
Qed.

Lemma or_else_settled (a : option json) (b : json) :
  b = JNull \/ truthy b = true ->
  or_else a b = JNull \/ truthy (or_else a b) = true.
Proof.
  intros Hb. unfold or_else. destruct a as [v|]; [|exact Hb].
  destruct (truthy v) eqn:E; [now right|exact Hb].
Qed.

Lemma merge_at_settled (path : jsstring)
    (found : list (Lang * (jsstring * json))) (start : option FlatRow.t) :
  (forall r0, start = Some r0 -> settled r0) ->
  forall r, merge_at path found start = Some r -> settled r.
Proof.
  revert start. induction found as [|o found IH]; intros start Hstart r0 H.
  - now apply Hstart.
  - unfold merge_at in *. cbn [fold_left] in H.
    apply (IH _ ) in H; [exact H|].
    destruct (str_eqb (fst (snd o)) path); [|exact Hstart].
    intros r1 E. inversion E. unfold settled.
    rewrite mergeLeaf_token_type. apply or_else_settled.
    destruct start as [r2|]; [now apply Hstart|now left].
Qed.

(** *** Paths and property names *)

Lemma path_from_prefixed (pathPrefix : jsstring) (names : list jsstring) :
  pathPrefix <> [] -> path_from pathPrefix names = join_dot (pathPrefix :: names).
Proof.
  revert pathPrefix. induction names as [|n names IH]; intros p Hp;
    [reflexivity|].
  rewrite path_from_cons.
  assert (Hchild : child_path p n = p ++ dot :: n).
  { unfold child_path. destruct p; [congruence|reflexivity]. }
  rewrite Hchild, IH by (destruct p; [congruence|discriminate]).
  destruct names as [|m names]; cbn [join_dot].
  - destruct p; [congruence|]. reflexivity.
  - destruct p; [congruence|]. cbn [app]. f_equal.
    rewrite <- app_assoc. reflexivity.
Qed.

Lemma path_from_join (names : list jsstring) :
  hd [] names <> [] -> path_from [] names = join_dot names.
Proof.
  destruct names as [|n names]; [reflexivity|]. cbn [hd]. intros Hn.
  rewrite path_from_cons. unfold child_path. cbn [is_empty].
  now apply path_from_prefixed.
Qed.

Lemma language_tokens_map (lang : Lang) (tree : json) :
  language_tokens lang tree
  = map (fun token => (lang, (path_from [] (fst token), snd token))) (tokens tree).
Proof.
  unfold language_tokens. destruct (truthy tree) eqn:E; [reflexivity|].
  destruct tree; try reflexivity; discriminate.
Qed.

Lemma nodup_map_on {A B : Type} (f : A -> B) (l : list A) :
  (forall x y, In x l -> In y l -> f x = f y -> x = y) ->
  NoDup l -> NoDup (map f l).
Proof.
  intros Hinj Hnd. induction Hnd as [|x l Hnotin Hnd IH]; simpl; constructor.
  - intros Hin. apply in_map_iff in Hin as [y [E Hy]].
    assert (y = x) by (apply Hinj; [now right|now left|exact E]).
    now subst.
  - apply IH. intros a b Ha Hb. apply Hinj; now right.
Qed.

(** What a token of a clean tree is. *)
Lemma token_clean (tree : json) (names : list jsstring) (child : json) :
  clean tree -> In (names, child) (tokens tree) ->
  path_from [] names = join_dot names /\
  split_dot (join_dot names) = names /\
  hd [] names <> [] /\
  findable names /\ value_of child <> JNull.
Proof.
  intros Hclean Hin.
  destruct (tokens_of_clean names tree child Hclean Hin)
    as (Hfind & Hgood & [Hobj Hj] & Hnull).
  assert (Hhd : hd [] names <> []).
  { destruct Hfind as [Hne _]. destruct names as [|n names]; [congruence|].
    inversion Hgood as [|? ? [Hn _] _]. exact Hn. }
  split; [now apply path_from_join|].
  split; [|split; [exact Hhd|split; [exact Hfind|]]].
  - apply split_join; [apply Hfind|].
    eapply Forall_impl; [|exact Hgood]. intros n [_ Hn]. exact Hn.
  - unfold value_of. destruct child; try discriminate.
    cbn [js_in prop] in *. unfold map_has in Hj.
    destruct (map_get (js "$value") props) as [v|]; [|discriminate].
    intros ->. now apply Hnull.
Qed.

Lemma language_tokens_clean (lang : Lang) (tree : json)
    (o : Lang * (jsstring * json)) :
  clean tree -> In o (language_tokens lang tree) ->
  exists names child,
    In (names, child) (tokens tree) /\
    o = (lang, (join_dot names, child)) /\
    split_dot (join_dot names) = names /\
    hd [] names <> [] /\
    findable names /\ value_of child <> JNull.
Proof.
  intros Hclean Hin. rewrite language_tokens_map in Hin.
  apply in_map_iff in Hin as [[names child] [<- Hin]]. cbn [fst snd].
  destruct (token_clean tree names child Hclean Hin) as (Hp & H).
  exists names, child. rewrite Hp. auto.
Qed.

Lemma language_tokens_nodup (lang : Lang) (tree : json) :
  clean tree -> NoDup (map found_path (language_tokens lang tree)).
Proof.
  intros Hclean.
  rewrite language_tokens_map, map_map. cbn [found_path fst snd].
  rewrite <- (map_map fst (path_from [])).
  apply nodup_map_on; [|now apply tokens_nodup].
  intros x y Hx Hy E.
  apply in_map_iff in Hx as [[nx cx] [<- Hx]].
  apply in_map_iff in Hy as [[ny cy] [<- Hy]]. cbn [fst] in *.
  destruct (token_clean tree nx cx Hclean Hx) as (Hpx & Hsx & _).
  destruct (token_clean tree ny cy Hclean Hy) as (Hpy & Hsy & _).
  rewrite <- Hsx, <- Hsy. congruence.
Qed.

Lemma merge_at_language (lang : Lang) (tree : json) (path : jsstring)
    (start : option FlatRow.t) :
  NoDup (map found_path (language_tokens lang tree)) ->
  merge_at path (language_tokens lang tree) start
  = merge_one lang path (token_at lang tree path) start.
Proof.
  intros Hnd. unfold token_at.
  destruct (find _ (language_tokens lang tree)) as [o|] eqn:E; cbn [option_map].
  - apply find_path_some in E as [Hin Hpath].
    assert (Hlang : fst o = lang).
    { rewrite language_tokens_map in Hin.
      now apply in_map_iff in Hin as [t [<- _]]. }
    destruct o as [l [p child]]. cbn [found_path fst snd] in *. subst l p.
    now apply merge_at_hit.
  - apply merge_at_miss. now apply find_path_none.
Qed.

Lemma token_at_in (lang : Lang) (tree : json) (path : jsstring) (child : json) :
  token_at lang tree path = Some child ->
  In (lang, (path, child)) (language_tokens lang tree).
Proof.
  unfold token_at.
  destruct (find _ (language_tokens lang tree)) as [o|] eqn:E; [|discriminate].
  apply find_path_some in E as [Hin Hpath]. cbn [option_map].
  intros H. inversion H. subst child.
  assert (Hlang : fst o = lang).
  { rewrite language_tokens_map in Hin.
    now apply in_map_iff in Hin as [t [<- _]]. }
  destruct o as [l [p c]]. cbn [found_path fst snd] in *. now subst.
Qed.

(** The row under a path once the three languages are merged. *)
Lemma merged_values (path : jsstring) (caz cen cru : option json)
    (r : FlatRow.t) :
  merge_one ru path cru (merge_one en path cen (merge_one az path caz None))
  = Some r ->
  lang_value az r = match caz with Some c => value_of c | None => JNull end /\
  lang_value en r = match cen with Some c => value_of c | None => JNull end /\
  lang_value ru r = match cru with Some c => value_of c | None => JNull end.
Proof.
  destruct caz, cen, cru; cbn [merge_one]; intros H; inversion H;
    rewrite ?mergeLeaf_lang_value; cbn [lang_eqb];
    rewrite ?mergeLeaf_lang_value; cbn [lang_eqb];
    rewrite ?mergeLeaf_lang_value; auto.
Qed.

Lemma stored_lang_value (lang : Lang) (t : Translation.t) :
  lang_value lang (stored t) = opt_json (translation_value lang t).
Proof. now destruct lang. Qed.

(** Looking up a stored row. *)
Lemma find_row_stored (rows : list Translation.t) (t : Translation.t) :
  NoDup (map Translation.key_path rows) -> In t rows ->
  find_row (Translation.key_path t) (map stored rows) = Some (stored t).
Proof.
  unfold find_row. induction rows as [|t' rows IH]; [intros _ []|].
  intros Hnd Hin. inversion Hnd as [|? ? Hnotin Hnd']; subst.
  cbn [map find stored FlatRow.key_path].
  destruct Hin as [->|Hin]; [now rewrite str_eqb_refl|].
  destruct (str_eqb (Translation.key_path t') (Translation.key_path t)) eqn:E.
  - apply str_eqb_eq in E. exfalso. apply Hnotin. rewrite E.
    now apply in_map.
  - now apply IH.
Qed.

Lemma find_row_stored_some (rows : list Translation.t) (path : jsstring)
    (r : FlatRow.t) :
  find_row path (map stored rows) = Some r ->
  exists t, In t rows /\ r = stored t /\ Translation.key_path t = path.
Proof.
  unfold find_row. intros H. apply find_some in H as [Hin E].
  apply str_eqb_eq in E. apply in_map_iff in Hin as [t [<- Hin]].
  exists t. auto.
Qed.

Lemma find_row_stored_none (rows : list Translation.t) (path : jsstring) :
  find_row path (map stored rows) = None ->
  forall t, In t rows -> Translation.key_path t <> path.
Proof.
  unfold find_row. intros H t Hin.
  pose proof (find_none _ _ H (stored t) (in_map stored rows t Hin)) as E.
  now apply str_eqb_neq in E.
Qed.

(** *** The tokens the builder emits *)

Lemma nodup_map_same {A B : Type} (f : A -> B) (l : list A) (x y : A) :
  NoDup (map f l) -> In x l -> In y l -> f x = f y -> x = y.
Proof.
  induction l as [|a l IH]; [intros _ []|].
  cbn [map]. intros Hnd Hx Hy E. inversion Hnd as [|? ? Hnotin Hnd']; subst.
  destruct Hx as [->|Hx], Hy as [->|Hy]; auto.
  - exfalso. apply Hnotin. rewrite E. now apply in_map.
  - exfalso. apply Hnotin. rewrite <- E. now apply in_map.
Qed.

Lemma developer_tokens_in (lang : Lang) (rows : list Translation.t)
    (o : Lang * (jsstring * json)) :
  In o (developer_tokens lang rows) <->
  exists t v, In t rows /\ translation_value lang t = Some v /\
              o = (lang, (Translation.key_path t,
                          developerToken v (developerTokenType t))).
Proof.
  unfold developer_tokens. rewrite in_flat_map. split.
  - intros [t [Hin Ho]]. destruct (translation_value lang t) as [v|] eqn:E;
      [|destruct Ho].
    destruct Ho as [<-|[]]. now exists t, v.
  - intros (t & v & Hin & E & ->). exists t. split; [exact Hin|].
    rewrite E. now left.
Qed.

Lemma developer_tokens_nodup (lang : Lang) (rows : list Translation.t) :
  NoDup (map Translation.key_path rows) ->
  NoDup (map found_path (developer_tokens lang rows)).
Proof.
  induction rows as [|t rows IH]; [constructor|].
  cbn [map]. intros Hnd. inversion Hnd as [|? ? Hnotin Hnd']; subst.
  unfold developer_tokens. cbn [flat_map]. fold (developer_tokens lang rows).
  destruct (translation_value lang t) as [v|]; [|now apply IH].
  cbn [app map found_path fst snd]. constructor; [|now apply IH].
  intros Hin. apply in_map_iff in Hin as [o [E Ho]].
  apply developer_tokens_in in Ho as (t' & v' & Hin' & _ & ->).
  cbn [found_path fst snd] in E. apply Hnotin. rewrite <- E. now apply in_map.
Qed.

Lemma merge_at_developer_hit (lang : Lang) (rows : list Translation.t)
    (t : Translation.t) (start : option FlatRow.t) :
  NoDup (map Translation.key_path rows) -> In t rows ->
  merge_at (Translation.key_path t) (developer_tokens lang rows) start
  = match translation_value lang t with
    | Some v => Some (mergeLeaf lang (Translation.key_path t)
                        (developerToken v (developerTokenType t)) start)
    | None => start
    end.
Proof.
  intros Hnd Hin. destruct (translation_value lang t) as [v|] eqn:E.
  - apply merge_at_hit; [now apply developer_tokens_nodup|].
    apply developer_tokens_in. now exists t, v.
  - apply merge_at_miss. intros o Ho Hpath.
    apply developer_tokens_in in Ho as (t' & v' & Hin' & E' & ->).
    cbn [found_path fst snd] in Hpath.
    assert (t' = t) by (eapply nodup_map_same; eauto).
    subst t'. congruence.
Qed.

Lemma merge_at_developer_miss (lang : Lang) (rows : list Translation.t)
    (path : jsstring) (start : option FlatRow.t) :
  (forall t, In t rows -> Translation.key_path t <> path) ->
  merge_at path (developer_tokens lang rows) start = start.
Proof.
  intros Hmiss. apply merge_at_miss. intros o Ho Hpath.
  apply developer_tokens_in in Ho as (t & v & Hin & _ & ->).
  now apply (Hmiss t Hin).
Qed.

(** Merging the developer tokens of a row gives the row back, rebuilt. *)
Lemma remerged_rebuilt (t : Translation.t) :
  (exists lang v, translation_value lang t = Some v) ->
  settled (stored t) ->
  remerged t = Some (rebuilt (stored t)).
Proof.
  destruct t as [i pr kp va ve vu ty fv ok ca ua].
  unfold remerged, settled, stored, rebuilt, developerTokenType.
  cbn [translation_value Translation.key_path Translation.az_value
       Translation.en_value Translation.ru_value Translation.token_type
       Translation.figma_variable_id FlatRow.token_type FlatRow.key_path
       FlatRow.az_value FlatRow.en_value FlatRow.ru_value opt_json].
  intros (lang & v & Hv) Hty.
  assert (Hs : match ty with Some s => s <> [] | None => True end).
  { destruct ty as [[|c s]|]; cbn [opt_json truthy is_empty negb] in *;
      [destruct Hty; discriminate|discriminate|exact I]. }
  clear Hty.
  destruct ty as [s|].
  - cbn [opt_json]. destruct (str_eqb s (js "string")) eqn:Es.
    + apply str_eqb_eq in Es. subst s.
      destruct va, ve, vu; destruct lang; try discriminate; reflexivity.
    + destruct s as [|c s]; [congruence|].
      destruct va, ve, vu; destruct lang; try discriminate; reflexivity.
  - destruct va, ve, vu; destruct lang; try discriminate; reflexivity.
Qed.

Lemma placements_in (lang : Lang) (rows : list Translation.t)
    (item : list jsstring * json) :
  In item (placements lang rows) <->
  exists t v, In t rows /\ translation_value lang t = Some v /\
              item = (split_dot (Translation.key_path t),
                      developerToken v (developerTokenType t)).
Proof.
  unfold placements. rewrite in_flat_map. split.
  - intros [t [Hin Ho]]. destruct (translation_value lang t) as [v|] eqn:E;
      [|destruct Ho].
    destruct Ho as [<-|[]]. now exists t, v.
  - intros (t & v & Hin & E & ->). exists t. split; [exact Hin|].
    rewrite E. now left.
Qed.

Lemma split_dot_injective (a b : jsstring) : split_dot a = split_dot b -> a = b.
Proof. intros E. rewrite <- (join_split a), <- (join_split b). now rewrite E. Qed.

Lemma placements_nodup (lang : Lang) (rows : list Translation.t) :
  NoDup (map Translation.key_path rows) ->
  NoDup (map fst (placements lang rows)).
Proof.
  induction rows as [|t rows IH]; [constructor|].
  cbn [map]. intros Hnd. inversion Hnd as [|? ? Hnotin Hnd']; subst.
  unfold placements. cbn [flat_map]. fold (placements lang rows).
  destruct (translation_value lang t) as [v|]; [|now apply IH].
  cbn [app map fst]. constructor; [|now apply IH].
  intros Hin. apply in_map_iff in Hin as [item [E Hitem]].
  apply placements_in in Hitem as (t' & v' & Hin' & _ & ->).
  cbn [fst] in E. apply split_dot_injective in E.
  apply Hnotin. rewrite <- E. now apply in_map.
Qed.

Lemma placements_found (lang : Lang) (rows : list Translation.t) :
  (forall t v, In t rows -> translation_value lang t = Some v ->
               hd [] (split_dot (Translation.key_path t)) <> []) ->
  map (fun token => (lang, (path_from [] (fst token), snd token)))
    (placements lang rows)
  = developer_tokens lang rows.
Proof.
  induction rows as [|t rows IH]; intros Hhd; [reflexivity|].
  unfold placements, developer_tokens. cbn [flat_map].
  fold (placements lang rows). fold (developer_tokens lang rows).
  rewrite map_app, IH by (intros t' v' Hin; apply Hhd; now right).
  f_equal. destruct (translation_value lang t) as [v|] eqn:E; [|reflexivity].
  cbn [map fst snd].
  rewrite path_from_join by (apply (Hhd t v); [now left|exact E]).
  now rewrite join_split.
Qed.

Lemma keyed_keys (rows : RowMap) :
  keyed rows -> map FlatRow.key_path (map snd rows) = map fst rows.
Proof.
  induction 1 as [|[k r] rows Hk _ IH]; [reflexivity|].
  cbn [map fst snd] in *. now rewrite Hk, IH.
Qed.

(** A row is among those of [flattenJsons] exactly when looking up its key
    path finds it: key paths are not repeated. *)
Lemma flattenJsons_in_rows (azJson enJson ruJson : json) (r : FlatRow.t) :
  In r (FlattenResult.rows (flattenJsons azJson enJson ruJson)) <->
  find_row (FlatRow.key_path r)
    (FlattenResult.rows (flattenJsons azJson enJson ruJson)) = Some r.
Proof.
  rewrite flattenJsons_rows.
  set (R := merge_all (occurrences azJson enJson ruJson) []).
  assert (Hk : keyed R) by (apply merge_all_keyed; constructor).
  assert (Hnd : NoDup (map fst R)) by (apply merge_all_nodup; constructor).
  rewrite (find_row_keyed _ _ Hk). split.
  - intros Hin. apply in_map_iff in Hin as [[k r'] [E Hin]].
    cbn [snd] in E. subst r'.
    pose proof (proj1 (Forall_forall _ _) Hk _ Hin) as Hkey.
    cbn [fst snd] in Hkey. rewrite Hkey. now apply map_get_unique.
  - intros H. apply map_get_in in H. apply in_map_iff.
    now exists (FlatRow.key_path r, r).
Qed.

Section RoundTrip.

Variables azJson enJson ruJson : json.
Hypothesis clean_az : clean azJson.
Hypothesis clean_en : clean enJson.
Hypothesis clean_ru : clean ruJson.

Variable translations : list Translation.t.
Hypothesis translations_stored :
  map stored translations
  = FlattenResult.rows (flattenJsons azJson enJson ruJson).

Let tree_of (lang : Lang) : json :=
  match lang with
  | az => azJson
  | en => enJson
  | ru => ruJson
  end.

Lemma tree_of_clean (lang : Lang) : clean (tree_of lang).
Proof. destruct lang; assumption. Qed.

Lemma original_row (path : jsstring) :
  find_row path (map stored translations)
  = merge_one ru path (token_at ru ruJson path)
      (merge_one en path (token_at en enJson path)
         (merge_one az path (token_at az azJson path) None)).
Proof.
  rewrite translations_stored, flattenJsons_find_row. unfold occurrences.
  rewrite !merge_at_app.
  now rewrite !merge_at_language by (apply language_tokens_nodup; assumption).
Qed.

Lemma key_paths_nodup : NoDup (map Translation.key_path translations).
Proof.
  assert (E : map Translation.key_path translations
              = map FlatRow.key_path (map stored translations)).
  { rewrite map_map. reflexivity. }
  rewrite E, translations_stored, flattenJsons_rows.
  rewrite keyed_keys by (apply merge_all_keyed; constructor).
  apply merge_all_nodup. constructor.
Qed.

Lemma stored_found (t : Translation.t) :
  In t translations ->
  find_row (Translation.key_path t) (map stored translations) = Some (stored t).
Proof. apply find_row_stored, key_paths_nodup. Qed.

Lemma stored_settled (t : Translation.t) :
  In t translations -> settled (stored t).
Proof.
  intros Hin. pose proof (stored_found t Hin) as H.
  rewrite translations_stored, flattenJsons_find_row in H.
  apply (merge_at_settled _ _ None) in H; [exact H|discriminate].
Qed.

(** The value of a row in a language is the value of the token of that
    language at its path. *)
Lemma token_value (t : Translation.t) (lang : Lang) :
  In t translations ->
  match token_at lang (tree_of lang) (Translation.key_path t) with
  | Some c => exists v, translation_value lang t = Some v /\ value_of c = JStr v
  | None => translation_value lang t = None
  end.
Proof.
  intros Hin. pose proof (stored_found t Hin) as H.
  rewrite original_row in H.
  apply merged_values in H as (Haz & Hen & Hru).
  rewrite !stored_lang_value in *.
  assert (Hgen : forall c,
             token_at lang (tree_of lang) (Translation.key_path t) = Some c ->
             opt_json (translation_value lang t) = value_of c ->
             exists v, translation_value lang t = Some v /\ value_of c = JStr v).
  { intros c Hc E. apply token_at_in in Hc.
    destruct (language_tokens_clean lang _ _ (tree_of_clean lang) Hc)
      as (names & child & _ & Eo & _ & _ & _ & Hnull).
    inversion Eo; subst child.
    destruct (translation_value lang t) as [v|]; cbn [opt_json] in E.
    - exists v. auto.
    - congruence. }
  destruct lang; cbn [tree_of] in *.
  - destruct (token_at az azJson _) as [c|] eqn:Ec; [now apply Hgen|].
    now destruct (translation_value az t).
  - destruct (token_at en enJson _) as [c|] eqn:Ec; [now apply Hgen|].
    now destruct (translation_value en t).
  - destruct (token_at ru ruJson _) as [c|] eqn:Ec; [now apply Hgen|].
    now destruct (translation_value ru t).
Qed.

Lemma some_value (t : Translation.t) :
  In t translations -> exists lang v, translation_value lang t = Some v.
Proof.
  intros Hin. pose proof (stored_found t Hin) as H.
  rewrite original_row in H.
  pose proof (token_value t az Hin) as Haz.
  pose proof (token_value t en Hin) as Hen.
  pose proof (token_value t ru Hin) as Hru.
  cbn [tree_of] in *.
  destruct (token_at az azJson _); [destruct Haz as [v [Hv _]]; eauto|].
  destruct (token_at en enJson _); [destruct Hen as [v [Hv _]]; eauto|].
  destruct (token_at ru ruJson _); [destruct Hru as [v [Hv _]]; eauto|].
  discriminate.
Qed.

(** A placed path is the path of a token of the tree it came from. *)
Lemma placed_names (t : Translation.t) (lang : Lang) (v : jsstring) :
  In t translations -> translation_value lang t = Some v ->
  hd [] (split_dot (Translation.key_path t)) <> [] /\
  exists child,
    In (split_dot (Translation.key_path t), child) (tokens (tree_of lang)).
Proof.
  intros Hin Hv. pose proof (token_value t lang Hin) as H.
  destruct (token_at lang (tree_of lang) _) as [c|] eqn:Ec; [|congruence].
  apply token_at_in in Ec.
  destruct (language_tokens_clean lang _ _ (tree_of_clean lang) Ec)
    as (names & child & Htok & Eo & Hs & Hhd & _).
  inversion Eo as [[Ep Echild]]. rewrite Ep, Hs. split; [exact Hhd|].
  now exists child.
Qed.

(** The subtree of a language grows without an error, and its tokens are
    the developer tokens of the rows. *)
Lemma grown (lang : Lang) :
  exists tree,
    growLanguage lang (JObj []) translations = Ok tree /\
    Permutation (language_tokens lang tree) (developer_tokens lang translations).
Proof.
  destruct (place_all (placements lang translations) (JObj []) trie_empty)
    as (tree & Hfold & Htrie & Hperm).
  - cbn [tokens map]. rewrite app_nil_r. split.
    + apply placements_nodup, key_paths_nodup.
    + intros a b Ha Hb Hpre.
      assert (Hin : forall x, In x (map fst (placements lang translations)) ->
                              exists c, In (x, c) (tokens (tree_of lang))).
      { intros x Hx. apply in_map_iff in Hx as [item [<- Hitem]].
        apply placements_in in Hitem as (t & v & Hin & Hv & ->).
        apply (placed_names t lang v Hin Hv). }
      destruct (Hin a Ha) as [ca Hca]. destruct (Hin b Hb) as [cb Hcb].
      apply (tokens_prefix_free a (tree_of lang) b ca cb);
        auto using tree_of_clean.
  - apply Forall_forall. intros item Hitem.
    apply placements_in in Hitem as (t & v & Hin & Hv & ->). cbn [fst snd].
    split.
    + destruct (placed_names t lang v Hin Hv) as [_ [child Hchild]].
      apply (tokens_of_clean _ _ _ (tree_of_clean lang) Hchild).
    + eexists. split; reflexivity.
  - exists tree. split.
    + unfold growLanguage. rewrite growLanguage_placements. exact Hfold.
    + rewrite language_tokens_map.
      rewrite <- (placements_found lang translations).
      * apply Permutation_map. now rewrite app_nil_r in Hperm.
      * intros t v Hin Hv. apply (placed_names t lang v Hin Hv).
Qed.

(** C3, as the code has it. For trees whose property names are free of
    dots and not empty and whose tokens have no [null] value, and for the
    stored rows of their flattening: the merged builder returns the three
    language subtrees, and flattening these gives, key path by key path,
    the rows flattened at first, each with the type ["string"] turned into
    ["text"] and with its Figma variable id, which the merged shape does not
    carry, reset to [null]. *)
Theorem flatten_build_flatten :
  exists azTree enTree ruTree,
    buildDeveloperJson translations = Ok (developerRoot azTree enTree ruTree) /\
    (forall path,
        find_row path (FlattenResult.rows (flattenJsons azTree enTree ruTree))
        = option_map rebuilt
            (find_row path
               (FlattenResult.rows (flattenJsons azJson enJson ruJson)))) /\
    (forall row,
        In row (FlattenResult.rows (flattenJsons azTree enTree ruTree)) <->
        exists original,
          In original (FlattenResult.rows (flattenJsons azJson enJson ruJson)) /\
          row = rebuilt original).
Proof.
  destruct (grown az) as (azTree & Haz & Paz).
  destruct (grown en) as (enTree & Hen & Pen).
  destruct (grown ru) as (ruTree & Hru & Pru).
  exists azTree, enTree, ruTree.
  assert (Hpaths : forall path,
             find_row path (FlattenResult.rows (flattenJsons azTree enTree ruTree))
             = option_map rebuilt
                 (find_row path
                    (FlattenResult.rows (flattenJsons azJson enJson ruJson)))).
  { intros path. rewrite flattenJsons_find_row. unfold occurrences.
    rewrite !merge_at_app.
    pose proof key_paths_nodup as Hnd.
    rewrite <- (merge_at_permutation path _ _ _ (Permutation_sym Paz)
                  (developer_tokens_nodup az _ Hnd)).
    rewrite <- (merge_at_permutation path _ _ _ (Permutation_sym Pen)
                  (developer_tokens_nodup en _ Hnd)).
    rewrite <- (merge_at_permutation path _ _ _ (Permutation_sym Pru)
                  (developer_tokens_nodup ru _ Hnd)).
    rewrite <- translations_stored.
    destruct (find_row path (map stored translations)) as [r|] eqn:E.
    - apply find_row_stored_some in E as (t & Hin & -> & <-).
      rewrite !merge_at_developer_hit by assumption.
      cbn [option_map].
      apply (remerged_rebuilt t (some_value t Hin) (stored_settled t Hin)).
    - pose proof (find_row_stored_none _ _ E) as Hmiss.
      now rewrite !merge_at_developer_miss. }
  split; [|split; [exact Hpaths|]].
  - now rewrite buildDeveloperJson_languages, Haz, Hen, Hru.
  - intros row. rewrite flattenJsons_in_rows, Hpaths. split.
    + destruct (find_row (FlatRow.key_path row) _) as [original|] eqn:E;
        [|discriminate].
      cbn [option_map]. intros H. inversion H.
      exists original. split; [|reflexivity].
      apply flattenJsons_in_rows.
      apply find_some in E as [Hin Hk]. apply str_eqb_eq in Hk.
      apply flattenJsons_in_rows in Hin. congruence.
    + intros (original & Hin & ->).
      apply flattenJsons_in_rows in Hin.
      cbn [rebuilt FlatRow.key_path]. now rewrite Hin.
Qed.

End RoundTrip.

(** *** The round trip on examples *)

Ltac clean_entries Hin tac :=
  repeat (destruct Hin as [Hin|Hin]; [inversion Hin; subst; tac|]);
  destruct Hin.

Ltac clean_tree :=
  let Hin := fresh "Hin" in
  let Hj := fresh "Hj" in
  constructor;
  [ repeat constructor; simpl; intuition discriminate
  | simpl; intros ? ? Hin _;
    clean_entries Hin ltac:(split; [discriminate|split; [reflexivity|discriminate]])
  | simpl; intros ? ? Hin _ _;
    clean_entries Hin ltac:(simpl; discriminate)
  | simpl; intros ? ? Hin _ Hj;
    clean_entries Hin
      ltac:(first [vm_compute in Hj; discriminate Hj|clean_tree]) ].

Lemma clean_example_az :
  clean (JObj [(js "theme",
                JObj [(js "title",
                       JObj [(js "$value", JStr (js "Salam"));
                             (js "$type", JStr (js "string"))])])]).
Proof. clean_tree. Qed.

Lemma clean_example_en :
  clean (JObj [(js "theme",
                JObj [(js "title", figmaToken (js "Hello") (js "V1"))])]).
Proof. clean_tree. Qed.

Lemma clean_null : clean JNull.
Proof. clean_tree. Qed.

Lemma flatten_build_flatten_witness :
  exists azTree enTree ruTree,
    buildDeveloperJson
      [Translation.mk [] [] (js "theme.title") (Some (js "Salam"))
         (Some (js "Hello")) None (Some (js "string")) (Some (js "V1")) None [] []]
    = Ok (developerRoot azTree enTree ruTree) /\
    (forall path,
        find_row path (FlattenResult.rows (flattenJsons azTree enTree ruTree))
        = option_map rebuilt
            (find_row path
               (FlattenResult.rows
                  (flattenJsons
                     (JObj [(js "theme",
                             JObj [(js "title",
                                    JObj [(js "$value", JStr (js "Salam"));
                                          (js "$type", JStr (js "string"))])])])
                     (JObj [(js "theme",
                             JObj [(js "title",
                                    figmaToken (js "Hello") (js "V1"))])])
                     JNull)))) /\
    (forall row,
        In row (FlattenResult.rows (flattenJsons azTree enTree ruTree)) <->
        exists original,
          In original
            (FlattenResult.rows
               (flattenJsons
                  (JObj [(js "theme",
                          JObj [(js "title",
                                 JObj [(js "$value", JStr (js "Salam"));
                                       (js "$type", JStr (js "string"))])])])
                  (JObj [(js "theme",
                          JObj [(js "title",
                                 figmaToken (js "Hello") (js "V1"))])])
                  JNull)) /\
          row = rebuilt original).
Proof.
  apply (flatten_build_flatten _ _ _ clean_example_az clean_example_en clean_null).
  reflexivity.
Defined.

(** C3 fails as stated: with the property names a and a.b in the az tree,
    the first token carrying a Figma variable id, the rows a and a.b are
    flattened; the builder nests the second inside the token of the first,
    so that the row a.b does not come back at all, and the row a comes back
    without its variable id, for which the merged shape has no place. *)
Lemma round_trip_loses_row_and_variable_id :
  FlattenResult.rows
    (flattenJsons
       (JObj [(js "a", figmaToken (js "X") (js "V1"));
              (js "a.b", JObj [(js "$value", JStr (js "y"))])])
       JNull JNull)
  = map stored
      [Translation.mk [] [] (js "a") (Some (js "X")) None None None
         (Some (js "V1")) None [] [];
       plain_row (js "a.b") (Some (js "y")) None None None] /\
  exists rows',
    reflattened
      [Translation.mk [] [] (js "a") (Some (js "X")) None None None
         (Some (js "V1")) None [] [];
       plain_row (js "a.b") (Some (js "y")) None None None] = Some rows' /\
    find_row (js "a.b") rows' = None /\
    find_row (js "a.b") rows'
    <> option_map retyped
         (find_row (js "a.b")
            (FlattenResult.rows
               (flattenJsons
                  (JObj [(js "a", figmaToken (js "X") (js "V1"));
                         (js "a.b", JObj [(js "$value", JStr (js "y"))])])
                  JNull JNull))) /\
    find_row (js "a") rows'
    <> option_map retyped
         (find_row (js "a")
            (FlattenResult.rows
               (flattenJsons
                  (JObj [(js "a", figmaToken (js "X") (js "V1"));
                         (js "a.b", JObj [(js "$value", JStr (js "y"))])])
                  JNull JNull))).
Proof.
  split; [reflexivity|]. eexists. split; [reflexivity|].
  split; [reflexivity|]. split; discriminate.
Qed.

(** Why no token may have a [null] value: its row is left out by the
    builder and does not come back. *)
Lemma round_trip_null_value :
  map FlatRow.key_path
    (FlattenResult.rows
       (flattenJsons (JObj [(js "a", JObj [(js "$value", JNull)])]) JNull JNull))
  = [js "a"] /\
  reflattened [plain_row (js "a") None None None None] = Some [].
Proof. split; reflexivity. Qed.

(** Why no property name may be empty: the name [""] above a gives the
    path ["a"], and the name [".a"] comes back as ["a"]. *)
Lemma round_trip_empty_name :
  map FlatRow.key_path
    (FlattenResult.rows
       (flattenJsons (JObj [(js ".a", JObj [(js "$value", JStr (js "x"))])])
          JNull JNull))
  = [js ".a"] /\
  option_map (map FlatRow.key_path)
    (reflattened [plain_row (js ".a") (Some (js "x")) None None None])
  = Some [js "a"].
Proof. split; reflexivity. Qed.

(** ** More on the sanitizer and the linter *)

Section SanitizerMore.

Variable toLowerCase : jsstring -> jsstring.

Lemma optimized_not_forbidden (key : jsstring) :
  forbidden (optimized_key toLowerCase key) = false.
Proof.
  destruct (optimizeKey_cases toLowerCase key)
    as [[_ ->]|[(_ & _ & ->)|[(_ & _ & _ & ->)|(_ & _ & F & ->)]]].
  - exact (underscore_not_forbidden [102; 105; 120]%N []).
  - exact (underscore_not_forbidden [102; 105; 120]%N (cleanup toLowerCase key)).
  - exact (underscore_not_forbidden [99; 111; 109; 109; 111; 110]%N
             ([102; 105; 120; 95]%N ++ cleanup toLowerCase key)).
  - exact F.
Qed.

Lemma wasChanged_false (key : jsstring) :
  OptimizeResult.wasChanged (optimizeKey toLowerCase key) = false
  <-> optimized_key toLowerCase key = key.
Proof.
  unfold optimized_key, optimizeKey. cbv zeta.
  cbn [OptimizeResult.wasChanged OptimizeResult.optimized].
  rewrite negb_false_iff, str_eqb_eq. split; congruence.
Qed.

Lemma key_shaped_start (s : jsstring) :
  key_shaped s = true -> s <> [] /\ starts_with_digit s = false.
Proof.
  destruct s as [|c s]; [discriminate|]. cbn [key_shaped starts_with_digit].
  intros H. apply andb_true_iff in H as [Hc _]. split; [discriminate|].
  unfold is_lower in Hc. unfold is_digit.
  apply andb_true_iff in Hc as [H1 H2]. apply N.leb_le in H1.
  apply andb_false_iff. right. apply N.leb_gt. lia.
Qed.

Lemma key_shaped_dot_free (s : jsstring) :
  key_shaped s = true -> dot_free s = true.
Proof.
  destruct s as [|c r]; [discriminate|].
  cbn [key_shaped]. intros H. apply andb_true_iff in H as [Hc Hr].
  apply key_chars_dot_free. cbn [forallb]. rewrite Hr, andb_true_r.
  unfold is_key_char. now rewrite Hc.
Qed.

(** X1. Whatever the input, the sanitized key is none of the reserved
    words. *)
Theorem optimizeKey_never_reserved (key : jsstring) :
  forbidden (optimized_key toLowerCase key) = false.
Proof. apply optimized_not_forbidden. Qed.

Hypothesis lower_fixes : fixes_key_chars toLowerCase.

Lemma optimized_fix_ : optimized_key toLowerCase (js "fix_") = js "fix".
Proof.
  unfold optimized_key, optimizeKey, cleanup.
  rewrite (lower_fixes (js "fix_")) by reflexivity. reflexivity.
Qed.

Lemma optimized_fix : optimized_key toLowerCase (js "fix") = js "fix".
Proof.
  unfold optimized_key, optimizeKey, cleanup.
  rewrite (lower_fixes (js "fix")) by reflexivity. reflexivity.
Qed.

Lemma optimized_unchanged_tidy (key : jsstring) :
  optimized_key toLowerCase key = key -> tidy key.
Proof.
  intros E. destruct (cleanup toLowerCase key) as [|c r] eqn:Ec.
  - pose proof (optimizeKey_of_nothing toLowerCase key Ec) as H.
    rewrite E in H. subst key.
    exfalso. revert Ec. unfold cleanup.
    rewrite (lower_fixes (js "fix_")) by reflexivity. discriminate.
  - assert (Hne : cleanup toLowerCase key <> []) by congruence.
    destruct (optimizeKey_settled toLowerCase key Hne) as (Ht & _).
    now rewrite E in Ht.
Qed.

(** X2. The keys the sanitizer leaves alone are exactly those that match
    [^[a-z][a-z0-9_]*$], have no two underscores in a row and none at the
    end, and are not reserved. *)
Theorem optimizeKey_unchanged_iff (key : jsstring) :
  OptimizeResult.wasChanged (optimizeKey toLowerCase key) = false
  <-> key_shaped key = true /\ tidy key /\ forbidden key = false.
Proof.
  rewrite wasChanged_false. split.
  - intros E. split; [|split].
    + rewrite <- E. apply optimizeKey_key_shaped.
    + now apply optimized_unchanged_tidy.
    + rewrite <- E. apply optimized_not_forbidden.
  - intros (Hshape & Ht & Hf).
    destruct (key_shaped_start key Hshape) as [Hne Hd].
    now apply optimizeKey_fixed.
Qed.

(** X3. Sanitizing settles after two passes at most: a third pass gives
    what the second gave, for every input. *)
Theorem optimizeKey_settles (key : jsstring) :
  optimized_key toLowerCase
    (optimized_key toLowerCase (optimized_key toLowerCase key))
  = optimized_key toLowerCase (optimized_key toLowerCase key).
Proof.
  destruct (cleanup toLowerCase key) as [|c r] eqn:Ec.
  - rewrite (optimizeKey_of_nothing toLowerCase key Ec).
    now rewrite optimized_fix_, optimized_fix.
  - assert (Hne : cleanup toLowerCase key <> []) by congruence.
    destruct (optimizeKey_settled toLowerCase key Hne) as (Ht & Hn & Hd & Hf).
    now rewrite !(optimizeKey_fixed toLowerCase _ lower_fixes Ht Hn Hd Hf).
Qed.

(** What an issue is made of. *)
Lemma analyzeKeyIssues_some (keyPath : jsstring) (issue : KeyIssue.t) :
  analyzeKeyIssues toLowerCase keyPath = Some issue ->
  let lastSegment := last (split_dot keyPath) [] in
  optimized_key toLowerCase lastSegment <> lastSegment /\
  issue = KeyIssue.mk lastSegment (optimized_key toLowerCase lastSegment)
            (join_dot (removelast (split_dot keyPath)
                       ++ [optimized_key toLowerCase lastSegment])) /\
  split_dot (KeyIssue.keyPath issue)
  = removelast (split_dot keyPath) ++ [optimized_key toLowerCase lastSegment].
Proof.
  intros H lastSegment. unfold analyzeKeyIssues in H. cbv zeta in H.
  fold lastSegment in H.
  destruct (OptimizeResult.wasChanged (optimizeKey toLowerCase lastSegment)) eqn:E;
    [|discriminate].
  cbn [negb] in H. inversion H; subst issue; clear H.
  fold (optimized_key toLowerCase lastSegment).
  split; [|split; [reflexivity|]].
  - intros Heq. apply wasChanged_false in Heq. congruence.
  - cbn [KeyIssue.keyPath]. apply split_join.
    + destruct (removelast (split_dot keyPath)); discriminate.
    + apply Forall_app. split.
      * pose proof (split_dot_dot_free keyPath) as Hall.
        induction (split_dot keyPath) as [|seg segs IH]; [constructor|].
        inversion Hall; subst. simpl. destruct segs; [constructor|].
        constructor; auto.
      * constructor; [|constructor].
        apply key_shaped_dot_free, optimizeKey_key_shaped.
Qed.

Lemma analyzeKeyIssues_none (keyPath : jsstring) :
  optimized_key toLowerCase (last (split_dot keyPath) [])
  = last (split_dot keyPath) [] ->
  analyzeKeyIssues toLowerCase keyPath = None.
Proof.
  intros E. apply wasChanged_false in E.
  unfold analyzeKeyIssues. cbv zeta. now rewrite E.
Qed.

(** Once the suggestion is taken there is nothing left to fix, when the
    last segment does not sanitize to nothing. *)
Lemma analyzeKeyIssues_fixed (keyPath : jsstring) (issue : KeyIssue.t) :
  analyzeKeyIssues toLowerCase keyPath = Some issue ->
  cleanup toLowerCase (last (split_dot keyPath) []) <> [] ->
  analyzeKeyIssues toLowerCase (KeyIssue.keyPath issue) = None.
Proof.
  intros H Hc. destruct (analyzeKeyIssues_some keyPath issue H) as (_ & _ & Es).
  cbv zeta in Es. apply analyzeKeyIssues_none. rewrite Es, last_last.
  destruct (optimizeKey_settled toLowerCase _ Hc) as (Ht & Hn & Hd & Hf).
  now apply optimizeKey_fixed.
Qed.

(** X4. The key path an issue suggests differs from the one analysed, and
    analysing it in turn finds nothing to fix; unless the last segment
    sanitizes to nothing, when ["fix_"] is suggested first and ["fix"]
    next, and then nothing. *)
Theorem analyzeKeyIssues_suggestion (keyPath : jsstring) (issue : KeyIssue.t) :
  analyzeKeyIssues toLowerCase keyPath = Some issue ->
  KeyIssue.keyPath issue <> keyPath /\
  (cleanup toLowerCase (last (split_dot keyPath) []) <> [] ->
   analyzeKeyIssues toLowerCase (KeyIssue.keyPath issue) = None) /\
  (cleanup toLowerCase (last (split_dot keyPath) []) = [] ->
   exists issue',
     analyzeKeyIssues toLowerCase (KeyIssue.keyPath issue) = Some issue' /\
     KeyIssue.suggested issue = js "fix_" /\
     KeyIssue.suggested issue' = js "fix" /\
     analyzeKeyIssues toLowerCase (KeyIssue.keyPath issue') = None).
Proof.
  intros H. destruct (analyzeKeyIssues_some keyPath issue H) as (Hne & Ei & Es).
  cbv zeta in *. set (lastSegment := last (split_dot keyPath) []) in *.
  set (suggested := optimized_key toLowerCase lastSegment) in *.
  assert (Hlast : last (split_dot (KeyIssue.keyPath issue)) [] = suggested).
  { rewrite Es. apply last_last. }
  split; [|split].
  - intros E. rewrite E in Es.
    rewrite (app_removelast_last [] (split_dot_nonempty keyPath)) in Es at 1.
    apply app_inv_head in Es. inversion Es. now apply Hne.
  - now apply analyzeKeyIssues_fixed.
  - intros Hc.
    pose proof (optimizeKey_of_nothing toLowerCase lastSegment Hc) as Hfix.
    fold suggested in Hfix.
    destruct (analyzeKeyIssues toLowerCase (KeyIssue.keyPath issue))
      as [issue'|] eqn:E'.
    + exists issue'. split; [reflexivity|].
      destruct (analyzeKeyIssues_some _ issue' E') as (_ & Ei' & Es').
      cbv zeta in *. rewrite Hlast, Hfix, optimized_fix_ in Ei', Es'.
      split; [now subst issue|]. split; [now subst issue'|].
      apply analyzeKeyIssues_none. rewrite Es', last_last.
      apply optimized_fix.
    + exfalso. unfold analyzeKeyIssues in E'. cbv zeta in E'.
      rewrite Hlast in E'.
      destruct (OptimizeResult.wasChanged (optimizeKey toLowerCase suggested)) eqn:Ew;
        [discriminate|].
      apply wasChanged_false in Ew. rewrite Hfix, optimized_fix_ in Ew.
      discriminate.
Qed.

End SanitizerMore.

Lemma optimizeKey_unchanged_iff_witness :
  OptimizeResult.wasChanged (optimizeKey ascii_toLowerCase (js "page_title_2"))
  = false.
Proof.
  apply (optimizeKey_unchanged_iff ascii_toLowerCase
           ascii_toLowerCase_fixes_key_chars (js "page_title_2")).
  split; [reflexivity|]. split; [|reflexivity].
  split; [|split; [|split]]; reflexivity.
Defined.

Lemma optimizeKey_settles_witness :
  optimized_key ascii_toLowerCase
    (optimized_key ascii_toLowerCase (optimized_key ascii_toLowerCase (js "?!")))
  = optimized_key ascii_toLowerCase (optimized_key ascii_toLowerCase (js "?!")).
Proof.
  exact (optimizeKey_settles ascii_toLowerCase ascii_toLowerCase_fixes_key_chars
           (js "?!")).
Defined.

Lemma analyzeKeyIssues_suggestion_witness :
  KeyIssue.keyPath
    (KeyIssue.mk (js "Save Button") (js "save_button") (js "home.save_button"))
  <> js "home.Save Button" /\
  analyzeKeyIssues ascii_toLowerCase (js "home.save_button") = None.
Proof.
  destruct (analyzeKeyIssues_suggestion ascii_toLowerCase
              ascii_toLowerCase_fixes_key_chars (js "home.Save Button")
              (KeyIssue.mk (js "Save Button") (js "save_button")
                 (js "home.save_button")) eq_refl) as (H1 & H2 & _).
  split; [exact H1|]. apply H2. vm_compute. discriminate.
Defined.

(** ** A row of the table *)

Lemma join_dot_snoc (segments : list jsstring) (seg : jsstring) :
  segments <> [] ->
  join_dot (segments ++ [seg]) = join_dot segments ++ dot :: seg.
Proof.
  induction segments as [|s segments IH]; [congruence|]. intros _.
  destruct segments as [|s' segments]; [reflexivity|].
  change ((s :: s' :: segments) ++ [seg]) with (s :: ((s' :: segments) ++ [seg])).
  rewrite join_dot_cons by discriminate.
  rewrite IH by discriminate.
  rewrite (join_dot_cons s (s' :: segments)) by discriminate.
  now rewrite <- app_assoc.
Qed.

Lemma last_dot_free (s : jsstring) : dot_free (last (split_dot s) []) = true.
Proof.
  pose proof (split_dot_dot_free s) as Hall.
  pose proof (split_dot_nonempty s) as Hne.
  induction (split_dot s) as [|seg segs IH]; [congruence|].
  inversion Hall; subst. destruct segs as [|seg' segs]; [assumption|].
  apply IH; [assumption|discriminate].
Qed.

(** X5. What a row shows for its key path, the grey prefix followed by
    the last segment, is the key path itself; the last segment holds no
    dot, and the prefix is empty exactly when the key path has none. *)
Theorem TableRow_shows_key_path (translation : Translation.t) :
  TableRow.prefix translation ++ TableRow.lastSegment translation
  = Translation.key_path translation /\
  dot_free (TableRow.lastSegment translation) = true /\
  (TableRow.prefix translation = []
   <-> dot_free (Translation.key_path translation) = true).
Proof.
  unfold TableRow.prefix, TableRow.lastSegment, TableRow.keySegments.
  set (path := Translation.key_path translation).
  pose proof (split_dot_nonempty path) as Hne.
  pose proof (join_split path) as Hjoin.
  pose proof (last_dot_free path) as Hlast.
  rewrite (app_removelast_last [] Hne) in Hjoin.
  split; [|split; [exact Hlast|]].
  - destruct (split_dot path) as [|seg [|seg' segs]] eqn:E; [congruence| |].
    + cbn [List.length Nat.ltb Nat.leb]. exact Hjoin.
    + cbn [List.length Nat.ltb Nat.leb].
      rewrite join_dot_snoc in Hjoin by discriminate.
      rewrite <- app_assoc. exact Hjoin.
  - destruct (split_dot path) as [|seg [|seg' segs]] eqn:E; [congruence| |].
    + cbn [List.length Nat.ltb Nat.leb]. split; [intros _|reflexivity].
      cbn [removelast app join_dot last] in Hjoin, Hlast. now rewrite <- Hjoin.
    + cbn [List.length Nat.ltb Nat.leb]. split.
      * intros H. apply app_eq_nil in H as [_ H]. discriminate.
      * intros H. apply split_dot_single in H. rewrite E in H. discriminate.
Qed.

Lemma last_cons_default {A : Type} (x d : A) (l : list A) :
  last (x :: l) d = last l x.
Proof.
  revert x d. induction l as [|y l IH]; intros x d; [reflexivity|].
  change (last (x :: y :: l) d) with (last (y :: l) d).
  rewrite IH. symmetry. apply IH.
Qed.

(** X6. However often a row is given a new key path, by editing or by
    accepting a suggestion, its [original_key] stays what the first
    renaming recorded: the original key it had, or else the key path it
    had before; a row that has neither records the first key path that is
    not empty. *)
Theorem renamed_keeps_original_key (translation : Translation.t)
    (newKeyPath : jsstring) (later : list jsstring) :
  or_string (Translation.original_key translation)
    (Translation.key_path translation) <> [] ->
  Translation.original_key
    (fold_left TableRow.renamed later (TableRow.renamed translation newKeyPath))
  = Some (or_string (Translation.original_key translation)
            (Translation.key_path translation)) /\
  Translation.key_path
    (fold_left TableRow.renamed later (TableRow.renamed translation newKeyPath))
  = last later newKeyPath.
Proof.
  intros Hne.
  set (kept := or_string (Translation.original_key translation)
                 (Translation.key_path translation)) in *.
  assert (Hfirst : Translation.original_key (TableRow.renamed translation newKeyPath)
                   = Some kept) by reflexivity.
  assert (Hkey : Translation.key_path (TableRow.renamed translation newKeyPath)
                 = newKeyPath) by reflexivity.
  revert Hfirst Hkey.
  generalize (TableRow.renamed translation newKeyPath) as row.
  revert newKeyPath.
  induction later as [|k later IH]; intros newKeyPath row Hrow Hkey.
  - split; assumption.
  - cbn [fold_left].
    destruct (IH k (TableRow.renamed row k)) as [H1 H2].
    + cbn [TableRow.renamed Translation.original_key]. rewrite Hrow.
      cbn [or_string]. destruct kept; [congruence|reflexivity].
    + reflexivity.
    + split; [exact H1|]. rewrite H2. symmetry. apply last_cons_default.
Qed.

Lemma renamed_keeps_original_key_witness :
  Translation.original_key
    (fold_left TableRow.renamed [js "home.heading"]
       (TableRow.renamed (plain_row (js "home.Title") None None None None)
          (js "home.title")))
  = Some (js "home.Title") /\
  Translation.key_path
    (fold_left TableRow.renamed [js "home.heading"]
       (TableRow.renamed (plain_row (js "home.Title") None None None None)
          (js "home.title")))
  = js "home.heading".
Proof.
  apply (renamed_keeps_original_key
           (plain_row (js "home.Title") None None None None)
           (js "home.title") [js "home.heading"]).
  discriminate.
Defined.

Lemma or_string_or_null (s : jsstring) : or_string (or_null s) [] = s.
Proof. destruct s; reflexivity. Qed.

(** X7. [saveEdit] hands a row on only when the request succeeded and
    the text differs from what the cell showed; the row is then another
    one than before, opening the cell again shows the text as typed, and a
    value that was not the empty string is not turned into it: a cleared
    cell holds [null]. *)
Theorem saveEdit_reads_back (translation updated : Translation.t)
    (field : TableRow.EditableField) (editValue : jsstring) (error : bool) :
  TableRow.saveEdit translation (Some field) editValue error = Some updated ->
  error = false /\
  TableRow.field_text updated field = editValue /\
  updated <> translation /\
  (forall lang,
      translation_value lang translation <> Some [] ->
      translation_value lang updated <> Some []).
Proof.
  unfold TableRow.saveEdit. cbv zeta.
  destruct (str_eqb editValue (TableRow.field_text translation field)) eqn:E;
    [discriminate|].
  apply str_eqb_neq in E. destruct error; [discriminate|].
  intros H. split; [reflexivity|].
  assert (Hnull : or_null editValue <> Some [])
    by (unfold or_null; destruct editValue; discriminate).
  assert (Hback : TableRow.field_text updated field = editValue).
  { destruct field; inversion H; subst updated;
      cbn [TableRow.field_text TableRow.revalued TableRow.renamed
           Translation.key_path Translation.az_value Translation.en_value
           Translation.ru_value];
      auto using or_string_or_null. }
  split; [exact Hback|]. split.
  - intros Heq. apply E. now rewrite <- Heq.
  - intros lang Hlang.
    destruct field; inversion H; subst updated; destruct lang;
      cbn [translation_value TableRow.revalued TableRow.renamed
           Translation.az_value Translation.en_value Translation.ru_value];
      assumption.
Qed.

Lemma saveEdit_reads_back_witness :
  TableRow.field_text
    (TableRow.revalued (plain_row (js "a") None (Some (js "Hello")) None None)
       en [])
    TableRow.en_value
  = [].
Proof.
  apply (saveEdit_reads_back
           (plain_row (js "a") None (Some (js "Hello")) None None)
           (TableRow.revalued (plain_row (js "a") None (Some (js "Hello")) None None)
              en [])
           TableRow.en_value [] false eq_refl).
Defined.

(** ** More on the flattener *)

(** *** The rows and their key paths *)

Lemma mem_map_has {V : Type} (k : jsstring) (m : list (jsstring * V)) :
  mem k (map fst m) = map_has k m.
Proof.
  unfold map_has. induction m as [|[k' v] m IH]; [reflexivity|].
  cbn [map fst mem existsb map_get]. fold (mem k (map fst m)).
  rewrite (str_eqb_sym k k'). destruct (str_eqb k' k); [reflexivity|exact IH].
Qed.

Lemma merge_all_first (found : list (Lang * (jsstring * json))) (rows : RowMap) :
  map fst (merge_all found rows)
  = fold_left (fun seen v => if mem v seen then seen else seen ++ [v])
      (map found_path found) (map fst rows).
Proof.
  revert rows. induction found as [|o found IH]; intros rows; [reflexivity|].
  unfold merge_all in *. cbn [fold_left map]. rewrite IH. f_equal.
  unfold flattenLeaf. rewrite map_set_keys, mem_map_has. reflexivity.
Qed.

Lemma flattenJsons_paths_met (azJson enJson ruJson : json) :
  map FlatRow.key_path (FlattenResult.rows (flattenJsons azJson enJson ruJson))
  = first_occurrences (map found_path (occurrences azJson enJson ruJson)).
Proof.
  rewrite flattenJsons_rows.
  rewrite keyed_keys by (apply merge_all_keyed; constructor).
  apply merge_all_first.
Qed.

(** X8. The rows come out one per key path, in the order in which the key
    paths are first met over az, then en, then ru: no key path twice, and
    none that is not the path of a token. *)
Theorem flattenJsons_key_paths (azJson enJson ruJson : json) :
  map FlatRow.key_path (FlattenResult.rows (flattenJsons azJson enJson ruJson))
  = first_occurrences (map found_path (occurrences azJson enJson ruJson)) /\
  NoDup (map FlatRow.key_path
           (FlattenResult.rows (flattenJsons azJson enJson ruJson))).
Proof.
  split; [apply flattenJsons_paths_met|].
  rewrite flattenJsons_rows.
  rewrite keyed_keys by (apply merge_all_keyed; constructor).
  apply merge_all_nodup. constructor.
Qed.

(** *** The value columns *)

Lemma lang_eqb_eq (a b : Lang) : lang_eqb a b = true <-> a = b.
Proof. destruct a, b; simpl; split; congruence. Qed.

Lemma merge_at_cons (path : jsstring) (o : Lang * (jsstring * json))
    (found : list (Lang * (jsstring * json))) (start : option FlatRow.t) :
  merge_at path (o :: found) start
  = merge_at path found
      (if str_eqb (fst (snd o)) path
       then Some (mergeLeaf (fst o) path (snd (snd o)) start)
       else start).
Proof. reflexivity. Qed.

Lemma held_mergeLeaf (lang l : Lang) (path : jsstring) (child : json)
    (start : option FlatRow.t) :
  held lang (Some (mergeLeaf l path child start))
  = if lang_eqb lang l then value_of child else held lang start.
Proof. cbn [held]. apply mergeLeaf_lang_value. Qed.

Lemma merge_at_other_language (lang : Lang) (path : jsstring)
    (found : list (Lang * (jsstring * json))) (start : option FlatRow.t) :
  (forall c, ~ In (lang, (path, c)) found) ->
  held lang (merge_at path found start) = held lang start.
Proof.
  revert start. induction found as [|[l [p c]] found IH]; intros start Hnone;
    [reflexivity|].
  rewrite merge_at_cons, IH by (intros c' Hin; apply (Hnone c'); now right).
  cbn [fst snd]. destruct (str_eqb p path) eqn:E; [|reflexivity].
  apply str_eqb_eq in E. subst p. rewrite held_mergeLeaf.
  destruct (lang_eqb lang l) eqn:El; [|reflexivity].
  apply lang_eqb_eq in El. subst l. exfalso. apply (Hnone c). now left.
Qed.

Lemma merge_at_held (lang : Lang) (path : jsstring)
    (found : list (Lang * (jsstring * json))) (s1 s2 : option FlatRow.t) :
  held lang s1 = held lang s2 ->
  held lang (merge_at path found s1) = held lang (merge_at path found s2).
Proof.
  revert s1 s2. induction found as [|[l [p c]] found IH]; intros s1 s2 Hs;
    [exact Hs|].
  rewrite !merge_at_cons. apply IH. cbn [fst snd].
  destruct (str_eqb p path); [|exact Hs].
  rewrite !held_mergeLeaf. now rewrite Hs.
Qed.

Lemma language_tokens_lang (lang : Lang) (tree : json)
    (o : Lang * (jsstring * json)) :
  In o (language_tokens lang tree) -> fst o = lang.
Proof.
  rewrite language_tokens_map. intros H.
  now apply in_map_iff in H as [t [<- _]].
Qed.

(** Only the tokens of its own language count for a value column. *)
Lemma held_own_language (lang : Lang) (path : jsstring)
    (azJson enJson ruJson : json) :
  held lang (merge_at path (occurrences azJson enJson ruJson) None)
  = held lang
      (merge_at path (language_tokens lang (tree_for lang azJson enJson ruJson))
         None).
Proof.
  assert (Hother : forall l tree c,
             l <> lang -> ~ In (lang, (path, c)) (language_tokens l tree)).
  { intros l tree c Hl Hin. apply language_tokens_lang in Hin. now apply Hl. }
  unfold occurrences. rewrite !merge_at_app.
  destruct lang; cbn [tree_for].
  - rewrite 2!merge_at_other_language; [reflexivity| |];
      intros c; apply Hother; discriminate.
  - rewrite merge_at_other_language by (intros c; apply Hother; discriminate).
    apply merge_at_held. apply merge_at_other_language.
    intros c; apply Hother; discriminate.
  - apply merge_at_held. rewrite 2!merge_at_other_language; [reflexivity| |];
      intros c; apply Hother; discriminate.
Qed.

(** X9. Each value column of a row is read from the tree of its own
    language alone: it is the [$value] of the last token found at the
    key path in that tree, and [null] when that tree has no token there. *)
Theorem flattenJsons_language_value (azJson enJson ruJson : json)
    (lang : Lang) (path : jsstring) (row : FlatRow.t) :
  find_row path (FlattenResult.rows (flattenJsons azJson enJson ruJson))
  = Some row ->
  (forall before child after,
      language_tokens lang (tree_for lang azJson enJson ruJson)
      = before ++ (lang, (path, child)) :: after ->
      (forall c, ~ In (lang, (path, c)) after) ->
      lang_value lang row = value_of child) /\
  ((forall c, ~ In (lang, (path, c))
                (language_tokens lang (tree_for lang azJson enJson ruJson))) ->
   lang_value lang row = JNull).
Proof.
  rewrite flattenJsons_find_row. intros Hrow.
  pose proof (held_own_language lang path azJson enJson ruJson) as Hheld.
  rewrite Hrow in Hheld. cbn [held] in Hheld. rewrite Hheld. split.
  - intros before child after -> Hafter.
    rewrite merge_at_app, merge_at_cons. cbn [fst snd].
    rewrite str_eqb_refl, merge_at_other_language by exact Hafter.
    rewrite held_mergeLeaf.
    now rewrite (proj2 (lang_eqb_eq lang lang) eq_refl).
  - intros Hnone. now rewrite merge_at_other_language.
Qed.

Lemma flattenJsons_language_value_witness :
  exists row,
    find_row (js "a")
      (FlattenResult.rows
         (flattenJsons
            (JObj [(js "a", JObj [(js "$value", JStr (js "Salam"))])])
            (JObj [(js "a", JObj [(js "$value", JStr (js "Hello"))])])
            JNull))
    = Some row /\
    lang_value en row = JStr (js "Hello") /\
    lang_value ru row = JNull.
Proof.
  eexists. split; [reflexivity|]. split.
  - apply (proj1 (flattenJsons_language_value
             (JObj [(js "a", JObj [(js "$value", JStr (js "Salam"))])])
             (JObj [(js "a", JObj [(js "$value", JStr (js "Hello"))])])
             JNull en (js "a") _ eq_refl)
           [] (JObj [(js "$value", JStr (js "Hello"))]) []).
    + reflexivity.
    + intros c [].
  - apply (proj2 (flattenJsons_language_value
             (JObj [(js "a", JObj [(js "$value", JStr (js "Salam"))])])
             (JObj [(js "a", JObj [(js "$value", JStr (js "Hello"))])])
             JNull ru (js "a") _ eq_refl)).
    intros c [].
Defined.

(** *** The token type *)

Lemma mergeLeaf_carried_type (lang : Lang) (path : jsstring) (child : json)
    (found : option FlatRow.t) :
  FlatRow.token_type (mergeLeaf lang path child found)
  = match carried_type child with
    | Some ty => ty
    | None => match found with
              | Some r => FlatRow.token_type r
              | None => JNull
              end
    end.
Proof.
  rewrite mergeLeaf_token_type. unfold or_else, carried_type.
  destruct (prop child (js "$type")) as [v|]; [|reflexivity].
  now destruct (truthy v).
Qed.

Lemma merge_at_untyped (path : jsstring)
    (found : list (Lang * (jsstring * json))) (start : FlatRow.t) :
  (forall l c, In (l, (path, c)) found -> carried_type c = None) ->
  exists row,
    merge_at path found (Some start) = Some row /\
    FlatRow.token_type row = FlatRow.token_type start.
Proof.
  revert start. induction found as [|[l [p c]] found IH]; intros start Hnone.
  - now exists start.
  - rewrite merge_at_cons. cbn [fst snd].
    assert (Hrest : forall l' c', In (l', (path, c')) found ->
                                  carried_type c' = None)
      by (intros l' c' Hin; apply (Hnone l' c'); now right).
    destruct (str_eqb p path) eqn:E; [|now apply IH].
    apply str_eqb_eq in E. subst p.
    destruct (IH (mergeLeaf l path c (Some start)) Hrest) as (row & Hrow & Hty).
    exists row. split; [exact Hrow|]. rewrite Hty, mergeLeaf_carried_type.
    now rewrite (Hnone l c) by now left.
Qed.

(** X10. The type of a row is the [$type] of the last token at its key
    path, over az, then en, then ru, that has a truthy one; a row none of
    whose tokens has a truthy [$type] has the type [null]. *)
Theorem flattenJsons_last_token_type (azJson enJson ruJson : json)
    (path : jsstring) :
  (forall before lang child after ty,
      occurrences azJson enJson ruJson = before ++ (lang, (path, child)) :: after ->
      carried_type child = Some ty ->
      (forall l c, In (l, (path, c)) after -> carried_type c = None) ->
      exists row,
        find_row path (FlattenResult.rows (flattenJsons azJson enJson ruJson))
        = Some row /\
        FlatRow.token_type row = ty) /\
  (forall row,
      find_row path (FlattenResult.rows (flattenJsons azJson enJson ruJson))
      = Some row ->
      (forall l c, In (l, (path, c)) (occurrences azJson enJson ruJson) ->
                   carried_type c = None) ->
      FlatRow.token_type row = JNull).
Proof.
  split.
  - intros before lang child after ty Hocc Hty Hafter.
    rewrite flattenJsons_find_row, Hocc, merge_at_app, merge_at_cons.
    cbn [fst snd]. rewrite str_eqb_refl.
    destruct (merge_at_untyped path after
                (mergeLeaf lang path child (merge_at path before None)) Hafter)
      as (row & Hrow & Hrty).
    exists row. split; [exact Hrow|].
    now rewrite Hrty, mergeLeaf_carried_type, Hty.
  - intros row. rewrite flattenJsons_find_row.
    generalize (occurrences azJson enJson ruJson) as found.
    intros found Hrow Hnone.
    assert (Hgen : forall start r,
               merge_at path found start = Some r ->
               match start with
               | Some s => FlatRow.token_type s = JNull
               | None => True
               end ->
               FlatRow.token_type r = JNull).
    { clear Hrow. induction found as [|[l [p c]] found IH]; intros start r Hr Hs.
      - cbn in Hr. subst start. exact Hs.
      - rewrite merge_at_cons in Hr. cbn [fst snd] in Hr.
        assert (Hrest : forall l' c', In (l', (path, c')) found ->
                                      carried_type c' = None)
          by (intros l' c' Hin; apply (Hnone l' c'); now right).
        apply (IH Hrest) in Hr; [exact Hr|].
        destruct (str_eqb p path) eqn:E; [|exact Hs].
        apply str_eqb_eq in E. subst p. rewrite mergeLeaf_carried_type.
        rewrite (Hnone l c) by now left.
        destruct start; [exact Hs|reflexivity]. }
    apply (Hgen None row Hrow I).
Qed.

Lemma flattenJsons_last_token_type_witness :
  exists row,
    find_row (js "a")
      (FlattenResult.rows
         (flattenJsons
            (JObj [(js "a", JObj [(js "$value", JStr (js "Salam"));
                                  (js "$type", JStr (js "string"))])])
            (JObj [(js "a", JObj [(js "$value", JStr (js "Hello"));
                                  (js "$type", JStr (js "text"))])])
            (JObj [(js "a", JObj [(js "$value", JStr (js "Privet"))])])))
    = Some row /\
    FlatRow.token_type row = JStr (js "text").
Proof.
  apply (proj1 (flattenJsons_last_token_type
           (JObj [(js "a", JObj [(js "$value", JStr (js "Salam"));
                                 (js "$type", JStr (js "string"))])])
           (JObj [(js "a", JObj [(js "$value", JStr (js "Hello"));
                                 (js "$type", JStr (js "text"))])])
           (JObj [(js "a", JObj [(js "$value", JStr (js "Privet"))])])
           (js "a"))
         [(az, (js "a", JObj [(js "$value", JStr (js "Salam"));
                              (js "$type", JStr (js "string"))]))]
         en
         (JObj [(js "$value", JStr (js "Hello")); (js "$type", JStr (js "text"))])
         [(ru, (js "a", JObj [(js "$value", JStr (js "Privet"))]))]
         (JStr (js "text"))).
  - reflexivity.
  - reflexivity.
  - intros l c [H|[]]. inversion H. reflexivity.
Defined.

(** *** The group extensions *)

Lemma recordGroup_carried (path : jsstring) (child : json) (gs : GroupMap) :
  recordGroup path child gs
  = match carried_extensions child with
    | Some ext => map_set path (GroupExt.mk path ext) gs
    | None => gs
    end.
Proof.
  unfold recordGroup, carried_extensions.
  destruct (prop child (js "$extensions")) as [ext|]; [|reflexivity].
  now destruct (truthy ext).
Qed.

(** One entry of the loop, on the group extensions. *)
Lemma flattenEntry_groups (lang : Lang) (pathPrefix key : jsstring) (value : json)
    (descend : jsstring -> Lang -> RowMap * GroupMap -> RowMap * GroupMap)
    (below : list (list jsstring * json)) (st : RowMap * GroupMap) :
  (forall p st',
      snd (descend p lang st')
      = fold_left (fun gs g => recordGroup (path_from p (fst g)) (snd g) gs)
          below (snd st')) ->
  snd (flattenEntry descend pathPrefix lang key value st)
  = fold_left (fun gs g => recordGroup (path_from pathPrefix (fst g)) (snd g) gs)
      (entry_groups below key value) (snd st).
Proof.
  intros Hdescend. unfold flattenEntry, entry_groups.
  destruct (str_eqb key (js "$extensions")); [reflexivity|].
  destruct (is_object value); [|reflexivity]. cbn [negb].
  destruct (js_in (js "$value") value); [reflexivity|].
  rewrite Hdescend. cbn [fst snd fold_left path_from]. clear Hdescend.
  generalize (recordGroup (child_path pathPrefix key) value (snd st)) as gs.
  induction below as [|g below IH]; intros gs; [reflexivity|].
  cbn [map fold_left fst snd]. rewrite path_from_cons. apply IH.
Qed.

(** The group extensions [flattenNode] leaves are those of recording the
    groups of the node one after the other. *)
Lemma flattenNode_groups (node : json) :
  forall (pathPrefix : jsstring) (lang : Lang) (st : RowMap * GroupMap),
    snd (flattenNode node pathPrefix lang st)
    = fold_left (fun gs g => recordGroup (path_from pathPrefix (fst g)) (snd g) gs)
        (groups node) (snd st).
Proof.
  induction node as [| | | |items IH|props IH] using json_induction;
    intros pathPrefix lang st; try reflexivity.
  - cbn [flattenNode groups]. generalize 0 as i. revert st.
    induction IH as [|value items Hvalue _ IHitems]; intros st i; [reflexivity|].
    rewrite fold_left_app, IHitems. f_equal.
    apply flattenEntry_groups. intros p st'. apply Hvalue.
  - cbn [flattenNode groups]. revert st.
    induction IH as [|[key value] props Hvalue _ IHprops]; intros st;
      [reflexivity|].
    rewrite fold_left_app, IHprops. f_equal.
    apply flattenEntry_groups. intros p st'. apply Hvalue.
Qed.

Lemma record_all_app (xs ys : list (jsstring * json)) (gs : GroupMap) :
  record_all (xs ++ ys) gs = record_all ys (record_all xs gs).
Proof. apply fold_left_app. Qed.

Lemma flattenNode_language_groups (lang : Lang) (tree : json)
    (st : RowMap * GroupMap) :
  snd (if truthy tree then flattenNode tree [] lang st else st)
  = record_all (language_groups tree) (snd st).
Proof.
  unfold language_groups, record_all. destruct (truthy tree); [|reflexivity].
  rewrite flattenNode_groups. generalize (snd st) as gs.
  induction (groups tree) as [|g l IH]; intros gs; [reflexivity|].
  simpl. apply IH.
Qed.

(** The group extensions of [flattenJsons] come from recording every group
    of az, then en, then ru into an empty [Map]. *)
Lemma flattenJsons_groupExtensions (azJson enJson ruJson : json) :
  FlattenResult.groupExtensions (flattenJsons azJson enJson ruJson)
  = map snd (record_all (group_occurrences azJson enJson ruJson) []).
Proof.
  unfold flattenJsons, group_occurrences. cbv zeta.
  cbn [FlattenResult.groupExtensions].
  rewrite !record_all_app. f_equal.
  now rewrite !flattenNode_language_groups.
Qed.

Lemma record_all_keyed (found : list (jsstring * json)) (gs : GroupMap) :
  group_keyed gs -> group_keyed (record_all found gs).
Proof.
  revert gs. induction found as [|g found IH]; intros gs Hk; [exact Hk|].
  apply IH. rewrite recordGroup_carried.
  destruct (carried_extensions (snd g)); [|exact Hk].
  now apply map_set_forall.
Qed.

Lemma record_all_nodup (found : list (jsstring * json)) (gs : GroupMap) :
  NoDup (map fst gs) -> NoDup (map fst (record_all found gs)).
Proof.
  revert gs. induction found as [|g found IH]; intros gs Hnd; [exact Hnd|].
  apply IH. rewrite recordGroup_carried.
  destruct (carried_extensions (snd g)); [|exact Hnd].
  now apply map_set_nodup.
Qed.

Lemma find_group_keyed (path : jsstring) (gs : GroupMap) :
  group_keyed gs -> find_group path (map snd gs) = map_get path gs.
Proof.
  unfold find_group. induction 1 as [|[k g] gs Hk _ IH]; [reflexivity|].
  simpl in *. rewrite Hk. destruct (str_eqb k path); [reflexivity|exact IH].
Qed.

Lemma group_keyed_keys (gs : GroupMap) :
  group_keyed gs -> map GroupExt.group_path (map snd gs) = map fst gs.
Proof.
  induction 1 as [|[k g] gs Hk _ IH]; [reflexivity|].
  cbn [map fst snd] in *. now rewrite Hk, IH.
Qed.

Lemma record_all_without (path : jsstring) (found : list (jsstring * json))
    (gs : GroupMap) :
  (forall c, In (path, c) found -> carried_extensions c = None) ->
  map_get path (record_all found gs) = map_get path gs.
Proof.
  revert gs. induction found as [|[p c] found IH]; intros gs Hnone;
    [reflexivity|].
  unfold record_all in *. cbn [fold_left fst snd].
  rewrite IH by (intros c' Hin; apply (Hnone c'); now right).
  rewrite recordGroup_carried.
  destruct (carried_extensions c) as [ext|] eqn:E; [|reflexivity].
  apply map_get_set_other. intros ->.
  rewrite (Hnone c) in E by now left. discriminate.
Qed.

(** X11. The group extensions come out one per group path.  The one
    under a path holds the [$extensions] of the last group met at that
    path, over az, then en, then ru, that has a truthy one, whatever the
    language; and there is none under a path where no group has one. *)
Theorem flattenJsons_group_extensions (azJson enJson ruJson : json)
    (path : jsstring) :
  NoDup (map GroupExt.group_path
           (FlattenResult.groupExtensions (flattenJsons azJson enJson ruJson))) /\
  (forall before child after ext,
      group_occurrences azJson enJson ruJson = before ++ (path, child) :: after ->
      carried_extensions child = Some ext ->
      (forall c, In (path, c) after -> carried_extensions c = None) ->
      find_group path
        (FlattenResult.groupExtensions (flattenJsons azJson enJson ruJson))
      = Some (GroupExt.mk path ext)) /\
  ((forall c, In (path, c) (group_occurrences azJson enJson ruJson) ->
              carried_extensions c = None) ->
   find_group path
     (FlattenResult.groupExtensions (flattenJsons azJson enJson ruJson))
   = None).
Proof.
  rewrite flattenJsons_groupExtensions.
  assert (Hk : group_keyed (record_all (group_occurrences azJson enJson ruJson) []))
    by (apply record_all_keyed; constructor).
  rewrite (group_keyed_keys _ Hk), (find_group_keyed _ _ Hk).
  split; [|split].
  - apply record_all_nodup. constructor.
  - intros before child after ext -> Hext Hafter.
    rewrite record_all_app. unfold record_all at 1. cbn [fold_left fst snd].
    fold (record_all after). rewrite (record_all_without path after _ Hafter).
    rewrite recordGroup_carried, Hext. apply map_get_set_same.
  - intros Hnone. now rewrite record_all_without.
Qed.

Lemma flattenJsons_group_extensions_witness :
  find_group (js "home")
    (FlattenResult.groupExtensions
       (flattenJsons
          (JObj [(js "home",
                  JObj [(js "$extensions", JObj [(js "mode", JStr (js "az"))]);
                        (js "title", JObj [(js "$value", JStr (js "Salam"))])])])
          (JObj [(js "home",
                  JObj [(js "$extensions", JObj [(js "mode", JStr (js "en"))]);
                        (js "title", JObj [(js "$value", JStr (js "Hello"))])])])
          JNull))
  = Some (GroupExt.mk (js "home") (JObj [(js "mode", JStr (js "en"))])).
Proof.
  apply (proj1 (proj2 (flattenJsons_group_extensions
           (JObj [(js "home",
                   JObj [(js "$extensions", JObj [(js "mode", JStr (js "az"))]);
                         (js "title", JObj [(js "$value", JStr (js "Salam"))])])])
           (JObj [(js "home",
                   JObj [(js "$extensions", JObj [(js "mode", JStr (js "en"))]);
                         (js "title", JObj [(js "$value", JStr (js "Hello"))])])])
           JNull (js "home")))
         [(js "home",
           JObj [(js "$extensions", JObj [(js "mode", JStr (js "az"))]);
                 (js "title", JObj [(js "$value", JStr (js "Salam"))])])]
         (JObj [(js "$extensions", JObj [(js "mode", JStr (js "en"))]);
                (js "title", JObj [(js "$value", JStr (js "Hello"))])])
         []).
  - reflexivity.
  - reflexivity.
  - intros c [].
Defined.

(** *** What the flattener passes over *)

(** X12. Of the entries of a node the flattener reads only those whose
    name is not [$extensions] and whose value is an object or an array:
    dropping every other entry changes neither the rows nor the group
    extensions, at whatever prefix and for whatever language. *)
Theorem flattenNode_entries_looked_into (props : list (jsstring * json))
    (pathPrefix : jsstring) (lang : Lang) (st : RowMap * GroupMap) :
  flattenNode (JObj props) pathPrefix lang st
  = flattenNode (JObj (filter looked_into props)) pathPrefix lang st.
Proof.
  cbn [flattenNode]. revert st.
  induction props as [|[key value] props IH]; intros st; [reflexivity|].
  cbn [filter]. unfold looked_into at 1. cbn [fst snd].
  destruct (str_eqb key (js "$extensions")) eqn:Ek.
  - cbn [negb andb]. rewrite <- IH. f_equal.
    unfold flattenEntry. now rewrite Ek.
  - cbn [negb andb]. destruct (is_object value) eqn:Eo.
    + apply IH.
    + rewrite <- IH. f_equal. unfold flattenEntry. now rewrite Ek, Eo.
Qed.

(** ** What is uploaded *)

Lemma drop_leading_blank (s : jsstring) :
  is_empty (drop_leading is_whitespace s) = blank s.
Proof.
  induction s as [|c s IH]; [reflexivity|].
  cbn [drop_leading blank forallb].
  destruct (is_whitespace c); [exact IH|reflexivity].
Qed.

Lemma drop_trailing_kept (p : N -> bool) (c : N) (s : jsstring) :
  p c = false -> drop_trailing p (c :: s) <> [].
Proof.
  intros Hc. cbn [drop_trailing].
  destruct (drop_trailing p s); [rewrite Hc|]; discriminate.
Qed.

Lemma trim_blank (s : jsstring) : is_empty (trim s) = blank s.
Proof.
  unfold trim. rewrite <- drop_leading_blank.
  induction s as [|c s IH]; [reflexivity|].
  cbn [drop_leading]. destruct (is_whitespace c) eqn:E; [exact IH|].
  pose proof (drop_trailing_kept is_whitespace c s E) as H.
  destruct (drop_trailing is_whitespace (c :: s)); [congruence|reflexivity].
Qed.

Lemma blank_app (a b : jsstring) : blank (a ++ b) = blank a && blank b.
Proof. apply forallb_app. Qed.

Lemma path_from_visible (pathPrefix : jsstring) (names : list jsstring) :
  blank pathPrefix = false -> blank (path_from pathPrefix names) = false.
Proof.
  revert pathPrefix. induction names as [|n names IH]; intros p Hp; [exact Hp|].
  rewrite path_from_cons. apply IH. unfold child_path.
  destruct p as [|c p]; [discriminate|]. cbn [is_empty].
  now rewrite blank_app, Hp.
Qed.

Lemma index_key_visible (i : nat) : blank (index_key i) = false.
Proof.
  destruct (index_key_head i) as (c & rest & -> & Hc).
  cbn [blank forallb].
  assert (Hw : is_whitespace c = false).
  { unfold is_digit in Hc. apply andb_true_iff in Hc as [H1 H2].
    apply N.leb_le in H1, H2. unfold is_whitespace.
    apply orb_false_iff. split.
    - apply not_true_is_false. intros H. apply existsb_exists in H as [w [Hin Hw]].
      apply N.eqb_eq in Hw. subst w. simpl in Hin.
      repeat (destruct Hin as [Hin|Hin]; [lia|]). exact Hin.
    - apply andb_false_iff. left. apply N.leb_gt. lia. }
  now rewrite Hw.
Qed.

(** The tokens of a tree without a blank name at the top have paths that
    are not blank. *)
Lemma tokens_visible (tree : json) :
  top_visible tree = true ->
  Forall (fun token => blank (path_from [] (fst token)) = false) (tokens tree).
Proof.
  intros Htop. rewrite tokens_entries. apply Forall_forall.
  intros token Hin. apply in_flat_map in Hin as [[key value] [Hentry Hin]].
  cbn [fst snd] in Hin.
  pose proof (entry_tokens_head (tokens value) key value) as Hhead.
  rewrite Forall_forall in Hhead. destruct (Hhead token Hin) as [rest ->].
  rewrite path_from_cons. apply path_from_visible.
  assert (Hkey : blank key = false).
  { destruct tree as [| | | |items|props]; try destruct Hentry.
    - cbn [entries] in Hentry. clear Htop. revert Hentry. generalize 0 as i.
      induction items as [|x items IH]; intros i; [intros []|].
      cbn [indexed]. intros [H|H]; [|now apply (IH (S i))].
      inversion H. apply index_key_visible.
    - cbn [entries top_visible] in *. rewrite forallb_forall in Htop.
      apply negb_true_iff. apply (Htop (key, value) Hentry). }
  unfold child_path. cbn [is_empty]. exact Hkey.
Qed.

(** X13. The upload drops exactly the rows whose key path is blank, the
    empty one included.  When no property at the top of the three trees
    has a blank name nothing is dropped: a blank name further down is part
    of a longer key path. *)
Theorem uploadRows_keeps (azJson enJson ruJson : json) :
  uploadRows (flattenJsons azJson enJson ruJson)
  = filter (fun r => negb (blank (FlatRow.key_path r)))
      (FlattenResult.rows (flattenJsons azJson enJson ruJson)) /\
  (top_visible azJson = true -> top_visible enJson = true ->
   top_visible ruJson = true ->
   uploadRows (flattenJsons azJson enJson ruJson)
   = FlattenResult.rows (flattenJsons azJson enJson ruJson)).
Proof.
  assert (Hfilter : forall rows,
             filter (fun r => negb (is_empty (FlatRow.key_path r))
                              && negb (is_empty (trim (FlatRow.key_path r)))) rows
             = filter (fun r => negb (blank (FlatRow.key_path r))) rows).
  { intros rows. apply filter_ext. intros r. rewrite trim_blank.
    destruct (FlatRow.key_path r); reflexivity. }
  unfold uploadRows. rewrite Hfilter. split; [reflexivity|].
  intros Haz Hen Hru.
  apply forallb_filter_id. apply forallb_forall. intros r Hr.
  apply negb_true_iff.
  pose proof (flattenJsons_paths_met azJson enJson ruJson) as Hkeys.
  assert (Hin : In (FlatRow.key_path r)
                  (first_occurrences
                     (map found_path (occurrences azJson enJson ruJson)))).
  { rewrite <- Hkeys. now apply in_map. }
  apply (proj1 (first_occurrences_in _ _)) in Hin.
  apply in_map_iff in Hin as [o [<- Ho]].
  assert (Hlang : forall lang tree,
             top_visible tree = true -> In o (language_tokens lang tree) ->
             blank (found_path o) = false).
  { intros lang tree Htop Hino. rewrite language_tokens_map in Hino.
    apply in_map_iff in Hino as [token [<- Htoken]].
    cbn [found_path fst snd].
    pose proof (tokens_visible tree Htop) as Hall.
    rewrite Forall_forall in Hall. now apply Hall. }
  unfold occurrences in Ho. rewrite !in_app_iff in Ho.
  destruct Ho as [Ho|[Ho|Ho]]; eauto.
Qed.

Lemma uploadRows_keeps_witness :
  uploadRows
    (flattenJsons
       (JObj [(js "home", JObj [(js " ", JObj [(js "$value", JStr (js "x"))])])])
       JNull JNull)
  = FlattenResult.rows
      (flattenJsons
         (JObj [(js "home", JObj [(js " ", JObj [(js "$value", JStr (js "x"))])])])
         JNull JNull).
Proof.
  apply (proj2 (uploadRows_keeps
           (JObj [(js "home", JObj [(js " ", JObj [(js "$value", JStr (js "x"))])])])
           JNull JNull)); reflexivity.
Defined.

(** A token under a blank name at the top of a tree is flattened into a
    row and dropped before the upload. *)
Lemma uploadRows_drops_blank :
  map FlatRow.key_path
    (FlattenResult.rows
       (flattenJsons
          (JObj [(js " ", JObj [(js "$value", JStr (js "x"))]);
                 (js "a", JObj [(js "$value", JStr (js "y"))])])
          JNull JNull))
  = [js " "; js "a"] /\
  map FlatRow.key_path
    (uploadRows
       (flattenJsons
          (JObj [(js " ", JObj [(js "$value", JStr (js "x"))]);
                 (js "a", JObj [(js "$value", JStr (js "y"))])])
          JNull JNull))
  = [js "a"].
Proof. split; reflexivity. Qed.

(** ** More on the builders *)

(** *** Reading back what [setNestedValue] wrote *)

Lemma setNestedSegments_lookup (segments : list jsstring) :
  forall (obj : json) (value out : json),
    segments <> [] ->
    setNestedSegments obj segments value = Ok out ->
    value_at out segments = Some value.
Proof.
  induction segments as [|seg segments IH]; intros obj value out Hne Hset;
    [congruence|].
  destruct segments as [|s segments].
  - rewrite setNestedSegments_last in Hset.
    destruct obj as [| | | | |props]; try discriminate.
    inversion Hset. cbn [value_at prop]. now rewrite map_get_set_same.
  - rewrite setNestedSegments_step in Hset.
    destruct obj as [| | | | |props]; try discriminate.
    cbn [in_object bind] in Hset.
    match type of Hset with
    | context [setNestedSegments ?n (s :: segments) value] =>
        destruct (setNestedSegments n (s :: segments) value) as [n1|] eqn:En
    end; [|discriminate].
    cbn [bind assign] in Hset. inversion Hset.
    cbn [value_at prop]. rewrite map_get_set_same.
    assert (Hcons : s :: segments <> []) by discriminate.
    apply (IH _ _ _ Hcons En).
Qed.

Lemma value_at_off_object (v : json) (segments : list jsstring) :
  segments <> [] -> (forall props, v <> JObj props) ->
  value_at v segments = None.
Proof.
  destruct segments as [|seg segments]; [congruence|]. intros _ Hv.
  cbn [value_at]. destruct v; try reflexivity. now destruct (Hv props).
Qed.

Lemma value_at_empty (segments : list jsstring) :
  segments <> [] -> value_at (JObj []) segments = None.
Proof. destruct segments; [congruence|reflexivity]. Qed.

Lemma setNestedSegments_elsewhere (common : list jsstring) :
  forall (obj : json) (s s' : jsstring) (rest rest' : list jsstring)
         (value out : json),
    s <> s' ->
    setNestedSegments obj (common ++ s :: rest) value = Ok out ->
    value_at out (common ++ s' :: rest') = value_at obj (common ++ s' :: rest').
Proof.
  induction common as [|c common IH];
    intros obj s s' rest rest' value out Hs Hset.
  - cbn [app] in *. destruct rest as [|r rest].
    + rewrite setNestedSegments_last in Hset.
      destruct obj as [| | | | |props]; try discriminate.
      inversion Hset. cbn [value_at prop].
      now rewrite map_get_set_other.
    + rewrite setNestedSegments_step in Hset.
      destruct obj as [| | | | |props]; try discriminate.
      cbn [in_object bind] in Hset.
      match type of Hset with
      | context [setNestedSegments ?n (r :: rest) value] =>
          destruct (setNestedSegments n (r :: rest) value) as [n1|]
      end; [|discriminate].
      cbn [bind assign] in Hset. inversion Hset. cbn [value_at prop].
      now rewrite map_get_set_other.
  - change ((c :: common) ++ s :: rest) with (c :: (common ++ s :: rest)) in Hset.
    change ((c :: common) ++ s' :: rest') with (c :: (common ++ s' :: rest')).
    destruct (common ++ s :: rest) as [|x xs] eqn:Ex;
      [now destruct common|].
    rewrite setNestedSegments_step in Hset. rewrite <- Ex in Hset.
    destruct obj as [| | | | |props]; try discriminate.
    cbn [in_object bind prop] in Hset.
    match type of Hset with
    | context [setNestedSegments ?n (common ++ s :: rest) value] =>
        set (next := n) in *;
        destruct (setNestedSegments next (common ++ s :: rest) value) as [n1|] eqn:En
    end; [|discriminate].
    cbn [bind assign] in Hset. inversion Hset.
    cbn [value_at prop]. rewrite map_get_set_same.
    rewrite (IH next s s' rest rest' value n1 Hs En).
    subst next. unfold map_has.
    assert (Hne : common ++ s' :: rest' <> []) by now destruct common.
    destruct (map_get c props) as [child|] eqn:Ec.
    + cbn [negb orb].
      destruct child as [| | | | |inner]; cbn [typeof_object negb];
        try reflexivity;
        rewrite value_at_empty by assumption;
        now rewrite value_at_off_object by (assumption || discriminate).
    + now apply value_at_empty.
Qed.

(** X14. What [setNestedValue] has set is found again by walking down the
    segments of the path; and a walk that leaves the path at some segment
    finds what it found before.  The segment [__proto__] is left aside. *)
Theorem setNestedValue_lookup (obj : json) (path : jsstring) (value out : json) :
  ~ In (js "__proto__") (split_dot path) ->
  setNestedValue obj path value = Ok out ->
  value_at out (split_dot path) = Some value /\
  (forall common s rest s' rest',
      split_dot path = common ++ s :: rest -> s <> s' ->
      value_at out (common ++ s' :: rest')
      = value_at obj (common ++ s' :: rest')).
Proof.
  unfold setNestedValue. intros _ Hset. split.
  - apply (setNestedSegments_lookup _ obj value out (split_dot_nonempty path) Hset).
  - intros common s rest s' rest' E Hs. rewrite E in Hset.
    apply (setNestedSegments_elsewhere common obj s s' rest rest' value out Hs Hset).
Qed.

Lemma setNestedValue_lookup_witness :
  value_at
    (JObj [(js "home", JObj [(js "title", JStr (js "old"));
                             (js "body", JStr (js "new"))])])
    (split_dot (js "home.body"))
  = Some (JStr (js "new")) /\
  value_at
    (JObj [(js "home", JObj [(js "title", JStr (js "old"));
                             (js "body", JStr (js "new"))])])
    [js "home"; js "title"]
  = value_at (JObj [(js "home", JObj [(js "title", JStr (js "old"))])])
      [js "home"; js "title"].
Proof.
  destruct (setNestedValue_lookup
              (JObj [(js "home", JObj [(js "title", JStr (js "old"))])])
              (js "home.body") (JStr (js "new"))
              (JObj [(js "home", JObj [(js "title", JStr (js "old"));
                                       (js "body", JStr (js "new"))])]))
    as [H1 H2].
  - simpl. intuition discriminate.
  - reflexivity.
  - split; [exact H1|].
    apply (H2 [js "home"] (js "body") [] (js "title") []);
      [reflexivity|discriminate].
Defined.

(** *** Writing twice *)

Lemma map_set_set {V : Type} (k : jsstring) (v v' : V) (m : list (jsstring * V)) :
  map_set k v' (map_set k v m) = map_set k v' m.
Proof.
  induction m as [|[k0 v0] m IH]; simpl.
  - now rewrite str_eqb_refl.
  - destruct (str_eqb k0 k) eqn:E; simpl.
    + now rewrite str_eqb_refl.
    + now rewrite E, IH.
Qed.

Lemma setNestedSegments_twice (segments : list jsstring) :
  forall (obj : json) (first second once : json),
    segments <> [] ->
    setNestedSegments obj segments first = Ok once ->
    setNestedSegments once segments second
    = setNestedSegments obj segments second.
Proof.
  induction segments as [|seg segments IH]; intros obj first second once Hne Hset;
    [congruence|].
  destruct segments as [|s segments].
  - rewrite setNestedSegments_last in *.
    destruct obj as [| | | | |props]; try discriminate.
    inversion Hset. cbn [assign]. now rewrite map_set_set.
  - rewrite setNestedSegments_step in Hset.
    destruct obj as [| | | | |props]; try discriminate.
    cbn [in_object bind prop] in Hset.
    match type of Hset with
    | context [setNestedSegments ?n (s :: segments) first] =>
        set (next := n) in *;
        destruct (setNestedSegments next (s :: segments) first) as [n1|] eqn:En
    end; [|discriminate].
    cbn [bind assign] in Hset. inversion Hset; subst once; clear Hset.
    assert (Hcons : s :: segments <> []) by discriminate.
    destruct (setNestedSegments_object _ _ _ _ Hcons En) as [p1 ->].
    rewrite !setNestedSegments_step. cbn [in_object bind prop].
    unfold map_has at 1. rewrite map_get_set_same. cbn [negb orb typeof_object].
    rewrite (IH next first second (JObj p1) Hcons En).
    fold next.
    destruct (setNestedSegments next (s :: segments) second) as [n2|];
      [|reflexivity].
    cbn [bind assign]. now rewrite map_set_set.
Qed.

(** X15. The last write wins: setting a path again gives what setting it
    once with the second value gives, and nothing of the first value is
    left or merged in.  The segment [__proto__] is left aside. *)
Theorem setNestedValue_twice (obj : json) (path : jsstring)
    (first second once : json) :
  ~ In (js "__proto__") (split_dot path) ->
  setNestedValue obj path first = Ok once ->
  setNestedValue once path second = setNestedValue obj path second.
Proof.
  intros _. apply setNestedSegments_twice, split_dot_nonempty.
Qed.

Lemma setNestedValue_twice_witness :
  setNestedValue
    (JObj [(js "a", JObj [(js "b", developerToken (js "old") None)])])
    (js "a.b") (developerToken (js "new") (Some (js "text")))
  = setNestedValue (JObj []) (js "a.b")
      (developerToken (js "new") (Some (js "text"))).
Proof.
  apply (setNestedValue_twice (JObj []) (js "a.b")
           (developerToken (js "old") None)
           (developerToken (js "new") (Some (js "text")))
           (JObj [(js "a", JObj [(js "b", developerToken (js "old") None)])])).
  - simpl. intuition discriminate.
  - reflexivity.
Defined.

(** ** When the builders return *)

Lemma walkable_empty : walkable (JObj []).
Proof. constructor. intros ? ? []. Qed.

Lemma walkable_set (props : list (jsstring * json)) (seg : jsstring) (child : json) :
  walkable (JObj props) -> walkable child ->
  walkable (JObj (map_set seg child props)).
Proof.
  intros Hs Hc. inversion Hs as [| | |? Hprops]; subst.
  constructor. intros k v Hin.
  apply map_set_in in Hin as [E|Hin]; [inversion E; now subst|eauto].
Qed.

(** The object the walk goes on with is walkable again. *)
Lemma walkable_next (props : list (jsstring * json)) (seg : jsstring) :
  walkable (JObj props) ->
  exists inner,
    match map_get seg props with
    | Some child =>
        if negb (map_has seg props) || negb (typeof_object child)
        then JObj [] else child
    | None => JObj []
    end = JObj inner /\ walkable (JObj inner).
Proof.
  intros Hs. inversion Hs as [| | |? Hprops]; subst.
  destruct (map_get seg props) as [child|] eqn:Hget.
  - pose proof (Hprops seg child (map_get_in _ _ _ Hget)) as Hchild.
    unfold map_has. rewrite Hget. cbn [negb orb].
    inversion Hchild as [b|n|s|inner Hinner]; subst; cbn [typeof_object negb];
      try (exists []; split; [reflexivity|apply walkable_empty]).
    exists inner. split; [reflexivity|exact Hchild].
  - exists []. split; [reflexivity|apply walkable_empty].
Qed.

Lemma setNestedSegments_walkable (segments : list jsstring) :
  forall (props : list (jsstring * json)) (value : json),
    segments <> [] -> walkable (JObj props) -> walkable value ->
    exists out,
      setNestedSegments (JObj props) segments value = Ok (JObj out) /\
      walkable (JObj out).
Proof.
  induction segments as [|seg segments IH]; intros props value Hne Hs Hv;
    [congruence|].
  destruct segments as [|s segments].
  - rewrite setNestedSegments_last. cbn [assign].
    eexists. split; [reflexivity|]. now apply walkable_set.
  - rewrite setNestedSegments_step. cbn [in_object bind prop].
    destruct (walkable_next props seg Hs) as (inner & -> & Hinner).
    assert (Hcons : s :: segments <> []) by discriminate.
    destruct (IH inner value Hcons Hinner Hv) as (out & -> & Hout).
    cbn [bind assign]. eexists. split; [reflexivity|]. now apply walkable_set.
Qed.

(** *** Group extensions as key paths *)

Lemma setExtensionsAt_segments (segments : list jsstring) :
  forall (obj extensions : json),
    setExtensionsAt obj segments extensions
    = setNestedSegments obj (segments ++ [js "$extensions"]) extensions.
Proof.
  induction segments as [|seg segments IH]; intros obj extensions;
    [reflexivity|].
  cbn [setExtensionsAt app].
  destruct (segments ++ [js "$extensions"]) as [|x xs] eqn:E;
    [now destruct segments|].
  rewrite setNestedSegments_step, <- E.
  destruct obj as [| | | | |props]; try reflexivity.
  cbn [in_object bind]. now rewrite IH, E.
Qed.





(** *** Rows with a type *)

Lemma figmaExportToken_walkable (t : Translation.t) (val : jsstring) :
  Translation.token_type t <> None -> walkable (figmaExportToken t val).
Proof.
  intros Hty. unfold figmaExportToken.
  destruct (Translation.token_type t) as [ty|]; [|congruence].
  assert (Hplain : walkable (JObj [(js "$type", JStr ty); (js "$value", JStr val)])).
  { constructor. intros k v [H|[H|[]]]; inversion H; constructor. }
  destruct (Translation.figma_variable_id t) as [variableId|]; [|exact Hplain].
  destruct (is_empty variableId); [exact Hplain|].
  assert (Hid : walkable (JObj [(js "variableId", JStr variableId)])).
  { constructor. intros k v [H|[]]. inversion H. constructor. }
  assert (Hfigma : walkable (JObj [(js "com.figma",
                                    JObj [(js "variableId", JStr variableId)])])).
  { constructor. intros k v [H|[]]. inversion H. exact Hid. }
  constructor. intros k v [H|[H|[H|[]]]]; inversion H;
    solve [constructor | exact Hfigma].
Qed.

Lemma figmaTokens_walkable (lang : Lang) (rows : list Translation.t) :
  (forall t, In t rows -> Translation.token_type t <> None) ->
  forall props, walkable (JObj props) ->
  exists out,
    fold_left
      (fun acc t =>
         result <- acc ;;
         match translation_value lang t with
         | Some val =>
             setNestedValue result (Translation.key_path t) (figmaExportToken t val)
         | None => Ok result
         end)
      rows (Ok (JObj props)) = Ok (JObj out) /\
    walkable (JObj out).
Proof.
  induction rows as [|t rows IH]; intros Htyped props Hs.
  - exists props. split; [reflexivity|exact Hs].
  - cbn [fold_left bind].
    assert (Hrest : forall t', In t' rows -> Translation.token_type t' <> None)
      by (intros t' Hin; apply Htyped; now right).
    destruct (translation_value lang t) as [val|]; [|now apply IH].
    unfold setNestedValue.
    destruct (setNestedSegments_walkable (split_dot (Translation.key_path t))
                props (figmaExportToken t val)) as (out & -> & Hout).
    + apply split_dot_nonempty.
    + exact Hs.
    + apply figmaExportToken_walkable, Htyped. now left.
    + now apply IH.
Qed.

Lemma applyGroupExtensions_walkable (groupExtensions : list GroupExtension.t) :
  (forall ge, In ge groupExtensions -> walkable (GroupExtension.extensions ge)) ->
  forall props, walkable (JObj props) ->
  exists out, applyGroupExtensions (JObj props) groupExtensions = Ok (JObj out).
Proof.
  unfold applyGroupExtensions.
  induction groupExtensions as [|ge ges IH]; intros Hall props Hs.
  - exists props. reflexivity.
  - cbn [fold_left bind]. rewrite setExtensionsAt_segments.
    destruct (setNestedSegments_walkable
                (split_dot (GroupExtension.group_path ge) ++ [js "$extensions"])
                props (GroupExtension.extensions ge)) as (out & -> & Hout).
    + now destruct (split_dot (GroupExtension.group_path ge)).
    + exact Hs.
    + apply Hall. now left.
    + apply IH; [|exact Hout]. intros ge' Hin. apply Hall. now right.
Qed.

(** X17. With a type on every row and with group extensions whose
    payloads hold neither [null] nor an array, neither builder throws:
    [buildDeveloperJson] returns the three language objects and
    [buildFigmaJson] returns an object, for every language.  The segment
    [__proto__] is left aside. *)
Theorem builders_return (rows : list Translation.t)
    (groupExtensions : list GroupExtension.t) :
  (forall t, In t rows ->
     Translation.token_type t <> None /\ plain_path (Translation.key_path t)) ->
  (forall ge, In ge groupExtensions ->
     walkable (GroupExtension.extensions ge) /\
     plain_path (GroupExtension.group_path ge)) ->
  (exists a e u,
      buildDeveloperJson rows = Ok (developerRoot (JObj a) (JObj e) (JObj u))) /\
  (forall lang,
      exists out, buildFigmaJson rows groupExtensions lang = Ok (JObj out)).
Proof.
  intros Hrows Hges.
  assert (Htyped : forall t, In t rows -> Translation.token_type t <> None)
    by (intros t Hin; apply (Hrows t Hin)).
  split; [now apply buildDeveloperJson_typed_rows|].
  intros lang. unfold buildFigmaJson.
  destruct (figmaTokens_walkable lang rows Htyped [] walkable_empty)
    as (out & -> & Hout).
  cbn [bind]. apply applyGroupExtensions_walkable; [|exact Hout].
  intros ge Hin. apply (Hges ge Hin).
Qed.

Lemma builders_return_witness :
  (exists a e u,
      buildDeveloperJson
        [plain_row (js "a") (Some (js "x")) None None (Some (js "string"));
         plain_row (js "a.$type.b") (Some (js "y")) None None (Some (js "text"))]
      = Ok (developerRoot (JObj a) (JObj e) (JObj u))) /\
  (forall lang,
      exists out,
        buildFigmaJson
          [plain_row (js "a") (Some (js "x")) None None (Some (js "string"));
           plain_row (js "a.$type.b") (Some (js "y")) None None (Some (js "text"))]
          [GroupExtension.mk [] [] (js "a")
             (JObj [(js "hidden", JBool true)])]
          lang
        = Ok (JObj out)).
Proof.
  apply (builders_return
           [plain_row (js "a") (Some (js "x")) None None (Some (js "string"));
            plain_row (js "a.$type.b") (Some (js "y")) None None (Some (js "text"))]
           [GroupExtension.mk [] [] (js "a")
              (JObj [(js "hidden", JBool true)])]).
  - intros t [<-|[<-|[]]]; (split; [discriminate|]);
      unfold plain_path; simpl; intuition discriminate.
  - intros ge [<-|[]]. split.
    + constructor. intros k v [H|[]]. inversion H. constructor.
    + unfold plain_path. simpl. intuition discriminate.
Defined.

(** *** Rows without a value *)

Lemma fold_left_filter {A B : Type} (f : A -> B -> A) (p : B -> bool)
    (l : list B) :
  (forall a b, p b = false -> f a b = a) ->
  forall a, fold_left f l a = fold_left f (filter p l) a.
Proof.
  intros Hskip. induction l as [|b l IH]; intros a; [reflexivity|].
  cbn [fold_left filter]. destruct (p b) eqn:E.
  - cbn [fold_left]. apply IH.
  - rewrite (Hskip a b E). apply IH.
Qed.

Lemma bind_Ok {A : Type} (acc : outcome A) : (x <- acc ;; Ok x) = acc.
Proof. now destruct acc. Qed.

(** X18. A row without a value for a language leaves no trace in the
    tree of that language, not even the groups of its key path: the Figma
    builder gives what it gives for the rows that have a value for the
    language, and the merged builder what it gives for the rows that have
    a value for some language. *)
Theorem builders_skip_rows_without_value (rows : list Translation.t)
    (groupExtensions : list GroupExtension.t) (lang : Lang) :
  buildFigmaJson rows groupExtensions lang
  = buildFigmaJson (filter (has_value lang) rows) groupExtensions lang /\
  buildDeveloperJson rows = buildDeveloperJson (filter has_any_value rows).
Proof.
  split.
  - unfold buildFigmaJson. f_equal. apply fold_left_filter.
    intros acc t Ht. unfold has_value in Ht.
    destruct (translation_value lang t); [discriminate|]. apply bind_Ok.
  - unfold buildDeveloperJson. apply fold_left_filter.
    intros acc t Ht. unfold has_any_value, has_value in Ht.
    cbn [translation_value] in Ht. unfold developerStep.
    destruct (Translation.az_value t); [discriminate|].
    destruct (Translation.en_value t); [discriminate|].
    destruct (Translation.ru_value t); [discriminate|].
    cbn [bind]. apply bind_Ok.
Qed.

(** *** One language at a time *)





(** ** Flattening what the Figma builder built *)

Lemma figma_fold_placements (lang : Lang) (rows : list Translation.t)
    (acc : outcome json) :
  fold_left
    (fun acc t =>
       result <- acc ;;
       match translation_value lang t with
       | Some val =>
           setNestedValue result (Translation.key_path t) (figmaExportToken t val)
       | None => Ok result
       end)
    rows acc
  = fold_left (fun acc item =>
                 t <- acc ;; setNestedSegments t (fst item) (snd item))
      (figma_placements lang rows) acc.
Proof.
  revert acc. induction rows as [|t rows IH]; intros acc; [reflexivity|].
  unfold figma_placements. cbn [flat_map fold_left]. rewrite fold_left_app.
  fold (figma_placements lang rows). rewrite IH. f_equal.
  destruct (translation_value lang t) as [v|].
  - reflexivity.
  - cbn [fold_left]. now destruct acc.
Qed.

Lemma figma_placements_in (lang : Lang) (rows : list Translation.t)
    (item : list jsstring * json) :
  In item (figma_placements lang rows) <->
  exists t v, In t rows /\ translation_value lang t = Some v /\
              item = (split_dot (Translation.key_path t), figmaExportToken t v).
Proof.
  unfold figma_placements. rewrite in_flat_map. split.
  - intros [t [Hin Ho]]. destruct (translation_value lang t) as [v|] eqn:E;
      [|destruct Ho].
    destruct Ho as [<-|[]]. now exists t, v.
  - intros (t & v & Hin & E & ->). exists t. split; [exact Hin|].
    rewrite E. now left.
Qed.

Lemma figma_placements_found (lang : Lang) (rows : list Translation.t) :
  Forall (fun item => hd [] (fst item) <> []) (figma_placements lang rows) ->
  map (fun token => (lang, (path_from [] (fst token), snd token)))
    (figma_placements lang rows)
  = figma_tokens lang rows.
Proof.
  induction rows as [|t rows IH]; intros Hhd; [reflexivity|].
  unfold figma_placements, figma_tokens in *. cbn [flat_map] in *.
  apply Forall_app in Hhd as [Ht Hrest].
  rewrite map_app, (IH Hrest). f_equal.
  destruct (translation_value lang t) as [v|] eqn:E; [|reflexivity].
  cbn [map fst snd]. inversion Ht as [|? ? Hhead _]; subst.
  cbn [fst] in Hhead. rewrite path_from_join by exact Hhead.
  now rewrite join_split.
Qed.

Lemma figma_tokens_paths (lang : Lang) (rows : list Translation.t) :
  map fst (figma_placements lang rows)
  = map split_dot (map found_path (figma_tokens lang rows)).
Proof.
  induction rows as [|t rows IH]; [reflexivity|].
  unfold figma_placements, figma_tokens in *. cbn [flat_map].
  rewrite !map_app, IH. f_equal.
  now destruct (translation_value lang t).
Qed.

Lemma figmaExportToken_token (t : Translation.t) (v : jsstring) :
  exists inner,
    figmaExportToken t v = JObj inner /\
    js_in (js "$value") (JObj inner) = true.
Proof.
  unfold figmaExportToken.
  destruct (Translation.figma_variable_id t) as [variableId|];
    [destruct (is_empty variableId)|];
    eexists; split; reflexivity.
Qed.

(** Merging the token of the export of a row into no row gives the row
    read back. *)
Lemma mergeLeaf_figmaExportToken (lang : Lang) (t : Translation.t) (v : jsstring) :
  mergeLeaf lang (Translation.key_path t) (figmaExportToken t v) None
  = reimported lang t v.
Proof.
  unfold figmaExportToken, reimported, truthy_string.
  destruct (Translation.token_type t) as [[|c ty]|];
    (destruct (Translation.figma_variable_id t) as [[|d variableId]|]);
    destruct lang; reflexivity.
Qed.

Lemma merge_at_figma_tokens (lang : Lang) (path : jsstring)
    (rows : list Translation.t) :
  NoDup (map found_path (figma_tokens lang rows)) ->
  merge_at path (figma_tokens lang rows) None = exported lang path rows.
Proof.
  induction rows as [|t rows IH]; [reflexivity|].
  unfold figma_tokens, exported, has_value in *. cbn [flat_map find].
  destruct (translation_value lang t) as [v|] eqn:E.
  - cbn [app map found_path fst snd]. intros Hnd.
    inversion Hnd as [|? ? Hnotin Hnd']; subst.
    rewrite merge_at_cons. cbn [fst snd].
    destruct (str_eqb (Translation.key_path t) path) eqn:Ep; cbn [andb].
    + apply str_eqb_eq in Ep. subst path. rewrite E. cbn [option_map].
      rewrite merge_at_miss; [now rewrite mergeLeaf_figmaExportToken|].
      intros o Ho Hpath. apply Hnotin. rewrite <- Hpath. now apply in_map.
    + now apply IH.
  - rewrite andb_false_r. cbn [app]. exact IH.
Qed.

Lemma occurrences_one (lang : Lang) (tree : json) :
  match lang with
  | az => occurrences tree JNull JNull
  | en => occurrences JNull tree JNull
  | ru => occurrences JNull JNull tree
  end = language_tokens lang tree.
Proof.
  destruct lang; unfold occurrences; cbn [language_tokens truthy app];
    now rewrite ?app_nil_r.
Qed.

Lemma flattenOne_find_row (lang : Lang) (tree : json) (path : jsstring) :
  find_row path (FlattenResult.rows (flattenOne lang tree))
  = merge_at path (language_tokens lang tree) None.
Proof.
  rewrite <- occurrences_one.
  destruct lang; cbn [flattenOne]; apply flattenJsons_find_row.
Qed.

Lemma flattenOne_in_rows (lang : Lang) (tree : json) (r : FlatRow.t) :
  In r (FlattenResult.rows (flattenOne lang tree)) <->
  find_row (FlatRow.key_path r) (FlattenResult.rows (flattenOne lang tree))
  = Some r.
Proof. destruct lang; cbn [flattenOne]; apply flattenJsons_in_rows. Qed.

Lemma reimported_key_path (lang : Lang) (t : Translation.t) (v : jsstring) :
  FlatRow.key_path (reimported lang t v) = Translation.key_path t.
Proof. now destruct lang. Qed.

Lemma exported_some (lang : Lang) (path : jsstring) (rows : list Translation.t)
    (row : FlatRow.t) :
  exported lang path rows = Some row ->
  exists t v, In t rows /\ Translation.key_path t = path /\
              translation_value lang t = Some v /\ row = reimported lang t v.
Proof.
  unfold exported.
  destruct (find _ rows) as [t|] eqn:E; [|discriminate].
  apply find_some in E as [Hin Hp]. apply andb_true_iff in Hp as [Hp _].
  apply str_eqb_eq in Hp.
  destruct (translation_value lang t) as [v|] eqn:Ev; [|discriminate].
  cbn [option_map]. intros H. inversion H. now exists t, v.
Qed.

(** The Figma builder places its tokens without an error, and the tokens
    of the tree it returns are the tokens of the rows. *)
Lemma figma_grown (lang : Lang) (rows : list Translation.t) :
  exportable lang rows ->
  exists tree,
    buildFigmaJson rows [] lang = Ok tree /\
    trie tree /\
    Permutation (tokens tree) (figma_placements lang rows) /\
    Permutation (language_tokens lang tree) (figma_tokens lang rows).
Proof.
  intros [Hapart Hitems].
  destruct (place_all (figma_placements lang rows) (JObj []) trie_empty)
    as (tree & Hfold & Htrie & Hperm).
  - cbn [tokens map]. now rewrite app_nil_r.
  - apply Forall_forall. intros item Hitem.
    pose proof (proj1 (Forall_forall _ _) Hitems item Hitem) as (Hfind & _).
    split; [exact Hfind|].
    apply figma_placements_in in Hitem as (t & v & _ & _ & ->).
    apply figmaExportToken_token.
  - rewrite app_nil_r in Hperm.
    exists tree. split; [|split; [exact Htrie|split; [exact Hperm|]]].
    + unfold buildFigmaJson. rewrite figma_fold_placements, Hfold. reflexivity.
    + rewrite language_tokens_map.
      rewrite <- (figma_placements_found lang rows).
      * now apply Permutation_map.
      * eapply Forall_impl; [|exact Hitems]. intros item (_ & H & _). exact H.
Qed.

Lemma figma_tokens_nodup (lang : Lang) (rows : list Translation.t) :
  exportable lang rows -> NoDup (map found_path (figma_tokens lang rows)).
Proof.
  intros [[Hnd _] _]. rewrite figma_tokens_paths in Hnd.
  now apply NoDup_map_inv in Hnd.
Qed.

(** X20. Exporting for Figma and importing again brings the rows back.
    When among the rows with a value for the language no key path is
    another one continued, and no segment is [$extensions], a later
    [$value], [__proto__] or an empty first one, then [buildFigmaJson]
    without group extensions returns a tree, and flattening it gives one
    row for each of those rows, with the value, and with the type and
    the Figma variable id unless they were the empty string. *)
Theorem figma_export_reimport (lang : Lang) (rows : list Translation.t) :
  exportable lang rows ->
  exists tree,
    buildFigmaJson rows [] lang = Ok tree /\
    (forall path,
        find_row path (FlattenResult.rows (flattenOne lang tree))
        = exported lang path rows) /\
    (forall row,
        In row (FlattenResult.rows (flattenOne lang tree)) <->
        exists t v, In t rows /\ translation_value lang t = Some v /\
                    row = reimported lang t v).
Proof.
  intros Hexp.
  destruct (figma_grown lang rows Hexp) as (tree & Hbuild & _ & _ & Hperm).
  pose proof (figma_tokens_nodup lang rows Hexp) as Hnd.
  exists tree. split; [exact Hbuild|].
  assert (Hpaths : forall path,
             find_row path (FlattenResult.rows (flattenOne lang tree))
             = exported lang path rows).
  { intros path. rewrite flattenOne_find_row.
    rewrite <- (merge_at_permutation path _ _ None (Permutation_sym Hperm) Hnd).
    now apply merge_at_figma_tokens. }
  split; [exact Hpaths|].
  intros row. rewrite flattenOne_in_rows, Hpaths. split.
  - intros H. apply exported_some in H as (t & v & Hin & _ & Hv & ->).
    now exists t, v.
  - intros (t & v & Hin & Hv & ->). rewrite reimported_key_path.
    rewrite <- merge_at_figma_tokens by exact Hnd.
    rewrite <- mergeLeaf_figmaExportToken.
    apply merge_at_hit; [exact Hnd|].
    unfold figma_tokens. apply in_flat_map. exists t. split; [exact Hin|].
    rewrite Hv. now left.
Qed.

Lemma figma_export_reimport_witness :
  exists tree,
    buildFigmaJson
      [Translation.mk [] [] (js "home.title") None (Some (js "Hello")) None
         (Some (js "string")) (Some (js "VariableID:1:2")) None [] [];
       plain_row (js "home.body") None (Some (js "Welcome")) None None;
       plain_row (js "about") (Some (js "Haqqinda")) None None (Some (js "string"))]
      [] en
    = Ok tree /\
    find_row (js "home.title") (FlattenResult.rows (flattenOne en tree))
    = Some (FlatRow.mk (js "home.title") JNull (JStr (js "Hello")) JNull
              (JStr (js "string")) (JStr (js "VariableID:1:2"))) /\
    find_row (js "about") (FlattenResult.rows (flattenOne en tree)) = None.
Proof.
  destruct (figma_export_reimport en
              [Translation.mk [] [] (js "home.title") None (Some (js "Hello")) None
                 (Some (js "string")) (Some (js "VariableID:1:2")) None [] [];
               plain_row (js "home.body") None (Some (js "Welcome")) None None;
               plain_row (js "about") (Some (js "Haqqinda")) None None
                 (Some (js "string"))])
    as (tree & Hbuild & Hpaths & _).
  - split.
    + split.
      * repeat constructor; simpl; intuition discriminate.
      * intros a b Ha Hb [c Hc]. simpl in Ha, Hb.
        destruct Ha as [<-|[<-|[]]], Hb as [<-|[<-|[]]];
          try reflexivity; discriminate Hc.
    + repeat constructor; simpl; try discriminate; intuition discriminate.
  - exists tree. split; [exact Hbuild|]. now rewrite !Hpaths.
Defined.

(** ** More on the duplicate detector *)

Lemma findDuplicateValues_expected (rows : list Translation.t) :
  findDuplicateValues rows
  = expected_groups az rows ++ expected_groups en rows ++ expected_groups ru rows.
Proof.
  unfold findDuplicateValues. simpl.
  now rewrite !emitGroups_expected, app_nil_r.
Qed.

Lemma expected_groups_in (lang : Lang) (rows : list Translation.t)
    (g : DuplicateGroup.t) :
  In g (expected_groups lang rows) <->
  exists v, In v (counted_values lang rows) /\
            2 <= List.length (paths_with lang v rows) /\
            g = DuplicateGroup.mk v lang (paths_with lang v rows).
Proof.
  unfold expected_groups. rewrite in_flat_map. cbv zeta. split.
  - intros [v [Hv Hg]]. apply (proj1 (first_occurrences_in _ _)) in Hv.
    destruct (Nat.leb 2 (List.length (paths_with lang v rows))) eqn:E;
      [|destruct Hg].
    destruct Hg as [<-|[]]. apply Nat.leb_le in E. now exists v.
  - intros (v & Hv & Hlen & ->). exists v. split.
    + now apply (proj2 (first_occurrences_in _ _)).
    + apply Nat.leb_le in Hlen. rewrite Hlen. now left.
Qed.

Lemma findDuplicateValues_in (rows : list Translation.t) (g : DuplicateGroup.t) :
  In g (findDuplicateValues rows) <->
  exists lang v, In v (counted_values lang rows) /\
                 2 <= List.length (paths_with lang v rows) /\
                 g = DuplicateGroup.mk v lang (paths_with lang v rows).
Proof.
  rewrite findDuplicateValues_expected, !in_app_iff, !expected_groups_in.
  split.
  - intros [H|[H|H]]; eauto.
  - intros ([| |] & H); auto.
Qed.

Lemma counted_values_in (lang : Lang) (rows : list Translation.t) (v : jsstring) :
  In v (counted_values lang rows) <->
  exists t, In t rows /\ counted_value lang t = Some v.
Proof.
  unfold counted_values. rewrite in_flat_map. split.
  - intros [t [Hin Hv]]. destruct (counted_value lang t) as [w|] eqn:E;
      [|destruct Hv].
    destruct Hv as [<-|[]]. now exists t.
  - intros [t [Hin Hv]]. exists t. split; [exact Hin|]. rewrite Hv. now left.
Qed.

Lemma counted_value_kept (lang : Lang) (t : Translation.t) (v : jsstring) :
  counted_value lang t = Some v ->
  translation_value lang t = Some v /\ skipped (Some v) = false.
Proof.
  unfold counted_value. destruct (translation_value lang t) as [w|]; [|discriminate].
  destruct (skipped (Some w)) eqn:E; [discriminate|].
  intros H. inversion H. subst. auto.
Qed.

Lemma paths_with_in (lang : Lang) (v : jsstring) (rows : list Translation.t)
    (kp : jsstring) :
  In kp (paths_with lang v rows) <->
  exists t, In t rows /\ Translation.key_path t = kp /\
            counted_value lang t = Some v.
Proof.
  unfold paths_with. rewrite in_map_iff. split.
  - intros [t [Hk Ht]]. apply filter_In in Ht as [Hin Hv].
    destruct (counted_value lang t) as [w|] eqn:E; [|discriminate].
    apply str_eqb_eq in Hv. subst w. now exists t.
  - intros [t (Hin & Hk & Hv)]. exists t. split; [exact Hk|].
    apply filter_In. split; [exact Hin|]. rewrite Hv. apply str_eqb_refl.
Qed.

(** The key under which a group is ignored tells its language and its
    value. *)
Lemma ignoredKey_injective (g1 g2 : DuplicateGroup.t) :
  ignoredKey g1 = ignoredKey g2 ->
  DuplicateGroup.language g1 = DuplicateGroup.language g2 /\
  DuplicateGroup.value g1 = DuplicateGroup.value g2.
Proof.
  unfold ignoredKey.
  destruct (DuplicateGroup.language g1), (DuplicateGroup.language g2);
    cbn; intros H; inversion H; auto.
Qed.

Lemma expected_groups_keys_nodup (lang : Lang) (rows : list Translation.t) :
  NoDup (map ignoredKey (expected_groups lang rows)).
Proof.
  unfold expected_groups.
  pose proof (first_occurrences_nodup (counted_values lang rows)) as Hnd.
  induction Hnd as [|v l Hnotin Hnd IH]; [constructor|].
  cbn [flat_map]. cbv zeta.
  destruct (Nat.leb 2 (List.length (paths_with lang v rows))); [|exact IH].
  cbn [app map]. constructor; [|exact IH].
  intros Hin. apply in_map_iff in Hin as [g [Hk Hg]].
  apply ignoredKey_injective in Hk as [_ Hv]. cbn in Hv.
  apply in_flat_map in Hg as [w [Hw Hg]].
  destruct (Nat.leb 2 (List.length (paths_with lang w rows))); [|destruct Hg].
  destruct Hg as [<-|[]]. cbn in Hv. now subst w.
Qed.

Lemma findDuplicateValues_keys_nodup (rows : list Translation.t) :
  NoDup (map ignoredKey (findDuplicateValues rows)).
Proof.
  rewrite findDuplicateValues_expected, !map_app.
  assert (Hlang : forall lang g, In g (expected_groups lang rows) ->
                                 DuplicateGroup.language g = lang).
  { intros lang g Hg. now apply expected_groups_paths in Hg. }
  assert (Hdis : forall l1 l2 k,
             l1 <> l2 ->
             In k (map ignoredKey (expected_groups l1 rows)) ->
             In k (map ignoredKey (expected_groups l2 rows)) -> False).
  { intros l1 l2 k Hne H1 H2.
    apply in_map_iff in H1 as [g1 [<- Hg1]].
    apply in_map_iff in H2 as [g2 [Hk Hg2]].
    apply ignoredKey_injective in Hk as [Hl _].
    rewrite (Hlang l1 g1 Hg1), (Hlang l2 g2 Hg2) in Hl. congruence. }
  apply NoDup_app; [apply expected_groups_keys_nodup| |].
  - apply NoDup_app; [apply expected_groups_keys_nodup
                     |apply expected_groups_keys_nodup|].
    intros k H1 H2. apply (Hdis en ru k); [discriminate|assumption|assumption].
  - intros k H1 H2. apply in_app_iff in H2 as [H2|H2].
    + apply (Hdis az en k); [discriminate|assumption|assumption].
    + apply (Hdis az ru k); [discriminate|assumption|assumption].
Qed.

(** X21. No two groups of the detector have both the language and the
    value in common, so that the key [language::value] names one group;
    and every group has a value that is not blank, held by two rows at
    least. *)
Theorem findDuplicateValues_distinct_groups (rows : list Translation.t) :
  NoDup (map ignoredKey (findDuplicateValues rows)) /\
  Forall (fun g => blank (DuplicateGroup.value g) = false /\
                   2 <= List.length (DuplicateGroup.keyPaths g))
    (findDuplicateValues rows).
Proof.
  split; [apply findDuplicateValues_keys_nodup|].
  apply Forall_forall. intros g Hg.
  apply findDuplicateValues_in in Hg as (lang & v & Hv & Hlen & ->).
  cbn [DuplicateGroup.value DuplicateGroup.keyPaths]. split; [|exact Hlen].
  apply counted_values_in in Hv as [t [_ Hv]].
  apply counted_value_kept in Hv as [_ Hs].
  unfold skipped in Hs. apply orb_false_iff in Hs as [_ Hs].
  now rewrite trim_blank in Hs.
Qed.

(** ** The table *)

Section TableViewFacts.

Variable toLowerCase : jsstring -> jsstring.

(** *** Issues *)

Lemma issues_fold_get (p : jsstring) (translations : list Translation.t) :
  forall map,
    map_get p
      (fold_left
         (fun map t =>
            match analyzeKeyIssues toLowerCase (Translation.key_path t) with
            | Some issue => map_set (Translation.key_path t) issue map
            | None => map
            end) translations map)
    = if mem p (List.map Translation.key_path translations)
      then match analyzeKeyIssues toLowerCase p with
           | Some issue => Some issue
           | None => map_get p map
           end
      else map_get p map.
Proof.
  induction translations as [|t translations IH]; intros map; [reflexivity|].
  cbn [fold_left List.map]. rewrite IH. unfold mem. cbn [existsb].
  fold (mem p (List.map Translation.key_path translations)).
  destruct (str_eqb p (Translation.key_path t)) eqn:E; cbn [orb].
  - apply str_eqb_eq in E. subst p.
    destruct (analyzeKeyIssues toLowerCase (Translation.key_path t)) as [issue|].
    + rewrite map_get_set_same. now destruct (mem _ _).
    + now destruct (mem _ _).
  - apply str_eqb_neq in E.
    destruct (analyzeKeyIssues toLowerCase (Translation.key_path t)) as [issue|];
      [|reflexivity].
    rewrite map_get_set_other by congruence. reflexivity.
Qed.

Lemma issues_get (translations : list Translation.t) (p : jsstring) :
  map_get p (issues toLowerCase translations)
  = if mem p (map Translation.key_path translations)
    then analyzeKeyIssues toLowerCase p else None.
Proof.
  unfold issues. rewrite issues_fold_get. cbn [map_get].
  destruct (mem p _); [|reflexivity].
  now destruct (analyzeKeyIssues toLowerCase p).
Qed.

Lemma issues_get_row (translations : list Translation.t) (t : Translation.t) :
  In t translations ->
  map_get (Translation.key_path t) (issues toLowerCase translations)
  = analyzeKeyIssues toLowerCase (Translation.key_path t).
Proof.
  intros Hin. rewrite issues_get.
  assert (Hmem : mem (Translation.key_path t)
                   (map Translation.key_path translations) = true)
    by (apply mem_in; now apply in_map).
  now rewrite Hmem.
Qed.

Lemma analyzeKeyIssues_changed (p : jsstring) :
  match analyzeKeyIssues toLowerCase p with Some _ => true | None => false end
  = OptimizeResult.wasChanged (optimizeKey toLowerCase (last (split_dot p) [])).
Proof.
  unfold analyzeKeyIssues. cbv zeta.
  now destruct (OptimizeResult.wasChanged
                  (optimizeKey toLowerCase (last (split_dot p) []))).
Qed.

Lemma searched_in (search : jsstring) (rows : list Translation.t)
    (t : Translation.t) :
  In t (searched toLowerCase search rows) -> In t rows.
Proof.
  unfold searched. destruct (is_empty search); [auto|].
  intros H. now apply filter_In in H.
Qed.

(** X22. The issue kept for a row is the analysis of its own key path,
    and the Issues filter shows, of the rows that match the search, those
    whose last segment the sanitizer would change. *)
Theorem issues_of_rows (translations : list Translation.t) (search : jsstring)
    (duplicateKeyPaths : list jsstring) :
  (forall t, In t translations ->
     map_get (Translation.key_path t) (issues toLowerCase translations)
     = analyzeKeyIssues toLowerCase (Translation.key_path t)) /\
  filtered toLowerCase translations search FilterMode.issues
    (issues toLowerCase translations) duplicateKeyPaths
  = filter (fun t => OptimizeResult.wasChanged
                       (optimizeKey toLowerCase (TableRow.lastSegment t)))
      (searched toLowerCase search translations).
Proof.
  split; [apply issues_get_row|].
  unfold filtered. cbv zeta. apply filter_ext_in. intros t Ht.
  apply searched_in in Ht. unfold map_has. rewrite (issues_get_row _ _ Ht).
  apply analyzeKeyIssues_changed.
Qed.

(** X23. Accepting the suggestion for a row clears its warning: once the
    row handed to [onUpdate] has replaced the old one, no issue is kept
    for its key path, and its [original_key] keeps the key it had;
    provided that the last segment does not sanitize to nothing. *)
Theorem acceptIssueFix_clears (translations : list Translation.t)
    (translation updated : Translation.t) (issue : KeyIssue.t) :
  fixes_key_chars toLowerCase ->
  In translation translations ->
  map_get (Translation.key_path translation) (issues toLowerCase translations)
  = Some issue ->
  cleanup toLowerCase (TableRow.lastSegment translation) <> [] ->
  TableRow.acceptIssueFix translation (Some issue) false = Some updated ->
  In updated (handleUpdate updated translations) /\
  map_get (Translation.key_path updated)
    (issues toLowerCase (handleUpdate updated translations)) = None /\
  Translation.original_key updated
  = Some (or_string (Translation.original_key translation)
            (Translation.key_path translation)).
Proof.
  intros Hlow Hin Hissue Hclean Haccept.
  rewrite (issues_get_row _ _ Hin) in Hissue.
  cbn [TableRow.acceptIssueFix] in Haccept. inversion Haccept; subst updated.
  split; [|split; [|reflexivity]].
  - unfold handleUpdate. apply in_map_iff. exists translation.
    split; [|exact Hin]. cbn [TableRow.renamed Translation.id].
    now rewrite str_eqb_refl.
  - rewrite issues_get. cbn [TableRow.renamed Translation.key_path].
    rewrite (analyzeKeyIssues_fixed toLowerCase Hlow _ _ Hissue Hclean).
    now destruct (mem _ _).
Qed.

End TableViewFacts.

Lemma acceptIssueFix_clears_witness :
  In (TableRow.renamed (plain_row (js "home.Save Button") None None None None)
        (js "home.save_button"))
    (handleUpdate
       (TableRow.renamed (plain_row (js "home.Save Button") None None None None)
          (js "home.save_button"))
       [plain_row (js "home.Save Button") None None None None]) /\
  map_get (js "home.save_button")
    (issues ascii_toLowerCase
       (handleUpdate
          (TableRow.renamed (plain_row (js "home.Save Button") None None None None)
             (js "home.save_button"))
          [plain_row (js "home.Save Button") None None None None])) = None /\
  Translation.original_key
    (TableRow.renamed (plain_row (js "home.Save Button") None None None None)
       (js "home.save_button"))
  = Some (js "home.Save Button").
Proof.
  apply (acceptIssueFix_clears ascii_toLowerCase
           [plain_row (js "home.Save Button") None None None None]
           (plain_row (js "home.Save Button") None None None None)
           (TableRow.renamed (plain_row (js "home.Save Button") None None None None)
              (js "home.save_button"))
           (KeyIssue.mk (js "Save Button") (js "save_button")
              (js "home.save_button"))
           ascii_toLowerCase_fixes_key_chars).
  - now left.
  - reflexivity.
  - vm_compute. discriminate.
  - reflexivity.
Defined.

(** ** Duplicates in the table *)

(** *** Badges *)

Lemma mem_set_add (kp k : jsstring) (s : list jsstring) :
  mem kp (set_add k s) = mem kp s || str_eqb kp k.
Proof.
  unfold set_add. destruct (mem k s) eqn:E.
  - destruct (str_eqb kp k) eqn:Ek; [|now rewrite orb_false_r].
    apply str_eqb_eq in Ek. subst k. now rewrite E.
  - unfold mem. rewrite existsb_app. cbn [existsb]. now rewrite orb_false_r.
Qed.

Lemma mem_cons (kp k : jsstring) (l : list jsstring) :
  mem kp (k :: l) = str_eqb kp k || mem kp l.
Proof. reflexivity. Qed.

Lemma keyPaths_added (kp : jsstring) (paths : list jsstring) :
  forall set,
    mem kp (fold_left (fun set kp' => set_add kp' set) paths set)
    = mem kp set || mem kp paths.
Proof.
  induction paths as [|p paths IH]; intros set; [now rewrite orb_false_r|].
  cbn [fold_left]. rewrite IH, mem_set_add, mem_cons. now rewrite orb_assoc.
Qed.

Lemma duplicateKeyPaths_fold (kp : jsstring) (active : list DuplicateGroup.t) :
  forall set,
    mem kp
      (fold_left
         (fun set group =>
            fold_left (fun set kp' => set_add kp' set)
              (DuplicateGroup.keyPaths group) set)
         active set)
    = mem kp set
      || existsb (fun g => mem kp (DuplicateGroup.keyPaths g)) active.
Proof.
  induction active as [|g active IH]; intros set; [now rewrite orb_false_r|].
  cbn [fold_left existsb]. rewrite IH, keyPaths_added. now rewrite orb_assoc.
Qed.

Lemma duplicateKeyPaths_mem (kp : jsstring) (active : list DuplicateGroup.t) :
  mem kp (duplicateKeyPaths active)
  = existsb (fun g => mem kp (DuplicateGroup.keyPaths g)) active.
Proof. unfold duplicateKeyPaths. now rewrite duplicateKeyPaths_fold. Qed.

Lemma listed_set_same (kp : jsstring) (gs : list DuplicateGroup.t)
    (map : list (jsstring * list DuplicateGroup.t)) :
  listed kp (map_set kp gs map) = gs.
Proof. unfold listed. now rewrite map_get_set_same. Qed.

Lemma listed_set_other (kp p : jsstring) (gs : list DuplicateGroup.t)
    (map : list (jsstring * list DuplicateGroup.t)) :
  p <> kp -> listed kp (map_set p gs map) = listed kp map.
Proof. intros H. unfold listed. now rewrite map_get_set_other. Qed.

Lemma map_has_set_same {V : Type} (k : jsstring) (v : V)
    (m : list (jsstring * V)) :
  map_has k (map_set k v m) = true.
Proof. unfold map_has. now rewrite map_get_set_same. Qed.

Lemma info_added (kp : jsstring) (g : DuplicateGroup.t) (paths : list jsstring) :
  forall map,
    listed kp
      (fold_left (fun map kp' => map_set kp' (listed kp' map ++ [g]) map)
         paths map)
    = listed kp map ++ List.map (fun _ => g) (filter (str_eqb kp) paths) /\
    map_has kp
      (fold_left (fun map kp' => map_set kp' (listed kp' map ++ [g]) map)
         paths map)
    = map_has kp map || mem kp paths.
Proof.
  induction paths as [|p paths IH]; intros map.
  - cbn [fold_left filter List.map mem existsb].
    now rewrite app_nil_r, orb_false_r.
  - cbn [fold_left filter].
    destruct (IH (map_set p (listed p map ++ [g]) map)) as [Hl Hh].
    rewrite Hl, Hh, mem_cons. clear Hl Hh IH.
    destruct (str_eqb kp p) eqn:E.
    + apply str_eqb_eq in E. subst p.
      rewrite listed_set_same, map_has_set_same. cbn [List.map orb].
      split; [now rewrite <- app_assoc|now rewrite orb_true_r].
    + apply str_eqb_neq in E.
      rewrite listed_set_other, map_has_set by congruence.
      cbn [orb]. split; reflexivity.
Qed.

Lemma duplicateInfo_fold (kp : jsstring) (active : list DuplicateGroup.t) :
  forall map,
    listed kp
      (fold_left
         (fun map group =>
            fold_left
              (fun map kp' => map_set kp' (listed kp' map ++ [group]) map)
              (DuplicateGroup.keyPaths group) map)
         active map)
    = listed kp map ++ flat_map (mentions kp) active /\
    map_has kp
      (fold_left
         (fun map group =>
            fold_left
              (fun map kp' => map_set kp' (listed kp' map ++ [group]) map)
              (DuplicateGroup.keyPaths group) map)
         active map)
    = map_has kp map
      || existsb (fun g => mem kp (DuplicateGroup.keyPaths g)) active.
Proof.
  induction active as [|g active IH]; intros map.
  - cbn [fold_left flat_map existsb]. now rewrite app_nil_r, orb_false_r.
  - cbn [fold_left flat_map existsb].
    destruct (IH (fold_left
                    (fun map kp' => map_set kp' (listed kp' map ++ [g]) map)
                    (DuplicateGroup.keyPaths g) map)) as [Hl Hh].
    rewrite Hl, Hh.
    destruct (info_added kp g (DuplicateGroup.keyPaths g) map) as [Hl' Hh'].
    rewrite Hl', Hh'. unfold mentions at 2.
    split; [now rewrite <- app_assoc|now rewrite orb_assoc].
Qed.

Lemma duplicateInfo_listed (kp : jsstring) (active : list DuplicateGroup.t) :
  listed kp (duplicateInfo active) = flat_map (mentions kp) active /\
  map_has kp (duplicateInfo active)
  = existsb (fun g => mem kp (DuplicateGroup.keyPaths g)) active.
Proof.
  destruct (duplicateInfo_fold kp active []) as [Hl Hh]. split.
  - exact Hl.
  - exact Hh.
Qed.

Section DuplicateBadges.

Variable toLowerCase : jsstring -> jsstring.

(** X24. The two memoized values behind the duplicate badge agree: a key
    path is in [duplicateKeyPaths] exactly when some active group has it
    among its key paths, which is exactly when [duplicateInfo] has an
    entry for it; the entry lists those groups in their order, each as
    often as it has the key path; and the Duplicates filter shows, of the
    rows that match the search, those with such a key path. *)
Theorem duplicate_badges (active : list DuplicateGroup.t) (kp : jsstring)
    (translations : list Translation.t) (search : jsstring)
    (issues : list (jsstring * KeyIssue.t)) :
  (mem kp (duplicateKeyPaths active) = true
   <-> exists g, In g active /\ In kp (DuplicateGroup.keyPaths g)) /\
  map_has kp (duplicateInfo active) = mem kp (duplicateKeyPaths active) /\
  (forall gs, map_get kp (duplicateInfo active) = Some gs ->
              gs = flat_map (mentions kp) active) /\
  filtered toLowerCase translations search FilterMode.duplicates issues
    (duplicateKeyPaths active)
  = filter (fun t => existsb
                       (fun g => mem (Translation.key_path t)
                                   (DuplicateGroup.keyPaths g)) active)
      (searched toLowerCase search translations).
Proof.
  destruct (duplicateInfo_listed kp active) as [Hl Hh].
  split; [|split; [|split]].
  - rewrite duplicateKeyPaths_mem, existsb_exists.
    split; intros [g [Hg Hkp]]; exists g; (split; [exact Hg|]);
      now apply mem_in.
  - now rewrite Hh, duplicateKeyPaths_mem.
  - intros gs Hgs. unfold listed in Hl. now rewrite Hgs in Hl.
  - unfold filtered. cbv zeta. apply filter_ext. intros t.
    apply duplicateKeyPaths_mem.
Qed.

End DuplicateBadges.

(** *** Which rows are marked *)

Lemma activeDuplicates_in (duplicates : list DuplicateGroup.t)
    (ignored : list jsstring) (g : DuplicateGroup.t) :
  In g (activeDuplicates duplicates ignored) <->
  In g duplicates /\ mem (ignoredKey g) ignored = false.
Proof.
  unfold activeDuplicates. rewrite filter_In, negb_true_iff. reflexivity.
Qed.

(** X25. A row is marked as a duplicate exactly when, in some language,
    its key path belongs to a row whose value is not blank and is held,
    letter for letter, by two rows at least, and the group of that
    language and value has not been ignored. *)
Theorem duplicate_rows (rows : list Translation.t) (ignored : list jsstring)
    (kp : jsstring) :
  mem kp (duplicateKeyPaths (activeDuplicates (findDuplicateValues rows) ignored))
  = true
  <-> exists lang v t,
        In t rows /\ Translation.key_path t = kp /\
        counted_value lang t = Some v /\
        2 <= List.length (paths_with lang v rows) /\
        mem (lang_code lang ++ js "::" ++ v) ignored = false.
Proof.
  rewrite duplicateKeyPaths_mem, existsb_exists. split.
  - intros [g [Hg Hkp]]. apply mem_in in Hkp.
    apply activeDuplicates_in in Hg as [Hg Hig].
    apply findDuplicateValues_in in Hg as (lang & v & _ & Hlen & ->).
    cbn [DuplicateGroup.keyPaths] in Hkp.
    apply paths_with_in in Hkp as (t & Hin & Hk & Hv).
    exists lang, v, t. auto.
  - intros (lang & v & t & Hin & Hk & Hv & Hlen & Hig).
    exists (DuplicateGroup.mk v lang (paths_with lang v rows)). split.
    + apply activeDuplicates_in. split; [|exact Hig].
      apply findDuplicateValues_in. exists lang, v.
      split; [|split; [exact Hlen|reflexivity]].
      apply counted_values_in. now exists t.
    + apply mem_in. cbn [DuplicateGroup.keyPaths].
      apply paths_with_in. now exists t.
Qed.

(** *** Ignoring a group *)

Lemma activeDuplicates_ignore (duplicates : list DuplicateGroup.t)
    (ignored : list jsstring) (g : DuplicateGroup.t) :
  activeDuplicates duplicates (ignore g ignored)
  = filter (fun g' => negb (str_eqb (ignoredKey g') (ignoredKey g)))
      (activeDuplicates duplicates ignored).
Proof.
  unfold activeDuplicates, ignore.
  induction duplicates as [|d duplicates IH]; [reflexivity|].
  cbn [filter]. rewrite mem_set_add, negb_orb.
  destruct (negb (mem (ignoredKey d) ignored)); cbn [andb filter];
    [|exact IH].
  destruct (negb (str_eqb (ignoredKey d) (ignoredKey g))); now rewrite IH.
Qed.

Lemma filter_all {A : Type} (p : A -> bool) (l : list A) :
  (forall x, In x l -> p x = true) -> filter p l = l.
Proof.
  intros H. induction l as [|x l IH]; [reflexivity|].
  cbn [filter]. rewrite (H x) by now left.
  f_equal. apply IH. intros y Hy. apply H. now right.
Qed.

(** The active groups keep keys that differ. *)
Lemma activeDuplicates_keys (duplicates : list DuplicateGroup.t)
    (ignored : list jsstring) :
  NoDup (map ignoredKey duplicates) ->
  NoDup (map ignoredKey (activeDuplicates duplicates ignored)).
Proof.
  unfold activeDuplicates. intros Hnd.
  induction duplicates as [|d duplicates IH]; [constructor|].
  cbn [map] in Hnd. inversion Hnd as [|? ? Hnotin Hrest]; subst.
  cbn [filter]. destruct (negb (mem (ignoredKey d) ignored)); [|now apply IH].
  cbn [map]. constructor; [|now apply IH].
  intros Hin. apply Hnotin.
  apply in_map_iff in Hin as [d' [Hk Hd']].
  apply filter_In in Hd' as [Hd' _].
  rewrite <- Hk. now apply in_map.
Qed.

(** X26. Ignoring a group that is shown hides that group and no other:
    the active groups are what they were, in the same order, without
    it. *)
Theorem ignore_hides_one_group (rows : list Translation.t)
    (ignored : list jsstring) (g : DuplicateGroup.t) :
  In g (activeDuplicates (findDuplicateValues rows) ignored) ->
  exists before after,
    activeDuplicates (findDuplicateValues rows) ignored = before ++ g :: after /\
    activeDuplicates (findDuplicateValues rows) (ignore g ignored)
    = before ++ after.
Proof.
  intros Hin. rewrite activeDuplicates_ignore.
  assert (Hnd : NoDup (map ignoredKey
                         (activeDuplicates (findDuplicateValues rows) ignored))).
  { apply activeDuplicates_keys, findDuplicateValues_keys_nodup. }
  revert Hin Hnd.
  generalize (activeDuplicates (findDuplicateValues rows) ignored) as active.
  intros active Hin Hnd.
  apply in_split in Hin as (before & after & ->).
  exists before, after. split; [reflexivity|].
  rewrite map_app in Hnd. cbn [map] in Hnd.
  assert (Hother : forall g', In g' (before ++ after) ->
                              negb (str_eqb (ignoredKey g') (ignoredKey g)) = true).
  { intros g' Hg'. apply negb_true_iff, str_eqb_neq. intros E.
    apply NoDup_remove_2 in Hnd. apply Hnd. rewrite <- E, <- map_app.
    now apply in_map. }
  rewrite filter_app. cbn [filter]. rewrite str_eqb_refl. cbn [negb].
  rewrite <- filter_app. now apply filter_all.
Qed.

Lemma ignore_hides_one_group_witness :
  exists before after,
    activeDuplicates
      (findDuplicateValues
         [plain_row (js "a") (Some (js "Salam")) (Some (js "Hello")) None None;
          plain_row (js "b") (Some (js "Salam")) (Some (js "Hello")) None None])
      []
    = before ++ DuplicateGroup.mk (js "Hello") en [js "a"; js "b"] :: after /\
    activeDuplicates
      (findDuplicateValues
         [plain_row (js "a") (Some (js "Salam")) (Some (js "Hello")) None None;
          plain_row (js "b") (Some (js "Salam")) (Some (js "Hello")) None None])
      (ignore (DuplicateGroup.mk (js "Hello") en [js "a"; js "b"]) [])
    = before ++ after.
Proof.
  apply (ignore_hides_one_group
           [plain_row (js "a") (Some (js "Salam")) (Some (js "Hello")) None None;
            plain_row (js "b") (Some (js "Salam")) (Some (js "Hello")) None None]
           [] (DuplicateGroup.mk (js "Hello") en [js "a"; js "b"])).
  right. now left.
Defined.

(** *** The rows shown under a group *)

Lemma translationMap_fold (kp : jsstring) (translations : list Translation.t) :
  forall map,
    ~ In kp (List.map Translation.key_path translations) ->
    map_get kp
      (fold_left (fun map t => map_set (Translation.key_path t) t map)
         translations map)
    = map_get kp map.
Proof.
  induction translations as [|t translations IH]; intros map Hnot;
    [reflexivity|].
  cbn [fold_left List.map] in *.
  rewrite IH by (intros H; apply Hnot; now right).
  apply map_get_set_other. intros E. apply Hnot. now left.
Qed.

Lemma translationMap_get (translations : list Translation.t) (t : Translation.t) :
  NoDup (map Translation.key_path translations) -> In t translations ->
  map_get (Translation.key_path t) (translationMap translations) = Some t.
Proof.
  unfold translationMap. generalize (@nil (jsstring * Translation.t)) as m.
  induction translations as [|t' translations IH]; intros m Hnd Hin;
    [destruct Hin|].
  cbn [map] in Hnd. inversion Hnd as [|? ? Hnotin Hnd']; subst.
  cbn [fold_left]. destruct Hin as [->|Hin].
  - rewrite translationMap_fold by exact Hnotin. apply map_get_set_same.
  - now apply IH.
Qed.

Section GroupedDuplicates.

Variable toLowerCase : jsstring -> jsstring.

(** X27. In the Duplicates view without a search, when no two rows share
    a key path, every active group is shown, in order, and the rows under
    it are the rows that hold its value in its language, in their
    order. *)
Theorem groupedDuplicates_rows (rows : list Translation.t)
    (ignored : list jsstring) :
  NoDup (map Translation.key_path rows) ->
  map GroupedDuplicate.group
    (groupedDuplicates toLowerCase FilterMode.duplicates
       (activeDuplicates (findDuplicateValues rows) ignored) rows [])
  = activeDuplicates (findDuplicateValues rows) ignored /\
  Forall (fun shown =>
            GroupedDuplicate.rows shown
            = holders (GroupedDuplicate.group shown) rows)
    (groupedDuplicates toLowerCase FilterMode.duplicates
       (activeDuplicates (findDuplicateValues rows) ignored) rows []).
Proof.
  intros Hnd.
  assert (Hactive : forall g,
             In g (activeDuplicates (findDuplicateValues rows) ignored) ->
             DuplicateGroup.keyPaths g
             = map Translation.key_path (holders g rows) /\
             2 <= List.length (holders g rows)).
  { intros g Hg. apply activeDuplicates_in in Hg as [Hg _].
    apply findDuplicateValues_in in Hg as (lang & v & _ & Hlen & ->).
    cbn [DuplicateGroup.keyPaths]. split; [reflexivity|].
    unfold paths_with in Hlen. now rewrite length_map in Hlen. }
  assert (Hlookup : forall l,
             (forall t, In t l -> In t rows) ->
             flat_map (fun kp => match map_get kp (translationMap rows) with
                                 | Some t => [t]
                                 | None => []
                                 end) (map Translation.key_path l)
             = l).
  { induction l as [|t l IH]; intros Hl; [reflexivity|].
    cbn [map flat_map].
    rewrite (translationMap_get rows t Hnd) by (apply Hl; now left).
    cbn [app]. f_equal. apply IH. intros t' Ht'. apply Hl. now right. }
  revert Hactive.
  generalize (activeDuplicates (findDuplicateValues rows) ignored) as active.
  intros active Hactive.
  unfold groupedDuplicates. cbv zeta. unfold searched. cbn [is_empty].
  match goal with
  | |- context [map ?f active] => set (shown := f)
  end.
  assert (Hrows : forall g, In g active ->
                            GroupedDuplicate.rows (shown g) = holders g rows).
  { intros g Hg. destruct (Hactive g Hg) as [Hpaths _].
    subst shown. cbn [GroupedDuplicate.rows]. rewrite Hpaths.
    apply Hlookup. intros t Ht. now apply filter_In in Ht. }
  rewrite filter_all.
  - split.
    + rewrite map_map. subst shown. cbn [GroupedDuplicate.group]. apply map_id.
    + apply Forall_forall. intros x Hx.
      apply in_map_iff in Hx as [g [<- Hg]]. now apply Hrows.
  - intros x Hx. apply in_map_iff in Hx as [g [<- Hg]].
    rewrite (Hrows g Hg). destruct (Hactive g Hg) as [_ Hlen].
    apply Nat.ltb_lt. lia.
Qed.

End GroupedDuplicates.

Lemma groupedDuplicates_rows_witness :
  map GroupedDuplicate.group
    (groupedDuplicates ascii_toLowerCase FilterMode.duplicates
       (activeDuplicates
          (findDuplicateValues
             [plain_row (js "a") None (Some (js "Hello")) None None;
              plain_row (js "b") None (Some (js "Hello")) None None;
              plain_row (js "c") None (Some (js "World")) None None]) [])
       [plain_row (js "a") None (Some (js "Hello")) None None;
        plain_row (js "b") None (Some (js "Hello")) None None;
        plain_row (js "c") None (Some (js "World")) None None] [])
  = activeDuplicates
      (findDuplicateValues
         [plain_row (js "a") None (Some (js "Hello")) None None;
          plain_row (js "b") None (Some (js "Hello")) None None;
          plain_row (js "c") None (Some (js "World")) None None]) [].
Proof.
  apply (groupedDuplicates_rows ascii_toLowerCase
           [plain_row (js "a") None (Some (js "Hello")) None None;
            plain_row (js "b") None (Some (js "Hello")) None None;
            plain_row (js "c") None (Some (js "World")) None None] []).
  repeat constructor; simpl; intuition discriminate.
Defined.

(** Without that, the rows under a group need not hold its value: of two
    rows with one key path the later one is shown for both. *)
Lemma groupedDuplicates_repeated_key_path :
  map (fun shown => map Translation.en_value (GroupedDuplicate.rows shown))
    (groupedDuplicates ascii_toLowerCase FilterMode.duplicates
       (findDuplicateValues
          [plain_row (js "a") None (Some (js "Hello")) None None;
           plain_row (js "b") None (Some (js "Hello")) None None;
           plain_row (js "a") None (Some (js "Bye")) None None])
       [plain_row (js "a") None (Some (js "Hello")) None None;
        plain_row (js "b") None (Some (js "Hello")) None None;
        plain_row (js "a") None (Some (js "Bye")) None None] [])
  = [[Some (js "Bye"); Some (js "Hello")]].
Proof. reflexivity. Qed.

(** *** Changes of the table *)

Lemma handleUpdate_absent (updated : Translation.t) (prev : list Translation.t) :
  ~ In (Translation.id updated) (map Translation.id prev) ->
  handleUpdate updated prev = prev.
Proof.
  unfold handleUpdate. induction prev as [|t prev IH]; [reflexivity|].
  cbn [map]. intros Hnot.
  assert (E : str_eqb (Translation.id t) (Translation.id updated) = false).
  { apply str_eqb_neq. intros E. apply Hnot. left. exact E. }
  rewrite E, IH by (intros H; apply Hnot; now right). reflexivity.
Qed.

(** X28. The table follows the database by the [id] of the rows.  An
    update replaces every row of that [id] and keeps the places and the
    [id]s of all rows; for an [id] that is not in the table it changes
    nothing, so that a row unknown to the table is not added by it; and
    the deletion of a row that was inserted with a new [id] gives the table
    as it was. *)
Theorem onRealtime_by_id (prev : list Translation.t) (new : Translation.t) :
  map Translation.id (onRealtime (UPDATE new) prev) = map Translation.id prev /\
  (forall t, In t (onRealtime (UPDATE new) prev) ->
             Translation.id t = Translation.id new -> t = new) /\
  (~ In (Translation.id new) (map Translation.id prev) ->
   onRealtime (UPDATE new) prev = prev /\
   onRealtime (DELETE (Translation.id new)) (onRealtime (INSERT new) prev)
   = prev).
Proof.
  cbn [onRealtime]. split; [|split].
  - unfold handleUpdate. rewrite map_map. apply map_ext_in. intros t _.
    destruct (str_eqb (Translation.id t) (Translation.id new)) eqn:E;
      [|reflexivity].
    apply str_eqb_eq in E. now rewrite E.
  - unfold handleUpdate. intros t Hin Hid.
    apply in_map_iff in Hin as [t' [Ht' _]].
    destruct (str_eqb (Translation.id t') (Translation.id new)) eqn:E;
      [now subst|].
    apply str_eqb_neq in E. congruence.
  - intros Hnot. split; [now apply handleUpdate_absent|].
    rewrite filter_app. cbn [filter]. rewrite str_eqb_refl. cbn [negb].
    rewrite app_nil_r. apply filter_all. intros t Hin.
    apply negb_true_iff, str_eqb_neq. intros E. apply Hnot.
    rewrite <- E. now apply in_map.
Qed.

Lemma onRealtime_by_id_witness :
  onRealtime
    (UPDATE (Translation.mk (js "2") [] (js "b") None None None None None None [] []))
    [Translation.mk (js "1") [] (js "a") None None None None None None [] []]
  = [Translation.mk (js "1") [] (js "a") None None None None None None [] []] /\
  onRealtime (DELETE (js "2"))
    (onRealtime
       (INSERT (Translation.mk (js "2") [] (js "b") None None None None None None
                  [] []))
       [Translation.mk (js "1") [] (js "a") None None None None None None [] []])
  = [Translation.mk (js "1") [] (js "a") None None None None None None [] []].
Proof.
  apply (onRealtime_by_id
           [Translation.mk (js "1") [] (js "a") None None None None None None [] []]
           (Translation.mk (js "2") [] (js "b") None None None None None None [] [])).
  simpl. intuition discriminate.
Defined.

(** ** Group extensions through the Figma export *)

#[local] Arguments setExtensionsAt : simpl never.

Lemma setExtensionsAt_here (current extensions : json) :
  setExtensionsAt current [] extensions
  = assign current (js "$extensions") extensions.
Proof. reflexivity. Qed.

Lemma setExtensionsAt_step (current : json) (seg : jsstring)
    (rest : list jsstring) (extensions : json) :
  setExtensionsAt current (seg :: rest) extensions
  = (present <- in_object seg current ;;
     let next :=
       match prop current seg with
       | Some child =>
           if negb present || negb (typeof_object child) then JObj [] else child
       | None => JObj []
       end in
     next' <- setExtensionsAt next rest extensions ;;
     assign current seg next').
Proof. reflexivity. Qed.

(** *** The tree the tokens make *)

Lemma grove_empty : grove (JObj []).
Proof. constructor; [constructor|intros ? ? []|intros ? ? []]. Qed.

Lemma bare_empty : bare (JObj []).
Proof. constructor; [reflexivity|intros ? ? []]. Qed.

Lemma grove_set (props : list (jsstring * json)) (key : jsstring)
    (inner : list (jsstring * json)) :
  grove (JObj props) -> dot_free key = true ->
  (js_in (js "$value") (JObj inner) = false -> grove (JObj inner)) ->
  grove (JObj (map_set key (JObj inner) props)).
Proof.
  intros Hg Hkey Hinner. inversion Hg as [? Hnd Hobj Hbelow]; subst.
  constructor.
  - now apply map_set_nodup.
  - intros k v Hin Hk. apply map_set_in in Hin as [E|Hin]; [|eauto].
    inversion E; subst. split; [exact Hkey|eauto].
  - intros k v Hin Hk Hj. apply map_set_in in Hin as [E|Hin]; [|eauto].
    inversion E; subst. auto.
Qed.

Lemma bare_set (props : list (jsstring * json)) (key : jsstring) (value : json) :
  bare (JObj props) -> key <> js "$extensions" ->
  (js_in (js "$value") value = false -> bare value) ->
  bare (JObj (map_set key value props)).
Proof.
  intros Hb Hkey Hvalue. inversion Hb as [? Hnone Hbelow]; subst.
  constructor.
  - rewrite map_get_set_other by exact Hkey. exact Hnone.
  - intros k v Hin Hj. apply map_set_in in Hin as [E|Hin]; [|eauto].
    inversion E; subst. auto.
Qed.

Lemma setNestedSegments_has (segments : list jsstring) :
  forall (props : list (jsstring * json)) (value out : json) (k : jsstring),
    segments <> [] ->
    setNestedSegments (JObj props) segments value = Ok out ->
    map_has k props = true -> js_in k out = true.
Proof.
  destruct segments as [|seg [|s rest]]; intros props value out k Hne Hset Hk;
    [congruence| |].
  - rewrite setNestedSegments_last in Hset. inversion Hset. cbn [js_in].
    destruct (str_eqb k seg) eqn:E.
    + apply str_eqb_eq in E. subst. apply map_has_set_same.
    + apply str_eqb_neq in E. now rewrite map_has_set.
  - rewrite setNestedSegments_step in Hset. cbn [in_object bind] in Hset.
    match type of Hset with
    | context [setNestedSegments ?n (s :: rest) value] =>
        destruct (setNestedSegments n (s :: rest) value) as [n1|]
    end; [|discriminate].
    cbn [bind assign] in Hset. inversion Hset. cbn [js_in].
    destruct (str_eqb k seg) eqn:E.
    + apply str_eqb_eq in E. subst. apply map_has_set_same.
    + apply str_eqb_neq in E. now rewrite map_has_set.
Qed.

(** Placing a token keeps the tree a grove without group extensions,
    wherever it is placed. *)
Lemma setNestedSegments_grove (segments : list jsstring) :
  forall (tree out : json) (token : list (jsstring * json)),
    grove tree -> bare tree -> segments <> [] ->
    Forall (fun seg => dot_free seg = true /\ seg <> js "$extensions") segments ->
    js_in (js "$value") (JObj token) = true ->
    setNestedSegments tree segments (JObj token) = Ok out ->
    grove out /\ bare out.
Proof.
  induction segments as [|seg segments IH];
    intros tree out token Hg Hb Hne Hsegs Htoken Hset; [congruence|].
  inversion Hsegs as [|? ? [Hdot Hext] Hrest]; subst.
  inversion Hg as [props Hnd Hobj Hbelow]; subst tree.
  destruct segments as [|s segments].
  - rewrite setNestedSegments_last in Hset. inversion Hset. split.
    + apply grove_set; [exact Hg|exact Hdot|congruence].
    + apply bare_set; [exact Hb|exact Hext|congruence].
  - rewrite setNestedSegments_step in Hset. cbn [in_object bind prop] in Hset.
    assert (Hcons : s :: segments <> []) by discriminate.
    assert (Hnext : exists inner,
               match map_get seg props with
               | Some child =>
                   if negb (map_has seg props) || negb (typeof_object child)
                   then JObj [] else child
               | None => JObj []
               end = JObj inner /\
               (js_in (js "$value") (JObj inner) = false ->
                grove (JObj inner) /\ bare (JObj inner)) /\
               (js_in (js "$value") (JObj inner) = true ->
                map_has (js "$value") inner = true)).
    { unfold map_has. destruct (map_get seg props) as [child|] eqn:Hget.
      - pose proof (map_get_in _ _ _ Hget) as Hin.
        destruct (Hobj seg child Hin Hext) as [_ [inner ->]].
        cbn [negb orb typeof_object]. exists inner.
        split; [reflexivity|]. split; [|auto].
        intros Hj. split; [now apply (Hbelow seg _ Hin Hext)|].
        inversion Hb as [? _ Hbare]; subst. now apply (Hbare seg _ Hin).
      - exists []. split; [reflexivity|]. split; [|discriminate].
        intros _. split; [apply grove_empty|apply bare_empty]. }
    destruct Hnext as (inner & Hn & Hgroup & Htok).
    cbv zeta in Hset. rewrite Hn in Hset.
    destruct (setNestedSegments (JObj inner) (s :: segments) (JObj token))
      as [n1|] eqn:En; [|discriminate].
    cbn [bind assign] in Hset. inversion Hset; subst out.
    destruct (setNestedSegments_object _ _ _ _ Hcons En) as [inner' ->].
    assert (Hstay : js_in (js "$value") (JObj inner') = false ->
                    js_in (js "$value") (JObj inner) = false).
    { intros Hj. destruct (js_in (js "$value") (JObj inner)) eqn:Hji;
        [|reflexivity].
      rewrite (setNestedSegments_has _ _ _ _ _ Hcons En (Htok eq_refl)) in Hj.
      discriminate. }
    split.
    + apply grove_set; [exact Hg|exact Hdot|].
      intros Hj. destruct (Hgroup (Hstay Hj)) as [Hgi Hbi].
      apply (IH _ _ _ Hgi Hbi Hcons Hrest Htoken En).
    + apply bare_set; [exact Hb|exact Hext|].
      intros Hj. destruct (Hgroup (Hstay Hj)) as [Hgi Hbi].
      apply (IH _ _ _ Hgi Hbi Hcons Hrest Htoken En).
Qed.

(** *** Setting the extensions of one group *)

Lemma tokens_set (props : list (jsstring * json)) (key : jsstring) (value : json) :
  match map_get key props with
  | Some old => entry_tokens (tokens value) key value
                = entry_tokens (tokens old) key old
  | None => entry_tokens (tokens value) key value = []
  end ->
  tokens (JObj (map_set key value props)) = tokens (JObj props).
Proof.
  destruct (map_get key props) as [old|] eqn:E; intros H.
  - destruct (map_set_split _ _ _ E) as (l1 & l2 & -> & Hset).
    now rewrite Hset, !tokens_split, H.
  - rewrite (map_set_absent _ _ _ E), tokens_snoc, H. apply app_nil_r.
Qed.

Lemma ext_from_empty (names : list jsstring) : ext_from (JObj []) names = None.
Proof. now destruct names. Qed.

Lemma ext_from_cons (node child : json) (key : jsstring) (names : list jsstring) :
  prop node key = Some child -> is_group key child = true ->
  ext_from node (key :: names) = ext_from child names.
Proof. intros Hp Hg. unfold ext_from. cbn [group_at]. now rewrite Hp, Hg. Qed.

Lemma ext_from_missing (node : json) (key : jsstring) (names : list jsstring) :
  prop node key = None -> ext_from node (key :: names) = None.
Proof. intros Hp. unfold ext_from. cbn [group_at]. now rewrite Hp. Qed.

Lemma ext_from_other (node node' : json) (key : jsstring) (names : list jsstring) :
  prop node' key = prop node key ->
  ext_from node' (key :: names) = ext_from node (key :: names).
Proof. intros Hp. unfold ext_from. cbn [group_at]. now rewrite Hp. Qed.

Lemma is_group_object (key : jsstring) (inner : list (jsstring * json)) :
  key <> js "$extensions" -> map_has (js "$value") inner = false ->
  is_group key (JObj inner) = true.
Proof.
  intros Hk Hv. unfold is_group. apply str_eqb_neq in Hk.
  cbn [is_object js_in]. now rewrite Hk, Hv.
Qed.

(** Setting the extensions of the group at [segments] in a grove, when no
    token lies on the way: the tokens stay, the group has the extensions,
    and every other group has what it had. *)
Lemma setExtensionsAt_grove (segments : list jsstring) :
  forall (props : list (jsstring * json)) (extensions : json),
    grove (JObj props) ->
    Forall (fun seg => dot_free seg = true /\ seg <> js "$extensions" /\
                       seg <> js "$value") segments ->
    (forall token, In token (tokens (JObj props)) ->
                   ~ is_prefix (fst token) segments) ->
    truthy extensions = true ->
    exists out,
      setExtensionsAt (JObj props) segments extensions = Ok (JObj out) /\
      grove (JObj out) /\
      (forall k, k <> js "$extensions" -> k <> hd (js "$extensions") segments ->
                 map_get k out = map_get k props) /\
      tokens (JObj out) = tokens (JObj props) /\
      ext_from (JObj out) segments = Some extensions /\
      (forall names, names <> segments ->
                     ext_from (JObj out) names = ext_from (JObj props) names).
Proof.
  induction segments as [|seg rest IH];
    intros props extensions Hg Hsegs Htokens Htruthy.
  - rewrite setExtensionsAt_here. cbn [assign].
    exists (map_set (js "$extensions") extensions props).
    inversion Hg as [? Hnd Hobj Hbelow]; subst.
    split; [reflexivity|]. split; [|split; [|split; [|split]]].
    + constructor.
      * now apply map_set_nodup.
      * intros k v Hin Hk. apply map_set_in in Hin as [E|Hin]; [|eauto].
        inversion E; congruence.
      * intros k v Hin Hk. apply map_set_in in Hin as [E|Hin]; [|eauto].
        inversion E; congruence.
    + intros k Hk _. apply map_get_set_other. congruence.
    + apply tokens_set. unfold entry_tokens. rewrite str_eqb_refl.
      now destruct (map_get (js "$extensions") props).
    + unfold ext_from, carried_extensions. cbn [group_at prop].
      now rewrite map_get_set_same, Htruthy.
    + intros [|k names] Hne; [congruence|].
      destruct (str_eqb k (js "$extensions")) eqn:Ek.
      * apply str_eqb_eq in Ek. subst k. unfold ext_from. cbn [group_at prop].
        rewrite map_get_set_same. unfold is_group. rewrite str_eqb_refl.
        cbn [negb andb].
        destruct (map_get (js "$extensions") props); reflexivity.
      * apply str_eqb_neq in Ek. apply ext_from_other. cbn [prop].
        apply map_get_set_other. congruence.
  - inversion Hsegs as [|? ? (Hdot & Hext & Hval) Hrest]; subst.
    inversion Hg as [? Hnd Hobj Hbelow]; subst.
    rewrite setExtensionsAt_step. cbn [in_object bind prop]. cbv zeta.
    assert (Hnext : exists inner,
               match map_get seg props with
               | Some child =>
                   if negb (map_has seg props) || negb (typeof_object child)
                   then JObj [] else child
               | None => JObj []
               end = JObj inner /\
               grove (JObj inner) /\
               map_has (js "$value") inner = false /\
               (forall token, In token (tokens (JObj inner)) ->
                              ~ is_prefix (fst token) rest) /\
               match map_get seg props with
               | Some old =>
                   entry_tokens (tokens (JObj inner)) seg (JObj inner)
                   = entry_tokens (tokens old) seg old
               | None => tokens (JObj inner) = []
               end /\
               (forall names, ext_from (JObj props) (seg :: names)
                              = ext_from (JObj inner) names)).
    { unfold map_has. destruct (map_get seg props) as [child|] eqn:Hget.
      - pose proof (map_get_in _ _ _ Hget) as Hin.
        destruct (Hobj seg child Hin Hext) as [_ [inner ->]].
        cbn [negb orb typeof_object]. exists inner.
        assert (Hj : js_in (js "$value") (JObj inner) = false).
        { destruct (js_in (js "$value") (JObj inner)) eqn:Hj; [|reflexivity].
          exfalso. apply (Htokens ([seg], JObj inner)).
          - apply in_tokens. exists seg, (JObj inner).
            split; [exact Hin|]. split.
            + split; [now apply str_eqb_neq|reflexivity].
            + left. auto.
          - exists rest. reflexivity. }
        split; [reflexivity|]. split; [now apply (Hbelow seg _ Hin Hext)|].
        split; [exact Hj|]. split; [|split; [reflexivity|]].
        + intros [names token] Hin' Hpre.
          apply (Htokens (seg :: names, token)).
          * apply in_tokens. exists seg, (JObj inner).
            split; [exact Hin|]. split.
            -- split; [now apply str_eqb_neq|reflexivity].
            -- right. split; [exact Hj|]. now exists names.
          * cbn [fst] in *. now apply is_prefix_cons.
        + intros names. apply ext_from_cons; [exact Hget|].
          now apply is_group_object.
      - exists []. split; [reflexivity|]. split; [apply grove_empty|].
        split; [reflexivity|]. split; [intros ? []|]. split; [reflexivity|].
        intros names. rewrite ext_from_empty. now apply ext_from_missing. }
    destruct Hnext as (inner & Hn & Hgi & Hvi & Hti & Htok & Hexti).
    rewrite Hn.
    destruct (IH inner extensions Hgi Hrest Hti Htruthy)
      as (out' & Hset & Hgo & Hkeys & Htokens' & Hhere & Hothers).
    rewrite Hset. cbn [bind assign].
    exists (map_set seg (JObj out') props).
    assert (Hvo : map_has (js "$value") out' = false).
    { unfold map_has in *. rewrite Hkeys; [exact Hvi|discriminate|].
      destruct rest as [|s rest']; [discriminate|].
      inversion Hrest as [|? ? (_ & _ & Hs) _]; subst. cbn [hd]. congruence. }
    split; [reflexivity|]. split; [|split; [|split; [|split]]].
    + apply grove_set; [exact Hg|exact Hdot|]. intros _. exact Hgo.
    + intros k _ Hk. cbn [hd] in Hk. apply map_get_set_other. congruence.
    + apply tokens_set. destruct (map_get seg props) as [old|].
      * rewrite <- Htok.
        rewrite !entry_tokens_group by (try assumption; reflexivity).
        now rewrite Htokens'.
      * rewrite entry_tokens_group by (try assumption; reflexivity).
        now rewrite Htokens', Htok.
    + rewrite (ext_from_cons _ (JObj out')); [exact Hhere| |].
      * cbn [prop]. apply map_get_set_same.
      * now apply is_group_object.
    + intros [|k names] Hne.
      * unfold ext_from, carried_extensions. cbn [group_at prop].
        rewrite map_get_set_other; [reflexivity|exact Hext].
      * destruct (str_eqb k seg) eqn:Ek.
        -- apply str_eqb_eq in Ek. subst k.
           rewrite (ext_from_cons _ (JObj out')).
           ++ rewrite Hexti. apply Hothers. congruence.
           ++ cbn [prop]. apply map_get_set_same.
           ++ now apply is_group_object.
        -- apply str_eqb_neq in Ek. apply ext_from_other. cbn [prop].
           apply map_get_set_other. congruence.
Qed.

(** *** Setting the extensions of every group *)

Lemma find_extension_in (path : jsstring) (ges : list GroupExtension.t)
    (ge : GroupExtension.t) :
  find_extension path ges = Some ge ->
  In ge ges /\ GroupExtension.group_path ge = path.
Proof.
  intros H. apply find_some in H as [Hin Hp]. now apply str_eqb_eq in Hp.
Qed.

Lemma find_extension_none (path : jsstring) (ges : list GroupExtension.t) :
  ~ In path (map GroupExtension.group_path ges) -> find_extension path ges = None.
Proof.
  intros Hnot. unfold find_extension.
  destruct (find _ ges) as [ge|] eqn:E; [|reflexivity].
  apply find_some in E as [Hin Hp]. apply str_eqb_eq in Hp.
  exfalso. apply Hnot. rewrite <- Hp. now apply in_map.
Qed.

Lemma find_extension_unique (ges : list GroupExtension.t) (ge : GroupExtension.t) :
  NoDup (map GroupExtension.group_path ges) -> In ge ges ->
  find_extension (GroupExtension.group_path ge) ges = Some ge.
Proof.
  unfold find_extension. induction ges as [|g ges IH]; intros Hnd Hin;
    [destruct Hin|].
  inversion Hnd as [|? ? Hnotin Hnd']; subst. cbn [find].
  destruct Hin as [->|Hin]; [now rewrite str_eqb_refl|].
  destruct (str_eqb (GroupExtension.group_path g)
              (GroupExtension.group_path ge)) eqn:E; [|now apply IH].
  apply str_eqb_eq in E. exfalso. apply Hnotin. rewrite E. now apply in_map.
Qed.

(** Applying group extensions with different paths to a grove, when no
    token lies on the way to a group. *)
Lemma applyGroupExtensions_grove (ges : list GroupExtension.t)
    (found : list (list jsstring * json)) :
  forall props : list (jsstring * json),
    grove (JObj props) -> map_get [] props = None ->
    tokens (JObj props) = found ->
    NoDup (map GroupExtension.group_path ges) ->
    Forall (fun ge =>
              hd [] (split_dot (GroupExtension.group_path ge)) <> [] /\
              Forall group_segment (split_dot (GroupExtension.group_path ge)) /\
              truthy (GroupExtension.extensions ge) = true /\
              (forall token, In token found ->
                 ~ is_prefix (fst token)
                     (split_dot (GroupExtension.group_path ge)))) ges ->
    exists out,
      applyGroupExtensions (JObj props) ges = Ok (JObj out) /\
      grove (JObj out) /\ map_get [] out = None /\
      tokens (JObj out) = found /\
      forall path,
        ext_from (JObj out) (split_dot path)
        = match find_extension path ges with
          | Some ge => Some (GroupExtension.extensions ge)
          | None => ext_from (JObj props) (split_dot path)
          end.
Proof.
  induction ges as [|ge ges IH]; intros props Hg Hroot Htokens Hnd Hall.
  - exists props. split; [reflexivity|]. split; [exact Hg|].
    split; [exact Hroot|]. split; [exact Htokens|reflexivity].
  - inversion Hnd as [|p0 l0 Hnotin Hnd']; subst p0 l0.
    inversion Hall as [|g0 l0 (Hhd & Hsegs & Htruthy & Hway) Hall']; subst g0 l0.
    subst found.
    destruct (setExtensionsAt_grove (split_dot (GroupExtension.group_path ge))
                props (GroupExtension.extensions ge) Hg)
      as (out1 & Hset & Hg1 & Hkeys & Htokens1 & Hhere & Hothers);
      [| exact Hway | exact Htruthy |].
    { pose proof (split_dot_dot_free (GroupExtension.group_path ge)) as Hdots.
      rewrite Forall_forall in *. intros seg Hin.
      destruct (Hsegs seg Hin) as (H1 & H2 & _). auto. }
    destruct (IH out1 Hg1) as (out & Happly & Hgo & Hrooto & Htokenso & Hext);
      [| exact Htokens1 | exact Hnd' | exact Hall' |].
    { rewrite Hkeys; [exact Hroot|discriminate|].
      destruct (split_dot (GroupExtension.group_path ge)); [discriminate|].
      cbn [hd] in *. congruence. }
    exists out. split; [|split; [exact Hgo|split; [exact Hrooto|split;
                                                     [congruence|]]]].
    + unfold applyGroupExtensions in *. cbn [fold_left bind].
      rewrite Hset. exact Happly.
    + intros path. rewrite Hext. unfold find_extension. cbn [find].
      fold (find_extension path ges).
      destruct (str_eqb (GroupExtension.group_path ge) path) eqn:E.
      * apply str_eqb_eq in E. subst path.
        rewrite (find_extension_none _ _ Hnotin). exact Hhere.
      * apply str_eqb_neq in E.
        destruct (find_extension path ges); [reflexivity|].
        apply Hothers. intros Heq. apply E. symmetry.
        now apply split_dot_injective.
Qed.

(** *** The groups the flattener meets in a grove *)

Lemma groups_entries (node : json) :
  groups node
  = flat_map (fun e => entry_groups (groups (snd e)) (fst e) (snd e)) (entries node).
Proof.
  destruct node as [| | | |items|props]; try reflexivity.
  - cbn [groups entries]. generalize 0 as i.
    induction items as [|value items IH]; intros i; [reflexivity|].
    cbn [indexed flat_map fst snd]. now rewrite <- IH.
  - cbn [groups entries].
    induction props as [|[key value] props IH]; [reflexivity|].
    cbn [flat_map fst snd]. now rewrite <- IH.
Qed.

Lemma entry_groups_in (below : list (list jsstring * json)) (key : jsstring)
    (value : json) (names : list jsstring) (g : json) :
  In (names, g) (entry_groups below key value) <->
  is_group key value = true /\
  ((names = [key] /\ g = value) \/
   exists rest, names = key :: rest /\ In (rest, g) below).
Proof.
  unfold entry_groups, is_group.
  destruct (str_eqb key (js "$extensions")); cbn [negb andb];
    [split; [intros []|intros [H _]; discriminate]|].
  destruct (is_object value); cbn [negb andb];
    [|split; [intros []|intros [H _]; discriminate]].
  destruct (js_in (js "$value") value); cbn [negb];
    [split; [intros []|intros [H _]; discriminate]|].
  split.
  - intros [E|Hin]; (split; [reflexivity|]).
    + inversion E. now left.
    + apply in_map_iff in Hin as [[rest g'] [E Hin]]. inversion E. subst.
      right. now exists rest.
  - intros [_ [[-> ->]|[rest [-> Hin]]]]; [now left|right].
    apply in_map_iff. now exists (rest, g).
Qed.

Lemma is_group_not_token (key : jsstring) (value : json) :
  is_group key value = true ->
  key <> js "$extensions" /\ js_in (js "$value") value = false.
Proof.
  unfold is_group. intros H.
  apply andb_true_iff in H as [H Hv]. apply andb_true_iff in H as [Hk _].
  apply negb_true_iff in Hk, Hv. now apply str_eqb_neq in Hk.
Qed.

(** A group the flattener meets in a grove is the one its names lead to. *)
Lemma groups_group_at (names : list jsstring) :
  forall (props : list (jsstring * json)) (g : json),
    grove (JObj props) -> In (names, g) (groups (JObj props)) ->
    names <> [] /\ group_at (JObj props) names = Some g /\
    Forall (fun seg => dot_free seg = true) names /\
    map_has (hd [] names) props = true.
Proof.
  induction names as [|name names IH]; intros props g Hg Hin;
    rewrite groups_entries, in_flat_map in Hin;
    destruct Hin as [[key value] [Hentry Hin]]; cbn [fst snd entries] in *;
    apply entry_groups_in in Hin as [Hgroup Hcase].
  - destruct Hcase as [[E _]|[rest [E _]]]; discriminate.
  - inversion Hg as [? Hnd Hobj Hbelow]; subst.
    destruct (is_group_not_token _ _ Hgroup) as [Hkey Hvalue].
    destruct (Hobj key value Hentry Hkey) as [Hdot [inner ->]].
    assert (Hname : name = key)
      by (destruct Hcase as [[E _]|[rest [E _]]]; now inversion E).
    subst name. split; [discriminate|].
    cbn [group_at prop hd].
    rewrite (map_get_unique _ _ _ Hnd Hentry), Hgroup.
    split; [|split; [|exact (map_get_some_in _ _ _ Hentry)]].
    + destruct Hcase as [[E ->]|[rest [E Hin]]]; inversion E; subst;
        [reflexivity|].
      now apply (IH inner g (Hbelow key _ Hentry Hkey Hvalue)).
    + constructor; [exact Hdot|].
      destruct Hcase as [[E ->]|[rest [E Hin]]]; inversion E; subst;
        [constructor|].
      now apply (IH inner g (Hbelow key _ Hentry Hkey Hvalue)).
Qed.

(** The group that names lead to is met by the flattener. *)
Lemma group_at_groups (names : list jsstring) :
  forall (node g : json),
    names <> [] -> group_at node names = Some g -> In (names, g) (groups node).
Proof.
  induction names as [|name names IH]; intros node g Hne Hat; [congruence|].
  cbn [group_at] in Hat.
  destruct (prop node name) as [child|] eqn:Hp; [|discriminate].
  destruct (is_group name child) eqn:Hgroup; [|discriminate].
  destruct node as [| | | | |props]; try discriminate. cbn [prop] in Hp.
  rewrite groups_entries, in_flat_map. exists (name, child).
  split; [now apply map_get_in|]. cbn [fst snd].
  apply entry_groups_in. split; [exact Hgroup|].
  destruct names as [|n names].
  - left. cbn [group_at] in Hat. inversion Hat. auto.
  - right. exists (n :: names). split; [reflexivity|].
    apply IH; [discriminate|exact Hat].
Qed.

Lemma record_all_same (path : jsstring) (g ext : json)
    (found : list (jsstring * json)) :
  (forall c, In (path, c) found -> c = g) ->
  carried_extensions g = Some ext ->
  forall gs : GroupMap,
    In (path, g) found \/ map_get path gs = Some (GroupExt.mk path ext) ->
    map_get path (record_all found gs) = Some (GroupExt.mk path ext).
Proof.
  intros Hsame Hext.
  induction found as [|[p c] found IH]; intros gs Hstart.
  - destruct Hstart as [[]|H]. exact H.
  - unfold record_all in *. cbn [fold_left fst snd].
    apply IH; [intros c' Hin; apply Hsame; now right|].
    rewrite recordGroup_carried.
    destruct (str_eqb p path) eqn:E.
    + apply str_eqb_eq in E. subst p.
      rewrite (Hsame c) by now left. rewrite Hext.
      right. apply map_get_set_same.
    + apply str_eqb_neq in E.
      destruct Hstart as [[H|H]|H]; [inversion H; congruence|now left|right].
      destruct (carried_extensions c); [|exact H].
      now rewrite map_get_set_other.
Qed.

Lemma flattenOne_groupExtensions (lang : Lang) (tree : json) :
  FlattenResult.groupExtensions (flattenOne lang tree)
  = map snd (record_all (language_groups tree) []).
Proof.
  destruct lang; cbn [flattenOne]; rewrite flattenJsons_groupExtensions;
    unfold group_occurrences; cbn [language_groups truthy app];
    now rewrite ?app_nil_r.
Qed.

(** In a grove with no empty name at the top, the groups under a path are
    the one its segments lead to. *)
Lemma language_groups_at (props : list (jsstring * json)) (path : jsstring)
    (g : json) :
  grove (JObj props) -> map_get [] props = None ->
  (In (path, g) (language_groups (JObj props))
   <-> group_at (JObj props) (split_dot path) = Some g).
Proof.
  intros Hg Hroot. unfold language_groups. cbn [truthy].
  assert (Hhead : forall names c,
             In (names, c) (groups (JObj props)) -> hd [] names <> []).
  { intros names c Hin Hhd.
    destruct (groups_group_at names props c Hg Hin) as (_ & _ & _ & Hhas).
    rewrite Hhd in Hhas. unfold map_has in Hhas. now rewrite Hroot in Hhas. }
  rewrite in_map_iff. split.
  - intros [[names c] [E Hin]]. cbn [fst snd] in E. inversion E; subst c.
    destruct (groups_group_at names props g Hg Hin) as (Hne & Hat & Hdots & _).
    rewrite path_from_join by now apply (Hhead names g).
    now rewrite split_join.
  - intros Hat. exists (split_dot path, g).
    apply group_at_groups in Hat; [|apply split_dot_nonempty].
    split; [|exact Hat]. cbn [fst snd].
    rewrite path_from_join by now apply (Hhead _ g).
    now rewrite join_split.
Qed.

(** Flattening a grove brings back, under every path, the extensions of
    the group there. *)
Lemma flattenOne_find_group (lang : Lang) (props : list (jsstring * json))
    (path : jsstring) :
  grove (JObj props) -> map_get [] props = None ->
  find_group path (FlattenResult.groupExtensions (flattenOne lang (JObj props)))
  = option_map (GroupExt.mk path) (ext_from (JObj props) (split_dot path)).
Proof.
  intros Hg Hroot. rewrite flattenOne_groupExtensions.
  rewrite find_group_keyed by (apply record_all_keyed; constructor).
  pose proof (language_groups_at props path) as Hat.
  unfold ext_from.
  destruct (group_at (JObj props) (split_dot path)) as [g|] eqn:E.
  - destruct (carried_extensions g) as [ext|] eqn:Hext; cbn [option_map].
    + apply (record_all_same path g ext); [|exact Hext|].
      * intros c Hin. apply (Hat c Hg Hroot) in Hin. congruence.
      * left. now apply (Hat g Hg Hroot).
    + rewrite record_all_without; [reflexivity|].
      intros c Hin. apply (Hat c Hg Hroot) in Hin. congruence.
  - cbn [option_map]. rewrite record_all_without; [reflexivity|].
    intros c Hin. apply (Hat c Hg Hroot) in Hin. discriminate.
Qed.

Lemma flattenOne_in_groupExtensions (lang : Lang) (tree : json) (g : GroupExt.t) :
  In g (FlattenResult.groupExtensions (flattenOne lang tree)) <->
  find_group (GroupExt.group_path g)
    (FlattenResult.groupExtensions (flattenOne lang tree)) = Some g.
Proof.
  rewrite flattenOne_groupExtensions.
  set (G := record_all (language_groups tree) []).
  assert (Hk : group_keyed G) by (apply record_all_keyed; constructor).
  assert (Hnd : NoDup (map fst G)) by (apply record_all_nodup; constructor).
  rewrite (find_group_keyed _ _ Hk). split.
  - intros Hin. apply in_map_iff in Hin as [[k g'] [E Hin]].
    cbn [snd] in E. subst g'.
    pose proof (proj1 (Forall_forall _ _) Hk _ Hin) as Hkey.
    cbn [fst snd] in Hkey. rewrite Hkey. now apply map_get_unique.
  - intros H. apply map_get_in in H. apply in_map_iff.
    now exists (GroupExt.group_path g, g).
Qed.

(** *** The round trip *)

Lemma bare_ext_from (names : list jsstring) :
  forall node, bare node -> ext_from node names = None.
Proof.
  induction names as [|name names IH]; intros node Hb;
    inversion Hb as [props Hnone Hbelow]; subst.
  - unfold ext_from, carried_extensions. cbn [group_at prop]. now rewrite Hnone.
  - unfold ext_from. cbn [group_at prop].
    destruct (map_get name props) as [child|] eqn:Hget; [|reflexivity].
    destruct (is_group name child) eqn:Hgroup; [|reflexivity].
    apply is_group_not_token in Hgroup as [_ Hvalue].
    apply map_get_in in Hget.
    apply (IH child). now apply (Hbelow name).
Qed.

Lemma setNestedSegments_top (props : list (jsstring * json)) (seg : jsstring)
    (rest : list jsstring) (value out : json) :
  setNestedSegments (JObj props) (seg :: rest) value = Ok out ->
  exists value', out = JObj (map_set seg value' props).
Proof.
  destruct rest as [|s rest].
  - rewrite setNestedSegments_last. cbn [assign]. intros H. inversion H. eauto.
  - rewrite setNestedSegments_step. cbn [in_object bind]. cbv zeta.
    match goal with
    | |- context [setNestedSegments ?n (s :: rest) value] =>
        destruct (setNestedSegments n (s :: rest) value) as [n1|]
    end; [|discriminate].
    cbn [bind assign]. intros H. inversion H. eauto.
Qed.

Lemma place_from_error (items : list (list jsstring * json)) :
  fold_left (fun acc item =>
               t <- acc ;; setNestedSegments t (fst item) (snd item))
    items TypeError
  = TypeError.
Proof. induction items as [|item items IH]; [reflexivity|exact IH]. Qed.

(** Placing tokens one after the other grows a grove without group
    extensions and without an empty name at the top. *)
Lemma place_all_grove (items : list (list jsstring * json)) :
  forall (props : list (jsstring * json)) (out : json),
    grove (JObj props) -> bare (JObj props) -> map_get [] props = None ->
    Forall (fun item =>
              hd [] (fst item) <> [] /\
              Forall (fun seg => dot_free seg = true /\ seg <> js "$extensions")
                (fst item) /\
              exists token, snd item = JObj token /\
                            js_in (js "$value") (JObj token) = true) items ->
    fold_left (fun acc item =>
                 t <- acc ;; setNestedSegments t (fst item) (snd item))
      items (Ok (JObj props))
    = Ok out ->
    exists props', out = JObj props' /\ grove out /\ bare out /\
                   map_get [] props' = None.
Proof.
  induction items as [|[segments value] items IH];
    intros props out Hg Hb Hroot Hall Hfold.
  - cbn [fold_left] in Hfold. inversion Hfold. now exists props.
  - inversion Hall as [|i0 l0 (Hhd & Hsegs & token & Hvalue & Htoken) Hall'];
      subst i0 l0.
    cbn [fst snd] in *. subst value. cbn [fold_left bind fst snd] in Hfold.
    destruct (setNestedSegments (JObj props) segments (JObj token))
      as [t1|] eqn:Hset; [|now rewrite place_from_error in Hfold].
    destruct segments as [|seg rest]; [now cbn [hd] in Hhd|].
    assert (Hcons : seg :: rest <> []) by discriminate.
    destruct (setNestedSegments_grove _ _ _ _ Hg Hb Hcons Hsegs Htoken Hset)
      as [Hg1 Hb1].
    destruct (setNestedSegments_top _ _ _ _ _ Hset) as [value' ->].
    apply (IH _ out Hg1 Hb1); [|exact Hall'|exact Hfold].
    cbn [hd] in Hhd. rewrite map_get_set_other; [exact Hroot|exact Hhd].
Qed.

Lemma figma_placements_sound (lang : Lang) (rows : list Translation.t) :
  exportable lang rows ->
  Forall (fun item =>
            hd [] (fst item) <> [] /\
            Forall (fun seg => dot_free seg = true /\ seg <> js "$extensions")
              (fst item) /\
            exists token, snd item = JObj token /\
                          js_in (js "$value") (JObj token) = true)
    (figma_placements lang rows).
Proof.
  intros [_ Hitems]. rewrite Forall_forall in *. intros item Hin.
  destruct (Hitems item Hin) as ((_ & Hext & _) & Hhd & _).
  split; [exact Hhd|]. split.
  - apply figma_placements_in in Hin as (t & v & _ & _ & ->). cbn [fst] in *.
    pose proof (split_dot_dot_free (Translation.key_path t)) as Hdots.
    rewrite Forall_forall in *. intros seg Hseg. auto.
  - apply figma_placements_in in Hin as (t & v & _ & _ & ->). cbn [snd].
    apply figmaExportToken_token.
Qed.

Lemma flattenOne_rows_tokens (lang : Lang) (props props' : list (jsstring * json)) :
  tokens (JObj props') = tokens (JObj props) ->
  FlattenResult.rows (flattenOne lang (JObj props'))
  = FlattenResult.rows (flattenOne lang (JObj props)).
Proof.
  intros Htokens.
  assert (Hrows : forall tree,
             FlattenResult.rows (flattenOne lang tree)
             = map snd (merge_all (language_tokens lang tree) [])).
  { intros tree. rewrite <- occurrences_one.
    destruct lang; cbn [flattenOne]; apply flattenJsons_rows. }
  now rewrite !Hrows, !language_tokens_map, Htokens.
Qed.

(** X29. Group extensions survive the Figma export and the import.  When
    the rows can be exported and read back, the group paths differ, none
    has an empty first segment or a segment [$extensions], [$value] or
    [__proto__], none runs through the key path of a row with a value, and
    every payload is truthy, then [buildFigmaJson] returns a tree that,
    flattened, has under every key path the row of the export without
    group extensions, and has for group extensions the given ones, each
    under its group path, and no other. *)
Theorem figma_export_reimport_groups (lang : Lang) (rows : list Translation.t)
    (groupExtensions : list GroupExtension.t) :
  exportable lang rows -> groups_exportable lang rows groupExtensions ->
  exists bare_tree tree,
    buildFigmaJson rows [] lang = Ok bare_tree /\
    buildFigmaJson rows groupExtensions lang = Ok tree /\
    (forall path,
        find_row path (FlattenResult.rows (flattenOne lang tree))
        = find_row path (FlattenResult.rows (flattenOne lang bare_tree))) /\
    (forall path,
        find_group path (FlattenResult.groupExtensions (flattenOne lang tree))
        = option_map
            (fun ge => GroupExt.mk path (GroupExtension.extensions ge))
            (find_extension path groupExtensions)) /\
    (forall g,
        In g (FlattenResult.groupExtensions (flattenOne lang tree)) <->
        exists ge, In ge groupExtensions /\
                   g = GroupExt.mk (GroupExtension.group_path ge)
                         (GroupExtension.extensions ge)).
Proof.
  intros Hexp [Hnd Hall].
  destruct (figma_grown lang rows Hexp) as (tree0 & Hbuild0 & _ & Hperm & _).
  pose proof (figma_placements_sound lang rows Hexp) as Hsound.
  unfold buildFigmaJson in *. rewrite figma_fold_placements in *.
  destruct (fold_left _ (figma_placements lang rows) (Ok (JObj [])))
    as [grown|] eqn:Hfold; [|discriminate].
  cbn [bind applyGroupExtensions fold_left] in Hbuild0.
  inversion Hbuild0; subst grown.
  destruct (place_all_grove _ [] tree0 grove_empty bare_empty eq_refl Hsound Hfold)
    as (props0 & -> & Hg0 & Hb0 & Hroot0).
  destruct (applyGroupExtensions_grove groupExtensions (tokens (JObj props0))
              props0 Hg0 Hroot0 eq_refl Hnd)
    as (out & Happly & Hgo & Hrooto & Htokens & Hext).
  { eapply Forall_impl; [|exact Hall].
    intros ge (Hhd & Hsegs & Htruthy & Hway).
    split; [exact Hhd|]. split; [exact Hsegs|]. split; [exact Htruthy|].
    intros token Hin. apply Hway.
    now apply (Permutation_in _ Hperm). }
  assert (Hfind : forall path,
             find_group path
               (FlattenResult.groupExtensions (flattenOne lang (JObj out)))
             = option_map
                 (fun ge => GroupExt.mk path (GroupExtension.extensions ge))
                 (find_extension path groupExtensions)).
  { intros path. rewrite (flattenOne_find_group lang out path Hgo Hrooto), Hext.
    destruct (find_extension path groupExtensions); [reflexivity|].
    now rewrite (bare_ext_from _ _ Hb0). }
  exists (JObj props0), (JObj out). cbn [bind].
  split; [reflexivity|]. split; [exact Happly|].
  split; [intros path; now rewrite (flattenOne_rows_tokens lang props0 out)|].
  split; [exact Hfind|].
  intros g. rewrite flattenOne_in_groupExtensions, Hfind. split.
  - destruct (find_extension (GroupExt.group_path g) groupExtensions)
      as [ge|] eqn:E; [|discriminate].
    apply find_extension_in in E as [Hin Hp]. cbn [option_map].
    intros H. inversion H as [Hg]. exists ge. split; [exact Hin|].
    rewrite Hp. now rewrite Hg.
  - intros (ge & Hin & ->). cbn [GroupExt.group_path].
    now rewrite (find_extension_unique _ _ Hnd Hin).
Qed.

Lemma figma_export_reimport_groups_witness :
  exists bare_tree tree,
    buildFigmaJson
      [plain_row (js "home.title") None (Some (js "Hello")) None
         (Some (js "string"));
       plain_row (js "about") (Some (js "Haqqinda")) None None None]
      [] en
    = Ok bare_tree /\
    buildFigmaJson
      [plain_row (js "home.title") None (Some (js "Hello")) None
         (Some (js "string"));
       plain_row (js "about") (Some (js "Haqqinda")) None None None]
      [GroupExtension.mk [] [] (js "home") (JObj [(js "mode", JStr (js "dark"))]);
       GroupExtension.mk [] [] (js "about") (JObj [(js "mode", JStr (js "light"))])]
      en
    = Ok tree /\
    find_row (js "home.title") (FlattenResult.rows (flattenOne en tree))
    = find_row (js "home.title") (FlattenResult.rows (flattenOne en bare_tree)) /\
    find_group (js "home") (FlattenResult.groupExtensions (flattenOne en tree))
    = Some (GroupExt.mk (js "home") (JObj [(js "mode", JStr (js "dark"))])) /\
    find_group (js "home.title")
      (FlattenResult.groupExtensions (flattenOne en tree))
    = None.
Proof.
  destruct (figma_export_reimport_groups en
              [plain_row (js "home.title") None (Some (js "Hello")) None
                 (Some (js "string"));
               plain_row (js "about") (Some (js "Haqqinda")) None None None]
              [GroupExtension.mk [] [] (js "home")
                 (JObj [(js "mode", JStr (js "dark"))]);
               GroupExtension.mk [] [] (js "about")
                 (JObj [(js "mode", JStr (js "light"))])])
    as (bare_tree & tree & Hbare & Hbuild & Hrows & Hfind & _).
  - split.
    + split.
      * repeat constructor; simpl; intuition discriminate.
      * intros a b Ha Hb [c Hc]. simpl in Ha, Hb.
        destruct Ha as [<-|[]], Hb as [<-|[]]; reflexivity.
    + repeat constructor; simpl; try discriminate; intuition discriminate.
  - split.
    + repeat constructor; simpl; intuition discriminate.
    + repeat constructor; simpl; try discriminate;
        try (unfold group_segment; intuition discriminate);
        intros item [<-|[]] [c Hc]; discriminate Hc.
  - exists bare_tree, tree. split; [exact Hbare|]. split; [exact Hbuild|].
    split; [apply Hrows|]. now rewrite !Hfind.
Defined.
